(** * aria-at-harness: the key model, the command validator and mapper,
      the AT protocol client and the driver test runner

    A shallow embedding of [src/agent/at-driver.js],
    [src/runner/driver-test-runner.js] and [src/runner/mock-test-runner.js].

    JavaScript strings are sequences of UTF-16 code units; they are modelled
    as lists of code units ([N]).  Case conversion ([toUpperCase],
    [toLowerCase]) is modelled on the Basic Latin letters and leaves every
    other code unit unchanged. *)

From Stdlib Require Import List NArith Bool Ascii String Lia Arith.
Import ListNotations.

Set Implicit Arguments.

(* ================================================================== *)
(** * JavaScript strings *)
(* ================================================================== *)

Module JS.

Definition char := N.
Definition jsstring := list char.

(** String literals of the source, written as Rocq strings. *)
Definition str (s : string) : jsstring :=
  map N_of_ascii (list_ascii_of_string s).

Definition between (lo hi c : N) : bool := (lo <=? c)%N && (c <=? hi)%N.

Definition is_upper (c : char) : bool := between 65 90 c.
Definition is_lower (c : char) : bool := between 97 122 c.
Definition is_digit (c : char) : bool := between 48 57 c.
Definition is_alnum (c : char) : bool := is_upper c || is_lower c || is_digit c.

(** [\w] of a regular expression without the [u] or [i] flag. *)
Definition is_word (c : char) : bool := is_alnum c || (c =? 95)%N.

(** [\s] of a regular expression; also the code units that
    [String.prototype.trim] strips (WhiteSpace and LineTerminator). *)
Definition is_space (c : char) : bool :=
  between 9 13 c || (c =? 32)%N || (c =? 160)%N || (c =? 5760)%N
  || between 8192 8202 c || (c =? 8232)%N || (c =? 8233)%N
  || (c =? 8239)%N || (c =? 8287)%N || (c =? 12288)%N || (c =? 65279)%N.

Definition toUpperChar (c : char) : char := if is_lower c then (c - 32)%N else c.
Definition toLowerChar (c : char) : char := if is_upper c then (c + 32)%N else c.

Definition toUpperCase (s : jsstring) : jsstring := map toUpperChar s.
Definition toLowerCase (s : jsstring) : jsstring := map toLowerChar s.

(** [a === b] on strings. *)
Fixpoint streq (a b : jsstring) : bool :=
  match a, b with
  | [], [] => true
  | x :: a', y :: b' => (x =? y)%N && streq a' b'
  | _, _ => false
  end.

(** [s.startsWith(p)]; used to match a literal at the current position. *)
Fixpoint starts_with (p s : jsstring) : bool :=
  match p, s with
  | [], _ => true
  | x :: p', y :: s' => (x =? y)%N && starts_with p' s'
  | _ :: _, [] => false
  end.

Fixpoint dropWhile (f : char -> bool) (s : jsstring) : jsstring :=
  match s with
  | [] => []
  | c :: t => if f c then dropWhile f t else s
  end.

(** [s.trim()] *)
Definition trim (s : jsstring) : jsstring :=
  rev (dropWhile is_space (rev (dropWhile is_space s))).

(** Truthiness of a value that is a string or [undefined]:
    [undefined] and the empty string are falsy. *)
Definition truthy (v : option jsstring) : bool :=
  match v with
  | Some (_ :: _) => true
  | _ => false
  end.

(** [a || b] on such values. *)
Definition or_else (a b : option jsstring) : option jsstring :=
  if truthy a then a else b.

(** [parts.join(sep)] *)
Fixpoint join (sep : jsstring) (parts : list jsstring) : jsstring :=
  match parts with
  | [] => []
  | [p] => p
  | p :: ps => p ++ sep ++ join sep ps
  end.

(** Lookup of an own property in an object literal used as a table; the
    literal is given as the list of its entries, whose names differ. *)
Fixpoint lookup (table : list (jsstring * jsstring)) (k : jsstring)
  : option jsstring :=
  match table with
  | [] => None
  | (k', v) :: rest => if streq k' k then Some v else lookup rest k
  end.

(** [s] occurs in [t] as a contiguous substring. *)
Definition infix (s t : jsstring) : Prop :=
  exists pre post, t = pre ++ s ++ post.

End JS.
Import JS.

(* ================================================================== *)
(** * Key model ([src/agent/at-driver.js]) *)
(* ================================================================== *)

Definition seleniumKeysMap : list (jsstring * jsstring) :=
  [ (str "NULL", [0xe000%N]);
    (str "CANCEL", [0xe001%N]);
    (str "HELP", [0xe002%N]);
    (str "BACKSPACE", [0xe003%N]);
    (str "TAB", [0xe004%N]);
    (str "CLEAR", [0xe005%N]);
    (str "RETURN", [0xe006%N]);
    (str "ENTER", [0xe007%N]);
    (str "SHIFT", [0xe008%N]);
    (str "CONTROL", [0xe009%N]);
    (str "ALT", [0xe00a%N]);
    (str "PAUSE", [0xe00b%N]);
    (str "ESCAPE", [0xe00c%N]);
    (str "SPACE", [0xe00d%N]);
    (str "PAGE_UP", [0xe00e%N]);
    (str "PAGE_DOWN", [0xe00f%N]);
    (str "END", [0xe010%N]);
    (str "HOME", [0xe011%N]);
    (str "LEFT", [0xe012%N]);
    (str "UP", [0xe013%N]);
    (str "RIGHT", [0xe014%N]);
    (str "DOWN", [0xe015%N]);
    (str "INSERT", [0xe016%N]);
    (str "DELETE", [0xe017%N]);
    (str "SEMICOLON", [0xe018%N]);
    (str "EQUALS", [0xe019%N]);
    (str "NUMPAD0", [0xe01a%N]);
    (str "NUMPAD1", [0xe01b%N]);
    (str "NUMPAD2", [0xe01c%N]);
    (str "NUMPAD3", [0xe01d%N]);
    (str "NUMPAD4", [0xe01e%N]);
    (str "NUMPAD5", [0xe01f%N]);
    (str "NUMPAD6", [0xe020%N]);
    (str "NUMPAD7", [0xe021%N]);
    (str "NUMPAD8", [0xe022%N]);
    (str "NUMPAD9", [0xe023%N]);
    (str "MULTIPLY", [0xe024%N]);
    (str "ADD", [0xe025%N]);
    (str "SEPARATOR", [0xe026%N]);
    (str "SUBTRACT", [0xe027%N]);
    (str "DECIMAL", [0xe028%N]);
    (str "DIVIDE", [0xe029%N]);
    (str "F1", [0xe031%N]);
    (str "F2", [0xe032%N]);
    (str "F3", [0xe033%N]);
    (str "F4", [0xe034%N]);
    (str "F5", [0xe035%N]);
    (str "F6", [0xe036%N]);
    (str "F7", [0xe037%N]);
    (str "F8", [0xe038%N]);
    (str "F9", [0xe039%N]);
    (str "F10", [0xe03a%N]);
    (str "F11", [0xe03b%N]);
    (str "F12", [0xe03c%N]);
    (str "META", [0xe03d%N]);
    (str "COMMAND", [0xe03d%N]);
    (str "ZENKAKU_HANKAKU", [0xe040%N]) ].

(** [class ATKey]: [this.key] and [this.mapped]. *)
Record ATKey := { key : jsstring; mapped : jsstring }.

(** [new ATKey(key)]: [seleniumKeysMap[this.key.toUpperCase()] ?? this.key] *)
Definition new_ATKey (k : jsstring) : ATKey :=
  {| key := k;
     mapped := match lookup seleniumKeysMap (toUpperCase k) with
               | Some v => v
               | None => k
               end |}.

Record ATKeyChord := { keys : list ATKey }.
Record ATKeySequence := { sequence : list ATKeyChord }.

(** What [ATKey.sequence] may be given: the three classes it tests with
    [instanceof], and any other value, which it ignores. *)
Inductive Item :=
| IKey (k : ATKey)
| IChord (c : ATKeyChord)
| ISequence (s : ATKeySequence)
| IOther.

Definition ATKey_key (k : jsstring) : ATKey := new_ATKey k.
Definition ATKey_chord (ks : list ATKey) : ATKeyChord := {| keys := ks |}.

(** One turn of the loop of [ATKey.sequence]. *)
Definition sequence_push (normalized : list ATKeyChord) (item : Item)
  : list ATKeyChord :=
  match item with
  | IChord c => normalized ++ [c]
  | IKey k => normalized ++ [ATKey_chord [k]]
  | ISequence s => normalized ++ sequence s
  | IOther => normalized
  end.

Definition ATKey_sequence (items : list Item) : ATKeySequence :=
  {| sequence := fold_left sequence_push items [] |}.

(* ------------------------------------------------------------------ *)
(** ** Flattening *)

Definition item_chords (item : Item) : list ATKeyChord := sequence_push [] item.

Lemma sequence_push_app (acc : list ATKeyChord) (item : Item) :
  sequence_push acc item = acc ++ item_chords item.
Proof.
  destruct item; cbn; auto using app_nil_r.
Qed.

Lemma fold_sequence_push (items : list Item) :
  forall acc, fold_left sequence_push items acc = acc ++ flat_map item_chords items.
Proof.
  induction items as [|i items IH]; intros acc; cbn [fold_left flat_map].
  - now rewrite app_nil_r.
  - rewrite IH, sequence_push_app. now rewrite <- app_assoc.
Qed.

Lemma sequence_chords (items : list Item) :
  sequence (ATKey_sequence items) = flat_map item_chords items.
Proof.
  unfold ATKey_sequence; cbn. now rewrite fold_sequence_push.
Qed.

Lemma ATKeySequence_ext (s t : ATKeySequence) :
  sequence s = sequence t -> s = t.
Proof.
  destruct s, t; cbn; congruence.
Qed.

Lemma sequence_nested (xs ys : list Item) :
  ATKey_sequence (ISequence (ATKey_sequence xs) :: ys) = ATKey_sequence (xs ++ ys).
Proof.
  apply ATKeySequence_ext.
  rewrite !sequence_chords, flat_map_app. cbn [flat_map].
  f_equal. unfold item_chords at 1. cbn. apply sequence_chords.
Qed.

(** C7: [ATKey.sequence] flattens a nested sequence:
    [sequence(sequence(a, b), c)] is [sequence(a, b, c)], the same chords in
    the same order, for every key or chord [a], [b] (indeed for every item)
    and every chord [c]. *)
Theorem sequence_flattens (a b : Item) (c : ATKeyChord) :
  ATKey_sequence [ISequence (ATKey_sequence [a; b]); IChord c]
  = ATKey_sequence [a; b; IChord c].
Proof.
  exact (sequence_nested [a; b] [IChord c]).
Qed.

(* ================================================================== *)
(** * Regular expressions and string methods used by the runner *)
(* ================================================================== *)

Module Re.

(** [/c/.test(s)] for a class of single code units. *)
Definition test_class (cls : char -> bool) (s : jsstring) : bool := existsb cls s.

(** The code unit after a literal of length [n] at the start of [s] is not
    a word character (or there is none): the closing [\b] of [/\bw\b/]. *)
Definition boundary_after (n : nat) (s : jsstring) : bool :=
  match skipn n s with
  | [] => true
  | c :: _ => negb (is_word c)
  end.

(** [/\bw\b/.test(s)] for a literal [w] that starts and ends with a word
    character; [prev_word] tells whether the code unit before [s] is a
    word character. *)
Fixpoint test_word_from (prev_word : bool) (w s : jsstring) : bool :=
  match s with
  | [] => false
  | c :: t =>
      (negb prev_word && starts_with w s && boundary_after (List.length w) s)
      || test_word_from (is_word c) w t
  end.

Definition test_word (w s : jsstring) : bool := test_word_from false w s.

(** [s.replace(/(PAGE)_(DOWN|UP)/, '$1$2')]: the first match only. *)
Fixpoint replace_page (s : jsstring) : jsstring :=
  match s with
  | [] => []
  | c :: t =>
      if starts_with (str "PAGE_DOWN") s then str "PAGEDOWN" ++ skipn 9 s
      else if starts_with (str "PAGE_UP") s then str "PAGEUP" ++ skipn 7 s
      else c :: replace_page t
  end.

(** [s.replace(a, b)] for single code units given as strings: the first
    occurrence only. *)
Fixpoint replace_first (a b : char) (s : jsstring) : jsstring :=
  match s with
  | [] => []
  | c :: t => if (c =? a)%N then b :: t else c :: replace_first a b t
  end.

(** [s.replace(/a/g, b)] for single code units. *)
Definition replace_every (a b : char) (s : jsstring) : jsstring :=
  map (fun c => if (c =? a)%N then b else c) s.

(** [s.replace(re, '')] for a global [re] that matches no empty string:
    [m s] is the length of the match of [re] at the start of [s], if any;
    [skip] counts the code units of the current match still to drop. *)
Fixpoint remove_matches (m : jsstring -> option nat) (skip : nat) (s : jsstring)
  : jsstring :=
  match s with
  | [] => []
  | c :: t =>
      match skip with
      | S k => remove_matches m k t
      | O =>
          match m s with
          | Some (S n) => remove_matches m n t
          | _ => c :: remove_matches m 0 t
          end
      end
  end.

(** [/_ARROW/] at the start of [s]. *)
Definition match_ARROW (s : jsstring) : option nat :=
  if starts_with (str "_ARROW") s then Some 6 else None.

(** [/\s?arrow\s?/] at the start of [s]; both [\s?] are greedy. *)
Definition match_arrow_spaces (s : jsstring) : option nat :=
  let tail_len (r : jsstring) :=
    match skipn 5 r with
    | c :: _ => if is_space c then 6 else 5
    | [] => 5
    end in
  match s with
  | c :: t =>
      if is_space c && starts_with (str "arrow") t then Some (1 + tail_len t)
      else if starts_with (str "arrow") s then Some (tail_len s)
      else None
  | [] => None
  end.

(** [s.split(re)] for a class [sep] of single code units, and
    [s.split(c)] for a single code unit: the empty string gives one empty
    part. *)
Fixpoint split (sep : char -> bool) (s : jsstring) : list jsstring :=
  match s with
  | [] => [[]]
  | c :: t =>
      if sep c then [] :: split sep t
      else match split sep t with
           | p :: ps => (c :: p) :: ps
           | [] => [[c]]
           end
  end.

End Re.
Import Re.

(* ================================================================== *)
(** * Commands and their validation ([src/runner/driver-test-runner.js]) *)
(* ================================================================== *)

Record Keypress := { keypress_id : jsstring }.

Record Command := {
  command_id : jsstring;
  keypresses : list Keypress;
  settings : option jsstring
}.

(** What [validateKeysFromCommand] returns: an object with a [value] or an
    [errors] property. *)
Record Validation := {
  value : option Command;
  errors : option (list jsstring)
}.

Definition c_slash : char := 47%N.
Definition c_lparen : char := 40%N.
Definition c_rparen : char := 41%N.
Definition c_plus : char := 43%N.
Definition c_comma : char := 44%N.
Definition c_underscore : char := 95%N.

(** [/[_+,]/] *)
Definition is_separator (c : char) : bool :=
  (c =? c_underscore)%N || (c =? c_plus)%N || (c =? c_comma)%N.

(** The three replacements at the top of the loop of
    [validateKeysFromCommand]. *)
Definition normalize_id (id : jsstring) : jsstring :=
  remove_matches match_ARROW 0
    (replace_first c_plus c_underscore (replace_page id)).

Definition quoted (s : jsstring) : jsstring := str "'" ++ s ++ str "'".

Definition err_slash (id : jsstring) := quoted id ++ str " cannot contain '/'.".
Definition err_parens (id : jsstring) := quoted id ++ str " cannot contain '(' or ')'.".
Definition err_or (id : jsstring) := quoted id ++ str " cannot contain 'or'.".
Definition err_followed (id : jsstring) :=
  quoted id ++ str " cannot contain 'followed' or 'followed by'.".
Definition err_part (part id : jsstring) :=
  quoted part ++ str " of " ++ quoted id
  ++ str " is not a recognized key - use single characters or "
  ++ [34%N] ++ str "Normalized" ++ [34%N]
  ++ str " values from https://w3c.github.io/webdriver/#keyboard-actions".

(** [if (cond) errors.push(msg)] *)
Definition push_if (cond : bool) (msg : jsstring) (errs : list jsstring)
  : list jsstring :=
  if cond then errs ++ [msg] else errs.

Section Validator.

(** The table [webDriverCodePoints] that the runner imports from
    [at-driver.js].  That file declares its table of named keys as
    [seleniumKeysMap] and exports no [webDriverCodePoints]: the table of
    the validator is a parameter. *)
Variable webDriverCodePoints : list (jsstring * jsstring).

(** [part.length != 1 && !webDriverCodePoints[part.toUpperCase()]]; the
    names that an object inherits all hold a lower-case letter, so that an
    upper-cased part finds own properties only. *)
Definition unrecognized (part : jsstring) : bool :=
  negb (List.length part =? 1)
  && negb (truthy (lookup webDriverCodePoints (toUpperCase part))).

(** The inner loop over [id.split(/[_+,]/)]. *)
Definition check_part (id : jsstring) (errs : list jsstring) (part : jsstring)
  : list jsstring :=
  push_if (unrecognized part) (err_part part id) errs.

(** One turn of the loop over [command.keypresses]. *)
Definition validate_keypress (errs : list jsstring) (kp : Keypress)
  : list jsstring :=
  let id := normalize_id (keypress_id kp) in
  let errs := push_if (test_class (N.eqb c_slash) id) (err_slash id) errs in
  let errs := push_if (test_class (fun c => (c =? c_lparen)%N || (c =? c_rparen)%N) id)
                      (err_parens id) errs in
  let errs := push_if (test_word (str "or") id) (err_or id) errs in
  let errs := push_if (test_word (str "followed") id) (err_followed id) errs in
  fold_left (check_part id) (split is_separator id) errs.

Definition validateKeysFromCommand (command : Command) : Validation :=
  let errs := fold_left validate_keypress (keypresses command) [] in
  if 0 <? List.length errs
  then {| value := None; errors := Some errs |}
  else {| value := Some command; errors := None |}.

End Validator.

(* ------------------------------------------------------------------ *)
(** ** The validator collects every error *)

Section ValidatorFacts.

Variable webDriverCodePoints : list (jsstring * jsstring).

(** The errors that one turn of the loop adds for a keypress. *)
Definition keypress_errors (kp : Keypress) : list jsstring :=
  validate_keypress webDriverCodePoints [] kp.

Lemma push_if_app (cond : bool) (msg : jsstring) (errs : list jsstring) :
  push_if cond msg errs = errs ++ push_if cond msg [].
Proof.
  destruct cond; cbn; auto using app_nil_r.
Qed.

Lemma fold_check_part (id : jsstring) (parts : list jsstring) :
  forall errs,
    fold_left (check_part webDriverCodePoints id) parts errs
    = errs ++ fold_left (check_part webDriverCodePoints id) parts [].
Proof.
  induction parts as [|p parts IH]; intros errs; cbn [fold_left].
  - now rewrite app_nil_r.
  - rewrite IH. rewrite (IH (check_part _ id [] p)).
    unfold check_part. rewrite (push_if_app _ _ errs).
    now rewrite app_assoc.
Qed.

Lemma validate_keypress_app (errs : list jsstring) (kp : Keypress) :
  validate_keypress webDriverCodePoints errs kp = errs ++ keypress_errors kp.
Proof.
  unfold keypress_errors, validate_keypress.
  set (id := normalize_id (keypress_id kp)).
  rewrite fold_check_part. symmetry. rewrite fold_check_part.
  rewrite app_assoc. f_equal. unfold push_if.
  repeat match goal with
         | |- context [if ?c then _ else _] => destruct c
         end;
    cbn [app]; rewrite <- ?app_assoc; cbn [app]; now rewrite ?app_nil_r.
Qed.

Lemma fold_validate_keypress (kps : list Keypress) :
  forall errs,
    fold_left (validate_keypress webDriverCodePoints) kps errs
    = errs ++ flat_map keypress_errors kps.
Proof.
  induction kps as [|kp kps IH]; intros errs; cbn [fold_left flat_map].
  - now rewrite app_nil_r.
  - rewrite IH, validate_keypress_app. now rewrite <- app_assoc.
Qed.

(** What the validator returns, in terms of the errors of each keypress. *)
Lemma validateKeysFromCommand_spec (command : Command) :
  let errs := flat_map keypress_errors (keypresses command) in
  validateKeysFromCommand webDriverCodePoints command
  = match errs with
    | [] => {| value := Some command; errors := None |}
    | _ :: _ => {| value := None; errors := Some errs |}
    end.
Proof.
  cbv zeta. unfold validateKeysFromCommand.
  rewrite fold_validate_keypress. cbn [app].
  now destruct (flat_map keypress_errors (keypresses command)).
Qed.

(** The two outcomes of the validator. *)
Lemma validation_cases (command : Command) :
  let v := validateKeysFromCommand webDriverCodePoints command in
  let all := flat_map keypress_errors (keypresses command) in
  (value v = Some command /\ errors v = None /\ all = [])
  \/ (value v = None /\ errors v = Some all /\ all <> []).
Proof.
  cbv zeta. rewrite validateKeysFromCommand_spec.
  destruct (flat_map keypress_errors (keypresses command)) as [|e0 rest].
  - left. cbn. auto.
  - right. cbn. repeat split. discriminate.
Qed.

(** The errors that the checks of the validator call for on an id, once
    the three replacements are made: one for each of the four tests that
    the id fails, in the order of the tests, whether or not an earlier test
    has failed, then one for each part of the id that is not a recognized
    key, in the order of the parts. *)
Definition every_error (id : jsstring) : list jsstring :=
  (if test_class (N.eqb c_slash) id then [err_slash id] else [])
  ++ (if test_class (fun c => (c =? c_lparen)%N || (c =? c_rparen)%N) id
      then [err_parens id] else [])
  ++ (if test_word (str "or") id then [err_or id] else [])
  ++ (if test_word (str "followed") id then [err_followed id] else [])
  ++ map (fun part => err_part part id)
         (filter (unrecognized webDriverCodePoints) (split is_separator id)).

Lemma fold_check_part_filter (id : jsstring) (parts : list jsstring) :
  fold_left (check_part webDriverCodePoints id) parts []
  = map (fun part => err_part part id)
        (filter (unrecognized webDriverCodePoints) parts).
Proof.
  induction parts as [|p parts IH]; [reflexivity|].
  cbn [fold_left filter]. rewrite fold_check_part, IH.
  unfold check_part, push_if.
  now destruct (unrecognized webDriverCodePoints p).
Qed.

(** One turn of the loop reports every error of the keypress. *)
Lemma keypress_errors_every_error (kp : Keypress) :
  keypress_errors kp = every_error (normalize_id (keypress_id kp)).
Proof.
  unfold keypress_errors, validate_keypress, every_error.
  set (id := normalize_id (keypress_id kp)).
  rewrite fold_check_part, fold_check_part_filter.
  rewrite !app_assoc. f_equal. unfold push_if.
  repeat match goal with
         | |- context [if ?c then _ else _] => destruct c
         end; reflexivity.
Qed.

(** C3: [validateKeysFromCommand] returns either the command, validated,
    or a list of errors that is not empty, never both; and the list holds
    every error of every keypress of the command, in order: for each
    keypress, an error for each test that its id fails and for each part
    of its id that is not a recognized key.  No error, of an earlier
    keypress or of the same one, stops the validation or hides another. *)
Theorem validation_outcome (command : Command) :
  let v := validateKeysFromCommand webDriverCodePoints command in
  let all := flat_map (fun kp => every_error (normalize_id (keypress_id kp)))
                      (keypresses command) in
  ((value v = Some command /\ errors v = None /\ all = [])
   \/ (value v = None /\ errors v = Some all /\ all <> []))
  /\ all = flat_map keypress_errors (keypresses command)
  /\ (forall kp e, In kp (keypresses command) ->
                   In e (keypress_errors kp) -> In e all)
  /\ (forall kp, In kp (keypresses command) ->
        let id := normalize_id (keypress_id kp) in
        (test_class (N.eqb c_slash) id = true -> In (err_slash id) all)
        /\ (test_class (fun c => (c =? c_lparen)%N || (c =? c_rparen)%N) id = true ->
            In (err_parens id) all)
        /\ (test_word (str "or") id = true -> In (err_or id) all)
        /\ (test_word (str "followed") id = true -> In (err_followed id) all)
        /\ (forall part, In part (split is_separator id) ->
              unrecognized webDriverCodePoints part = true ->
              In (err_part part id) all)).
Proof.
  cbv zeta.
  assert (E : flat_map (fun kp => every_error (normalize_id (keypress_id kp)))
                       (keypresses command)
              = flat_map keypress_errors (keypresses command)).
  { apply flat_map_ext. intros kp. symmetry. apply keypress_errors_every_error. }
  rewrite E. split; [|split; [reflexivity|split]].
  - destruct (validation_cases command) as [H|H]; [left|right]; exact H.
  - intros kp e Hkp He. apply in_flat_map. eauto.
  - intros kp Hkp.
    assert (Hin : forall e, In e (every_error (normalize_id (keypress_id kp))) ->
                            In e (flat_map keypress_errors (keypresses command))).
    { intros e He. apply in_flat_map. exists kp. split; [exact Hkp|].
      now rewrite keypress_errors_every_error. }
    unfold every_error in Hin.
    repeat split.
    + intros H. apply Hin. rewrite H. apply in_or_app. left. now left.
    + intros H. apply Hin. rewrite H.
      apply in_or_app. right. apply in_or_app. left. now left.
    + intros H. apply Hin. rewrite H.
      do 2 (apply in_or_app; right). apply in_or_app. left. now left.
    + intros H. apply Hin. rewrite H.
      do 3 (apply in_or_app; right). apply in_or_app. left. now left.
    + intros part Hp Hu. apply Hin.
      do 4 (apply in_or_app; right).
      apply in_map_iff. exists part. split; [reflexivity|].
      apply filter_In. auto.
Qed.

End ValidatorFacts.

(** Two keypresses: the id of the first fails all four tests and is no
    recognized key, that of the second holds a slash and is no recognized
    key; the seven errors are reported, those of the first keypress
    first. *)
Example validation_reports_every_error :
  let id := str "A/B (or) followed" in
  match errors (validateKeysFromCommand seleniumKeysMap
                  {| command_id := str "c5";
                     keypresses := [ {| keypress_id := id |};
                                     {| keypress_id := str "x/y" |} ];
                     settings := None |}) with
  | Some errs =>
      List.length errs = 7
      /\ firstn 4 errs = [err_slash id; err_parens id; err_or id; err_followed id]
      /\ In (err_slash (str "x/y")) errs
  | None => False
  end.
Proof. vm_compute. repeat split; auto 10. Qed.

(* ------------------------------------------------------------------ *)
(** ** What the three replacements of the validator keep *)

Lemma N_eqb_true (a b : N) : (a =? b)%N = true -> a = b.
Proof. apply N.eqb_eq. Qed.

Lemma streq_eq (a b : jsstring) : streq a b = true -> a = b.
Proof.
  revert b; induction a as [|x a IH]; intros [|y b]; cbn; try discriminate; auto.
  intros H. apply andb_true_iff in H as [Hxy Hab].
  apply N_eqb_true in Hxy. f_equal; auto.
Qed.

Lemma starts_with_app (p s : jsstring) :
  starts_with p s = true -> s = p ++ skipn (List.length p) s.
Proof.
  revert s; induction p as [|x p IH]; intros [|y s]; cbn; try discriminate; auto.
  intros H. apply andb_true_iff in H as [Hxy Hps].
  apply N_eqb_true in Hxy. subst y. f_equal. auto.
Qed.

(** How one replacement may change an id: code units are kept; a [+] may
    become [_]; an upper-case letter may go; a [_] before an upper-case
    letter may go. *)
Inductive edits : jsstring -> jsstring -> Prop :=
| edits_nil : edits [] []
| edits_keep c s t : edits s t -> edits (c :: s) (c :: t)
| edits_plus s t : edits s t -> edits (c_plus :: s) (c_underscore :: t)
| edits_drop_upper c s t : is_upper c = true -> edits s t -> edits (c :: s) t
| edits_drop_underscore d s t :
    is_upper d = true -> edits (d :: s) t -> edits (c_underscore :: d :: s) t.

Create HintDb edits.
#[local] Hint Constructors edits : edits.

Lemma edits_refl (s : jsstring) : edits s s.
Proof. induction s; auto with edits. Qed.

#[local] Hint Resolve edits_refl : edits.

Lemma edits_replace_page (s : jsstring) : edits s (replace_page s).
Proof.
  induction s as [|c t IH]; cbn [replace_page]; auto with edits.
  destruct (starts_with (str "PAGE_DOWN") (c :: t)) eqn:Hd.
  - apply starts_with_app in Hd. rewrite Hd at 1.
    cbn [str list_ascii_of_string map app List.length].
    do 4 apply edits_keep. apply edits_drop_underscore; [reflexivity|].
    apply edits_refl.
  - destruct (starts_with (str "PAGE_UP") (c :: t)) eqn:Hu; auto with edits.
    apply starts_with_app in Hu. rewrite Hu at 1.
    cbn [str list_ascii_of_string map app List.length].
    do 4 apply edits_keep. apply edits_drop_underscore; [reflexivity|].
    apply edits_refl.
Qed.

Lemma edits_replace_first_plus (s : jsstring) :
  edits s (replace_first c_plus c_underscore s).
Proof.
  induction s as [|c t IH]; cbn [replace_first]; auto with edits.
  destruct (c =? c_plus)%N eqn:E; auto with edits.
  apply N_eqb_true in E. subst c. auto with edits.
Qed.

Lemma remove_ARROW_match (rest : jsstring) :
  remove_matches match_ARROW 0 (str "_ARROW" ++ rest)
  = remove_matches match_ARROW 0 rest.
Proof. reflexivity. Qed.

Lemma edits_remove_ARROW (s : jsstring) :
  edits s (remove_matches match_ARROW 0 s).
Proof.
  remember (List.length s) as n eqn:Hn.
  revert s Hn. induction n as [n IH] using lt_wf_ind. intros s Hn.
  destruct s as [|c t]; [constructor|].
  destruct (starts_with (str "_ARROW") (c :: t)) eqn:Hm.
  - apply starts_with_app in Hm. rewrite Hm.
    rewrite remove_ARROW_match.
    set (rest := skipn _ _).
    assert (Hlen : List.length rest < n).
    { subst n rest. rewrite length_skipn. cbn. lia. }
    cbn [str list_ascii_of_string map app].
    apply edits_drop_underscore; [reflexivity|].
    do 5 (apply edits_drop_upper; [reflexivity|]).
    eapply IH; eauto.
  - cbn [remove_matches]. unfold match_ARROW at 1. rewrite Hm.
    apply edits_keep. eapply IH; [|reflexivity]. subst n. cbn. lia.
Qed.

(** A code unit that is neither [+], [_] nor an upper-case letter stays. *)
Lemma edits_keeps_char (c : char) (s t : jsstring) :
  edits s t ->
  c <> c_plus -> c <> c_underscore -> is_upper c = false ->
  In c s -> In c t.
Proof.
  intros E Hp Hu Hup. induction E; intros Hin.
  - exact Hin.
  - destruct Hin as [->|Hin]; [now left|right; auto].
  - destruct Hin as [<-|Hin]; [congruence|right; auto].
  - destruct Hin as [->|Hin]; [congruence|auto].
  - destruct Hin as [<-|Hin]; [congruence|auto].
Qed.

Lemma normalize_id_keeps_char (c : char) (id : jsstring) :
  c <> c_plus -> c <> c_underscore -> is_upper c = false ->
  In c id -> In c (normalize_id id).
Proof.
  intros Hp Hu Hup Hin. unfold normalize_id.
  eapply edits_keeps_char; [apply edits_remove_ARROW|auto..].
  eapply edits_keeps_char; [apply edits_replace_first_plus|auto..].
  eapply edits_keeps_char; [apply edits_replace_page|auto..].
Qed.

(* ------------------------------------------------------------------ *)
(** ** Classes of code units *)

Ltac bool_hyps :=
  repeat match goal with
    | H : _ && _ = true |- _ => apply andb_true_iff in H; destruct H
    | H : _ || _ = false |- _ => apply orb_false_iff in H; destruct H
    | H : negb _ = true |- _ => apply negb_true_iff in H
    | H : negb _ = false |- _ => apply negb_false_iff in H
    | H : (_ <=? _)%N = true |- _ => apply N.leb_le in H
    | H : (_ <=? _)%N = false |- _ => apply N.leb_gt in H
    | H : (_ =? _)%N = true |- _ => apply N.eqb_eq in H
    | H : (_ =? _)%N = false |- _ => apply N.eqb_neq in H
    | H : _ && _ = false |- _ => apply andb_false_iff in H; destruct H
    | H : _ || _ = true |- _ => apply orb_true_iff in H; destruct H
    end.

Ltac unfold_classes :=
  unfold is_separator, is_word, is_alnum, is_upper, is_lower, is_digit, between,
    toUpperChar, toLowerChar,
    c_plus, c_comma, c_underscore, c_slash, c_lparen, c_rparen in *.

(** Settles a boolean fact about classes of code units by arithmetic. *)
Ltac class_bool :=
  match goal with
  | |- ?b = _ =>
      let E := fresh "E" in
      destruct b eqn:E; try reflexivity; exfalso;
      unfold_classes; bool_hyps; subst; try lia
  end.

Lemma lower_not_upper (c : char) : is_lower c = true -> is_upper c = false.
Proof. intros H. class_bool. Qed.

Lemma lower_alnum (c : char) : is_lower c = true -> is_alnum c = true.
Proof. intros H. unfold is_alnum. rewrite H. now rewrite orb_true_r. Qed.

Lemma upper_alnum (c : char) : is_upper c = true -> is_alnum c = true.
Proof. intros H. unfold is_alnum. now rewrite H. Qed.

Lemma upper_not_lower (c : char) : is_upper c = true -> is_lower c = false.
Proof. intros H. class_bool. Qed.

Lemma separator_not_alnum (c : char) : is_separator c = true -> is_alnum c = false.
Proof. intros H. class_bool. Qed.

Lemma alnum_word (c : char) : is_alnum c = true -> is_word c = true.
Proof. intros H. unfold is_word. now rewrite H. Qed.

Lemma word_not_separator (c : char) :
  is_word c = true -> is_separator c = false -> is_alnum c = true.
Proof. intros H1 H2. class_bool. Qed.

Lemma toUpperChar_word (c : char) :
  is_word (toUpperChar c) = true -> is_word c = true.
Proof.
  unfold toUpperChar. destruct (is_lower c) eqn:L; auto.
  intros _. now apply alnum_word, lower_alnum.
Qed.

(* ------------------------------------------------------------------ *)
(** ** Ids in which a lower-case word starts at a boundary *)

Lemma split_not_nil (sep : char -> bool) (s : jsstring) : split sep s <> [].
Proof.
  destruct s as [|c t]; cbn; [discriminate|].
  destruct (sep c); [discriminate|]. destruct (split sep t); discriminate.
Qed.

Lemma lookup_in (table : list (jsstring * jsstring)) (k v : jsstring) :
  lookup table k = Some v -> In (k, v) table.
Proof.
  induction table as [|[k' v'] table IH]; cbn; [discriminate|].
  destruct (streq k' k) eqn:E.
  - intros [= ->]. apply streq_eq in E. subst. now left.
  - intros H. right. auto.
Qed.

Section WordStart.

(** The first two letters of the word. *)
Variables x y : char.
Hypothesis Hx : is_lower x = true.
Hypothesis Hy : is_lower y = true.

Definition head_is (c : char) (s : jsstring) : bool :=
  match s with
  | d :: _ => (d =? c)%N
  | [] => false
  end.

(** [x] then [y] occur in [s], at its start when [b] holds, or right after
    a code unit that is neither a letter nor a digit. *)
Fixpoint word_start (b : bool) (s : jsstring) : bool :=
  match s with
  | [] => false
  | c :: t =>
      (b && (c =? x)%N && head_is y t) || word_start (negb (is_alnum c)) t
  end.

Lemma word_start_mono (b : bool) (s : jsstring) :
  word_start false s = true -> word_start b s = true.
Proof.
  destruct s as [|c t]; cbn; auto.
  intros ->. apply orb_true_r.
Qed.

Lemma not_x (c : char) : is_lower c = false -> (c =? x)%N = false.
Proof.
  intros H. destruct (c =? x)%N eqn:E; auto.
  apply N_eqb_true in E. congruence.
Qed.

Lemma edits_head_y (s t : jsstring) :
  edits s t -> head_is y s = true -> head_is y t = true.
Proof.
  intros E. destruct E as [|c s t E|s t E|c s t U E|d s t U E];
    cbn [head_is]; auto; intros Hh; apply N_eqb_true in Hh; exfalso.
  - subst y. discriminate Hy.
  - subst c. rewrite (upper_not_lower _ U) in Hy. discriminate.
  - subst y. discriminate Hy.
Qed.

Lemma edits_word_start (s t : jsstring) :
  edits s t -> forall b, word_start b s = true -> word_start b t = true.
Proof.
  induction 1 as [|c s t E IH|s t E IH|c s t U E IH|d s t U E IH];
    intros b; cbn [word_start]; auto.
  - intros H. apply orb_true_iff in H as [H|H].
    + apply andb_true_iff in H as [H1 H2].
      rewrite H1, (edits_head_y E H2). reflexivity.
    + rewrite (IH _ H). apply orb_true_r.
  - rewrite (not_x c_plus eq_refl), andb_false_r. cbn [orb].
    intros H. change (negb (is_alnum c_plus)) with true in H.
    change (negb (is_alnum c_underscore)) with true.
    rewrite (IH _ H). apply orb_true_r.
  - rewrite (not_x c (upper_not_lower _ U)), andb_false_r. cbn [orb].
    rewrite (upper_alnum _ U). cbn [negb].
    intros H. apply word_start_mono. auto.
  - rewrite (not_x c_underscore eq_refl), andb_false_r. cbn [orb].
    change (negb (is_alnum c_underscore)) with true.
    rewrite (not_x d (upper_not_lower _ U)), andb_false_r. cbn [orb].
    intros H. apply word_start_mono. apply IH.
    cbn [word_start]. rewrite andb_false_l. exact H.
Qed.

Lemma normalize_id_word_start (id : jsstring) :
  word_start true id = true -> word_start true (normalize_id id) = true.
Proof.
  intros H. unfold normalize_id.
  eapply edits_word_start; [apply edits_remove_ARROW|].
  eapply edits_word_start; [apply edits_replace_first_plus|].
  eapply edits_word_start; [apply edits_replace_page|]. exact H.
Qed.

(** [/\bw\b/] finds such a start when [w] begins with [x], [y]. *)
Lemma test_word_word_start (w s : jsstring) :
  forall pw b,
    (pw = false -> b = true) ->
    test_word_from pw (x :: y :: w) s = true -> word_start b s = true.
Proof.
  induction s as [|c t IH]; intros pw b Hb; cbn [test_word_from word_start];
    [discriminate|].
  intros H. apply orb_true_iff in H as [H|H].
  - apply andb_true_iff in H as [H _]. apply andb_true_iff in H as [Hp Hs].
    apply negb_true_iff in Hp. rewrite (Hb Hp).
    cbn [starts_with] in Hs. apply andb_true_iff in Hs as [Hc Ht].
    rewrite N.eqb_sym in Hc. rewrite Hc. cbn [andb].
    destruct t as [|d t']; [discriminate|].
    apply andb_true_iff in Ht as [Hd _]. cbn [head_is].
    rewrite N.eqb_sym in Hd. now rewrite Hd.
  - rewrite (IH (is_word c) (negb (is_alnum c))); [apply orb_true_r| |exact H].
    intros Hw. destruct (is_alnum c) eqn:A; auto.
    apply alnum_word in A. congruence.
Qed.

(** *** The part of the id that holds such a start is not a named key *)

Variable table : list (jsstring * jsstring).

(** The names of the table are made of word characters and none begins
    with the upper-case form of [x], [y]. *)
Hypothesis table_names :
  forall k v, In (k, v) table ->
    forallb is_word k = true
    /\ starts_with [toUpperChar x; toUpperChar y] k = false.

Definition shape (b : bool) (p : jsstring) : Prop :=
  List.length p <= 1
  \/ (forallb is_alnum p = true /\ (b = true -> starts_with [x; y] p = false)).

Lemma forallb_word_upper (p : jsstring) :
  forallb is_word (toUpperCase p) = true -> forallb is_word p = true.
Proof.
  induction p as [|c p IH]; cbn; auto.
  intros H. apply andb_true_iff in H as [H1 H2].
  rewrite (toUpperChar_word _ H1). cbn. auto.
Qed.

Lemma starts_with_upper (p : jsstring) :
  starts_with [x; y] p = true ->
  starts_with [toUpperChar x; toUpperChar y] (toUpperCase p) = true.
Proof.
  destruct p as [|c [|d p]]; cbn; try discriminate.
  - now rewrite andb_false_r.
  - intros H. apply andb_true_iff in H as [H1 H2].
    apply andb_true_iff in H2 as [H2 _].
    apply N_eqb_true in H1, H2. subst. now rewrite !N.eqb_refl.
Qed.

Lemma recognized_shape (p : jsstring) :
  forallb (fun c => negb (is_separator c)) p = true ->
  unrecognized table p = false -> shape true p.
Proof.
  intros Hsep H. unfold unrecognized in H.
  apply andb_false_iff in H as [H|H].
  - left. apply negb_false_iff, Nat.eqb_eq in H. lia.
  - right. apply negb_false_iff in H.
    destruct (lookup table (toUpperCase p)) as [v|] eqn:L; [|discriminate].
    apply lookup_in, table_names in L as [Hw Hs]. split.
    + apply forallb_word_upper in Hw.
      apply forallb_forall. intros c Hc.
      rewrite forallb_forall in Hw, Hsep.
      apply word_not_separator; auto.
      apply negb_true_iff. auto.
    + intros _. destruct (starts_with [x; y] p) eqn:S; auto.
      apply starts_with_upper in S. congruence.
Qed.

Lemma split_parts_no_separator (s : jsstring) :
  Forall (fun p => forallb (fun c => negb (is_separator c)) p = true)
         (split is_separator s).
Proof.
  induction s as [|c t IH]; cbn [split].
  - repeat constructor.
  - destruct (is_separator c) eqn:Sc.
    + constructor; auto.
    + destruct (split is_separator t) as [|p ps].
      * repeat constructor. cbn. now rewrite Sc.
      * inversion IH; subst. constructor; auto. cbn. now rewrite Sc.
Qed.

Lemma word_start_parts (s : jsstring) :
  forall b p ps,
    split is_separator s = p :: ps ->
    shape b p -> Forall (shape true) ps ->
    word_start b s = false.
Proof.
  induction s as [|c t IH]; intros b p ps Hs Hp Hps; [reflexivity|].
  cbn [split] in Hs. cbn [word_start].
  destruct (is_separator c) eqn:Sc.
  - injection Hs as <- <-.
    destruct (split is_separator t) as [|p' ps'] eqn:St;
      [now apply split_not_nil in St|].
    inversion Hps; subst.
    rewrite (separator_not_alnum _ Sc). cbn [negb].
    rewrite (IH true p' ps' eq_refl); auto.
    rewrite not_x, andb_false_r; [reflexivity|].
    destruct (is_lower c) eqn:L; auto.
    apply lower_alnum in L. rewrite (separator_not_alnum _ Sc) in L. discriminate.
  - destruct (split is_separator t) as [|p' ps'] eqn:St;
      [now apply split_not_nil in St|].
    injection Hs as <- <-.
    rewrite (IH (negb (is_alnum c)) p' ps' eq_refl); auto.
    + rewrite orb_false_r.
      destruct b; [|reflexivity]. cbn [andb].
      destruct (c =? x)%N eqn:Ec; [|reflexivity]. cbn [andb].
      destruct t as [|d t']; [reflexivity|]. cbn [head_is].
      destruct (d =? y)%N eqn:Ed; [|reflexivity].
      exfalso. apply N_eqb_true in Ec, Ed. subst c d.
      cbn [split] in St.
      assert (Sy : is_separator y = false).
      { destruct (is_separator y) eqn:S; auto.
        apply separator_not_alnum in S. rewrite (lower_alnum _ Hy) in S.
        discriminate. }
      rewrite Sy in St.
      destruct (split is_separator t') as [|q qs]; injection St as <- <-.
      * destruct Hp as [Hp|[_ Hp]]; [cbn in Hp; lia|].
        specialize (Hp eq_refl). cbn in Hp. now rewrite !N.eqb_refl in Hp.
      * destruct Hp as [Hp|[_ Hp]]; [cbn in Hp; lia|].
        specialize (Hp eq_refl). cbn in Hp. now rewrite !N.eqb_refl in Hp.
    + destruct Hp as [Hp|[Hp _]].
      * left. cbn in Hp. lia.
      * cbn [forallb] in Hp. apply andb_true_iff in Hp as [Hc Hp'].
        right. rewrite Hc. split; [exact Hp'|discriminate].
Qed.

(** If [x], [y] start at a boundary of the normalized id, one of its
    parts is not recognized. *)
Lemma word_start_unrecognized (id : jsstring) :
  word_start true id = true ->
  existsb (unrecognized table) (split is_separator id) = true.
Proof.
  intros H.
  destruct (existsb (unrecognized table) (split is_separator id)) eqn:E; auto.
  exfalso.
  assert (Hall : Forall (shape true) (split is_separator id)).
  { pose proof (split_parts_no_separator id) as Hsep.
    rewrite Forall_forall in *. intros p Hp.
    apply recognized_shape; auto.
    destruct (unrecognized table p) eqn:U; auto.
    assert (existsb (unrecognized table) (split is_separator id) = true)
      by (apply existsb_exists; eauto).
    congruence. }
  destruct (split is_separator id) as [|p ps] eqn:S;
    [now apply split_not_nil in S|].
  inversion Hall; subst.
  rewrite (word_start_parts id S) in H; auto. discriminate.
Qed.

End WordStart.

(* ------------------------------------------------------------------ *)
(** ** Ids that the validator rejects *)

(** The tests of the validator, on an id as the test plan gives it. *)
Definition has_slash (id : jsstring) : bool := test_class (N.eqb c_slash) id.
Definition has_paren (id : jsstring) : bool :=
  test_class (fun c => (c =? c_lparen)%N || (c =? c_rparen)%N) id.
Definition has_or (id : jsstring) : bool := test_word (str "or") id.
Definition has_followed (id : jsstring) : bool := test_word (str "followed") id.

Definition rejected_id (id : jsstring) : bool :=
  has_slash id || has_paren id || has_or id || has_followed id.

(** A table of named keys: names made of word characters, none of which
    begins with OR or FO. *)
Definition named_keys (table : list (jsstring * jsstring)) : bool :=
  forallb (fun kv => forallb is_word (fst kv)
                     && negb (starts_with (str "OR") (fst kv))
                     && negb (starts_with (str "FO") (fst kv))) table.

Section Rejected.

Variable table : list (jsstring * jsstring).

Lemma push_if_le (c : bool) (m : jsstring) (e : list jsstring) :
  List.length e <= List.length (push_if c m e).
Proof. destruct c; cbn; rewrite ?length_app; cbn; lia. Qed.

Lemma push_if_lt (m : jsstring) (e : list jsstring) :
  List.length e < List.length (push_if true m e).
Proof. cbn. rewrite length_app. cbn. lia. Qed.

Lemma push_if_pos (m : jsstring) (e : list jsstring) :
  0 < List.length (push_if true m e).
Proof. pose proof (push_if_lt m e). lia. Qed.

Lemma push_if_keeps (c : bool) (m : jsstring) (e : list jsstring) :
  0 < List.length e -> 0 < List.length (push_if c m e).
Proof. pose proof (push_if_le c m e). lia. Qed.

Lemma fold_check_part_le (id : jsstring) (parts : list jsstring) :
  forall e, List.length e <= List.length (fold_left (check_part table id) parts e).
Proof.
  induction parts as [|p parts IH]; intros e; cbn [fold_left]; auto.
  etransitivity; [|apply IH]. apply push_if_le.
Qed.

Lemma fold_check_part_lt (id : jsstring) (parts : list jsstring) :
  existsb (unrecognized table) parts = true ->
  forall e, List.length e < List.length (fold_left (check_part table id) parts e).
Proof.
  induction parts as [|p parts IH]; cbn [existsb fold_left]; [discriminate|].
  intros H e. apply orb_true_iff in H as [H|H].
  - eapply Nat.lt_le_trans; [|apply fold_check_part_le].
    unfold check_part. rewrite H. apply push_if_lt.
  - eapply Nat.le_lt_trans; [|apply IH; exact H]. apply push_if_le.
Qed.

Lemma fold_keeps (id : jsstring) (parts : list jsstring) (e : list jsstring) :
  0 < List.length e ->
  0 < List.length (fold_left (check_part table id) parts e).
Proof. pose proof (fold_check_part_le id parts e). lia. Qed.

(** An error is pushed as soon as one test holds of the normalized id. *)
Lemma keypress_errors_fire (kp : Keypress) :
  let id := normalize_id (keypress_id kp) in
  rejected_id id || existsb (unrecognized table) (split is_separator id) = true ->
  keypress_errors table kp <> [].
Proof.
  cbv zeta. intros H.
  assert (L : 0 < List.length (keypress_errors table kp)).
  { unfold keypress_errors, validate_keypress.
    set (id := normalize_id (keypress_id kp)) in *.
    apply orb_true_iff in H as [H|H].
    - apply fold_keeps.
      unfold rejected_id, has_slash, has_paren, has_or, has_followed in H.
      apply orb_true_iff in H as [H|H4].
      + apply push_if_keeps.
        apply orb_true_iff in H as [H|H3].
        * apply push_if_keeps.
          apply orb_true_iff in H as [H1|H2].
          -- apply push_if_keeps. rewrite H1. apply push_if_pos.
          -- rewrite H2. apply push_if_pos.
        * rewrite H3. apply push_if_pos.
      + rewrite H4. apply push_if_pos.
    - eapply Nat.le_lt_trans; [|apply fold_check_part_lt; exact H]. lia. }
  intros E. rewrite E in L. cbn in L. lia.
Qed.

Lemma test_class_in (cls : char -> bool) (s : jsstring) :
  test_class cls s = true <-> exists c, In c s /\ cls c = true.
Proof. apply existsb_exists. Qed.

Lemma has_slash_normalize (id : jsstring) :
  has_slash id = true -> has_slash (normalize_id id) = true.
Proof.
  unfold has_slash. rewrite !test_class_in. intros (c & Hin & Hc).
  apply N_eqb_true in Hc. subst c. exists c_slash. split; [|reflexivity].
  apply normalize_id_keeps_char; auto; discriminate.
Qed.

Lemma has_paren_normalize (id : jsstring) :
  has_paren id = true -> has_paren (normalize_id id) = true.
Proof.
  unfold has_paren. rewrite !test_class_in. intros (c & Hin & Hc).
  exists c. split; [|exact Hc].
  apply orb_true_iff in Hc as [Hc|Hc]; apply N_eqb_true in Hc; subst c;
    apply normalize_id_keeps_char; auto; discriminate.
Qed.

Hypothesis table_named : named_keys table = true.

Lemma table_names_of (x y : char) :
  (x = 111%N /\ y = 114%N) \/ (x = 102%N /\ y = 111%N) ->
  forall k v, In (k, v) table ->
    forallb is_word k = true
    /\ starts_with [toUpperChar x; toUpperChar y] k = false.
Proof.
  intros Hxy k v Hin. unfold named_keys in table_named.
  rewrite forallb_forall in table_named.
  specialize (table_named _ Hin). cbn [fst] in table_named.
  apply andb_true_iff in table_named as [H HF].
  apply andb_true_iff in H as [HW HO].
  apply negb_true_iff in HO, HF. split; [exact HW|].
  destruct Hxy as [[-> ->]|[-> ->]]; assumption.
Qed.

(** A word that begins with the two lower-case letters [x], [y] and is
    found by [/\bw\b/] in the id of the test plan yields an error. *)
Lemma word_rejected (x y : char) (w : jsstring) (kp : Keypress) :
  (x = 111%N /\ y = 114%N) \/ (x = 102%N /\ y = 111%N) ->
  test_word (x :: y :: w) (keypress_id kp) = true ->
  keypress_errors table kp <> [].
Proof.
  intros Hxy H. apply keypress_errors_fire. apply orb_true_iff. right.
  assert (Hx : is_lower x = true) by (destruct Hxy as [[-> _]|[-> _]]; reflexivity).
  assert (Hy : is_lower y = true) by (destruct Hxy as [[_ ->]|[_ ->]]; reflexivity).
  apply (word_start_unrecognized x y Hx Hy table (table_names_of Hxy)).
  apply (normalize_id_word_start x y Hx Hy).
  apply (test_word_word_start x y w (keypress_id kp) (pw:=false)); auto.
Qed.

Lemma rejected_keypress_errors (kp : Keypress) :
  rejected_id (keypress_id kp) = true -> keypress_errors table kp <> [].
Proof.
  unfold rejected_id. intros H.
  apply orb_true_iff in H as [H|H4].
  - apply orb_true_iff in H as [H|H3].
    + apply keypress_errors_fire. apply orb_true_iff. left.
      unfold rejected_id.
      apply orb_true_iff in H as [H1|H2].
      * now rewrite (has_slash_normalize _ H1).
      * rewrite (has_paren_normalize _ H2). now rewrite orb_true_r.
    + apply (@word_rejected 111%N 114%N []); auto.
  - apply (@word_rejected 102%N 111%N (str "llowed")); auto.
Qed.

End Rejected.

(** C6: a command one of whose keypress ids contains [/], [(] or [)], the
    word [or] or the word [followed] is never validated: the validator
    returns errors, whatever the table of named keys. *)
Theorem rejected_ids_never_validate
    (table : list (jsstring * jsstring)) (command : Command) (kp : Keypress) :
  named_keys table = true ->
  In kp (keypresses command) ->
  rejected_id (keypress_id kp) = true ->
  value (validateKeysFromCommand table command) = None
  /\ exists errs, errors (validateKeysFromCommand table command) = Some errs
                  /\ errs <> [].
Proof.
  intros Ht Hin Hrej.
  pose proof (@rejected_keypress_errors table Ht kp Hrej) as Hne.
  destruct (validation_cases table command) as [(_ & _ & Hall)|(Hv & He & Hall)].
  - exfalso. apply Hne.
    destruct (keypress_errors table kp) as [|e es] eqn:E; auto.
    assert (In e (flat_map (keypress_errors table) (keypresses command))).
    { apply in_flat_map. exists kp. split; auto. rewrite E. now left. }
    rewrite Hall in H. destruct H.
  - split; [exact Hv|]. eauto.
Qed.

Definition command_c2 : Command :=
  {| command_id := str "c2";
     keypresses := [ {| keypress_id := str "A/B" |} ];
     settings := None |}.

Lemma rejected_ids_never_validate_witness :
  value (validateKeysFromCommand seleniumKeysMap command_c2) = None
  /\ exists errs, errors (validateKeysFromCommand seleniumKeysMap command_c2) = Some errs
                  /\ errs <> [].
Proof.
  apply (@rejected_ids_never_validate seleniumKeysMap command_c2
           {| keypress_id := str "A/B" |}).
  - reflexivity.
  - cbn. left. reflexivity.
  - reflexivity.
Defined.

(* ================================================================== *)
(** * Effects: the trace, the environment and the monad of the runner *)
(* ================================================================== *)

(** The names of [AgentMessage] (of [messages.js]) under which the runner
    and the client log. *)
Inductive AgentMessage :=
| OPEN_PAGE | NO_RUN_TEST_SETUP | PRESS_KEYS | CAPABILITIES | START_TEST
| INVALID_KEYS | SPEECH_EVENT | AT_DRIVER_COMMS.

Record Capabilities := {
  atName : option jsstring;
  atVersion : option jsstring;
  browserName : option jsstring;
  browserVersion : option jsstring;
  platformName : option jsstring
}.

(** The [params] of the requests that the runner sends. *)
Inductive Params :=
| PressKeys (keys : list jsstring)
    (* { keys: [...] } *)
| SetSettings (name : jsstring) (value : bool).
    (* { settings: [{ name, value }] } *)

(** The data logged with a message. *)
Inductive Payload :=
| PUrl (url : jsstring)
| PReferencePage (referencePage : jsstring)
| PKeys (keys : ATKeySequence)
| PCapabilities (capabilities : Capabilities)
| PStartTest (id title : jsstring)
| PInvalidKeys (command : Command) (errors : option (list jsstring))
| PSpokenText (spokenText : jsstring)
| POutbound (id : nat) (method : jsstring) (params : Params).

(** What the runner does to the outside, in the order it does it. *)
Inductive Event :=
| Log (message : AgentMessage) (payload : Payload)
| SocketSend (id : nat) (method : jsstring) (params : Params)
| Response (id : nat) (error : option jsstring)
| Navigate (url : jsstring)
| DocumentReady
| ClickWhenPresent (selector : jsstring) (timeout : N)
| BrowserGetCapabilities
| ATGetCapabilities
| SpeechCollected (debounceDelay : N) (spoken : list jsstring).

(** A settled promise: a value or the message of the error thrown. *)
Inductive Result (A : Type) :=
| Ok (a : A)
| Throw (e : jsstring).
Arguments Ok {A} a.
Arguments Throw {A} e.

(** What the AT answers to a request: nothing before the socket closes, or
    a response with or without an [error]. *)
Definition Reply := option (option jsstring).

(** The AT, the browser and the speech they produce, as the runner sees
    them: what the AT answers to the request with a given id, the
    utterances captured during each collection of speech, whether each call
    of the browser driver fails, and the capabilities that both drivers
    report. *)
Record Env := {
  at_reply : nat -> Reply;
  at_speech : nat -> list jsstring;
  browser_reply : nat -> option jsstring;
  browser_capabilities : Result (option jsstring * option jsstring);
  at_capabilities : Result (option jsstring * option jsstring * option jsstring)
}.

(** What changes while the runner runs: the trace, the counter [_nextId] of
    the client, and how many collections of speech and calls of the browser
    driver have been made. *)
Record State := {
  trace : list Event;
  _nextId : nat;
  windows : nat;
  browser_calls : nat
}.

Definition emit_events (evs : list Event) (s : State) : State :=
  {| trace := trace s ++ evs; _nextId := _nextId s;
     windows := windows s; browser_calls := browser_calls s |}.

Definition M (A : Type) : Type := State -> Result A * State.

Definition ret {A} (a : A) : M A := fun s => (Ok a, s).
Definition throw {A} (e : jsstring) : M A := fun s => (Throw e, s).

Definition bind {A B} (m : M A) (k : A -> M B) : M B :=
  fun s =>
    match m s with
    | (Ok a, s') => k a s'
    | (Throw e, s') => (Throw e, s')
    end.

Notation "x <- m ;; k" := (bind m (fun x => k))
  (at level 61, m at next level, right associativity).
Notation "m ;; k" := (bind m (fun _ => k))
  (at level 61, right associativity).

(** [await] of a promise that is already settled. *)
Definition await {A} (p : Result A) : M A := fun s => (p, s).

Definition emit (e : Event) : M unit := fun s => (Ok tt, emit_events [e] s).

(** [try { body } catch ({}) { handler }] *)
Definition try_catch {A} (body : M A) (handler : M A) : M A :=
  fun s =>
    match body s with
    | (Ok a, s') => (Ok a, s')
    | (Throw _, s') => handler s'
    end.

(** [try { body } finally { cleanup }]: an error of the cleanup replaces the
    outcome of the body. *)
Definition try_finally {A} (body : M A) (cleanup : M unit) : M A :=
  fun s =>
    match body s with
    | (r, s') =>
        match cleanup s' with
        | (Ok _, s'') => (r, s'')
        | (Throw e, s'') => (Throw e, s'')
        end
    end.

(** [for (const x of xs) { await body(x) }] *)
Fixpoint for_of {A} (xs : list A) (body : A -> M unit) : M unit :=
  match xs with
  | [] => ret tt
  | x :: rest => body x ;; for_of rest body
  end.

(** A loop that threads an accumulator. *)
Fixpoint for_of_acc {A S} (xs : list A) (body : S -> A -> M S) (acc : S) : M S :=
  match xs with
  | [] => ret acc
  | x :: rest => acc' <- body acc x ;; for_of_acc rest body acc'
  end.

Definition log (message : AgentMessage) (payload : Payload) : M unit :=
  emit (Log message payload).

(* ================================================================== *)
(** * Tests and their results *)
(* ================================================================== *)

Record Assertion := {
  expectation : option jsstring;
  assertionStatement : option jsstring
}.

Record TestInfo := {
  testId : jsstring;
  task : jsstring;
  presentationNumber : option N
}.

Record TestTarget := {
  referencePage : jsstring;
  mode : option jsstring
}.

Record CollectedTest := {
  info : TestInfo;
  target : TestTarget;
  commands : list Command;
  assertions : list Assertion
}.

Module CommandOutput.
Record t := {
  command : jsstring;
  output : option jsstring;
  errors : option (list jsstring)
}.
End CommandOutput.

Module AssertionResult.
Record t := {
  command : jsstring;
  expectation : option jsstring;
  pass : bool
}.
End AssertionResult.

Module TestResult.
Record t := {
  testId : jsstring;
  presentationNumber : option N;
  capabilities : Capabilities;
  commands : list CommandOutput.t;
  results : list AssertionResult.t
}.
End TestResult.

Record TimesOption := {
  afterNav : N;
  afterKeys : N;
  testSetup : N;
  modeSwitch : N
}.

Record BaseURL := {
  protocol : jsstring;
  hostname : jsstring;
  port : jsstring;
  pathname : jsstring
}.

(** The fields of a [DriverTestRunner] that its methods read;
    [collectedCapabilities] is the promise that the constructor stores. *)
Record DriverTestRunner := {
  baseUrl : BaseURL;
  timesOption : TimesOption;
  collectedCapabilities : Result Capabilities
}.

(* ================================================================== *)
(** * The mapper ([atKeysFromCommand]) *)
(* ================================================================== *)

Definition key_of_part (part : jsstring) : ATKey :=
  let k := toLowerCase (trim part) in
  let k := remove_matches match_arrow_spaces 0 k in
  let k := filter (fun c => negb (is_space c)) k in
  ATKey_key (toLowerCase k).

Definition chord_of_keypress (kp : Keypress) : ATKeyChord :=
  ATKey_chord
    (map key_of_part
       (split (N.eqb c_underscore)
          (replace_every c_plus c_underscore (replace_page (keypress_id kp))))).

Definition atKeysFromCommand (command : Command) : ATKeySequence :=
  ATKey_sequence (map (fun kp => IChord (chord_of_keypress kp)) (keypresses command)).

(* ================================================================== *)
(** * The AT protocol client and the driver test runner *)
(* ================================================================== *)

Definition m_pressKeys : jsstring := str "interaction.pressKeys".
Definition m_setSettings : jsstring := str "nvda:settings.setSettings".
Definition passThroughAudioIndication : jsstring :=
  str "virtualBuffers.passThroughAudioIndication".
Definition about_blank : jsstring := str "about:blank".
Definition newline : jsstring := [10%N].

Section Runner.

Variable env : Env.

(** The table of named keys that the validator reads. *)
Variable webDriverCodePoints : list (jsstring * jsstring).

(** [new URL(path, base).toString()], a function of the platform. *)
Variable URL : jsstring -> jsstring -> jsstring.

(** ** [class ATDriver] *)

(** [this._nextId++] *)
Definition next_id : M nat :=
  fun s => (Ok (_nextId s),
            {| trace := trace s; _nextId := S (_nextId s);
               windows := windows s; browser_calls := browser_calls s |}).

(** The loop over [this._messages()] of [_send]: it ends at the response
    that carries the id of the request, or when the socket closes. *)
Definition await_response (id : nat) : M unit :=
  match at_reply env id with
  | None => ret tt
  | Some error =>
      emit (Response id error) ;;
      match error with
      | Some (c :: e) => throw (c :: e)
      | _ => ret tt
      end
  end.

Definition _send (method : jsstring) (params : Params) : M unit :=
  id <- next_id ;;
  log AT_DRIVER_COMMS (POutbound id method params) ;;
  emit (SocketSend id method params) ;;
  await_response id.

(** [ATDriver.sendKeys(...keys)] *)
Definition ATDriver_sendKeys (items : list Item) : M unit :=
  for_of (sequence (ATKey_sequence items)) (fun chord =>
    for_of (keys chord) (fun _ =>
      _send m_pressKeys (PressKeys (map mapped (keys chord))))).

(** ** [class DriverTestRunner] *)

(** [getCapabilities] asks the browser driver, then the AT driver; what
    they answer is given by the environment. *)
Definition getCapabilities : M Capabilities :=
  b <- (emit BrowserGetCapabilities ;; await (browser_capabilities env)) ;;
  a <- (emit ATGetCapabilities ;; await (at_capabilities env)) ;;
  ret {| atName := fst (fst a); atVersion := snd (fst a);
         browserName := fst b; browserVersion := snd b;
         platformName := snd a |}.

(** The constructor: it calls [getCapabilities] and keeps the promise. *)
Definition new_DriverTestRunner (base : BaseURL) (times : TimesOption)
  : State -> DriverTestRunner * State :=
  fun s =>
    let (r, s') := getCapabilities s in
    ({| baseUrl := base; timesOption := times; collectedCapabilities := r |}, s').

(** A call of the browser driver, which may fail. *)
Definition browser_call (e : Event) : M unit :=
  fun s =>
    let s' := {| trace := trace s ++ [e]; _nextId := _nextId s;
                 windows := windows s; browser_calls := S (browser_calls s) |} in
    match browser_reply env (browser_calls s) with
    | None => (Ok tt, s')
    | Some err => (Throw err, s')
    end.

(** [_collectSpeech]: the operation runs, then the utterances that the
    listening job has pushed by the time a whole delay goes without a new
    one are returned; the environment tells which they are. *)
Definition _collectSpeech (debounceDelay : N) (asyncOperation : M unit)
  : M (list jsstring) :=
  asyncOperation ;;
  fun s =>
    let spoken := at_speech env (windows s) in
    (Ok spoken,
     {| trace := trace s
                 ++ map (fun speech => Log SPEECH_EVENT (PSpokenText speech)) spoken
                 ++ [SpeechCollected debounceDelay spoken];
        _nextId := _nextId s; windows := S (windows s);
        browser_calls := browser_calls s |}).

Section Methods.

Variable this : DriverTestRunner.

Definition _appendBaseUrl (path : jsstring) : jsstring :=
  let b := baseUrl this in
  let base := protocol b ++ str "://" ++ hostname b ++ str ":" ++ port b
              ++ pathname b in
  let newPath := (match pathname b with
                  | _ :: _ => pathname b ++ str "/"
                  | [] => []
                  end) ++ path in
  URL newPath base.

Definition openPage (url referencePage : jsstring) : M unit :=
  log OPEN_PAGE (PUrl url) ;;
  browser_call (Navigate url) ;;
  browser_call DocumentReady ;;
  try_catch
    (browser_call (ClickWhenPresent (str ".button-run-test-setup")
                                    (testSetup (timesOption this))))
    (log NO_RUN_TEST_SETUP (PReferencePage referencePage)).

Definition sendKeys (seq : ATKeySequence) : M unit :=
  log PRESS_KEYS (PKeys seq) ;;
  ATDriver_sendKeys [ISequence seq].

(** One turn of the inner [while] of [pressKeysToToggleSetting]. *)
Definition collect_unknown (unknownCollected lastMessage : jsstring) : jsstring :=
  (match unknownCollected with
   | _ :: _ => unknownCollected ++ newline
   | [] => unknownCollected
   end) ++ lastMessage.

(** The inner [while]: [None] when a message is the desired response
    (the method returns), else the unknown messages collected. *)
Fixpoint match_speech (speechResponse : list jsstring)
    (desiredResponse unknownCollected : jsstring) : option jsstring :=
  match speechResponse with
  | [] => Some unknownCollected
  | message :: rest =>
      let lastMessage := trim message in
      if streq (toLowerCase lastMessage) (toLowerCase desiredResponse)
      then None
      else match_speech rest desiredResponse
             (collect_unknown unknownCollected lastMessage)
  end.

Definition unable_to_apply (desiredResponse unknownCollected : jsstring) : jsstring :=
  str "Unable to apply setting. Expected: " ++ [34%N] ++ desiredResponse
  ++ [34%N] ++ str " Got: " ++ [34%N] ++ unknownCollected ++ [34%N].

(** The [for] of [pressKeysToToggleSetting], from [triesRemain] down. *)
Fixpoint toggle_tries (triesRemain : nat) (seq : ATKeySequence)
    (desiredResponse unknownCollected : jsstring) : M unit :=
  match triesRemain with
  | O => throw (unable_to_apply desiredResponse unknownCollected)
  | S n =>
      speechResponse <- _collectSpeech (modeSwitch (timesOption this))
                                       (sendKeys seq) ;;
      match match_speech speechResponse desiredResponse unknownCollected with
      | None => ret tt
      | Some unknown => toggle_tries n seq desiredResponse unknown
      end
  end.

Definition pressKeysToToggleSetting (seq : ATKeySequence)
    (desiredResponse : jsstring) : M unit :=
  toggle_tries 2 seq desiredResponse [].

(** The object literal of [ensureSettings]; of the names it inherits,
    [constructor] and [__proto__], the model knows nothing: they are
    taken as absent. *)
Definition nvda_responses : list (jsstring * jsstring) :=
  [ (str "browsemode", str "Browse mode");
    (str "focusmode", str "Focus mode") ].

Definition set_audio_indication (value : bool) : M unit :=
  _send m_setSettings (SetSettings passThroughAudioIndication value).

Definition chord_of (names : list string) : ATKeySequence :=
  ATKey_sequence [IChord (ATKey_chord (map (fun n => ATKey_key (str n)) names))].

(** [v === 'name'] *)
Definition equals (name : string) (v : jsstring) : bool := streq v (str name).

Definition ensureSettings (settings : jsstring) : M unit :=
  caps <- await (collectedCapabilities this) ;;
  match atName caps with
  | None => ret tt
  | Some name =>
      if equals "NVDA" name then
        match lookup nvda_responses (toLowerCase settings) with
        | Some (c :: r) =>
            let desiredResponse := c :: r in
            set_audio_indication false ;;
            try_finally
              (pressKeysToToggleSetting (chord_of ["insert"; "space"]%string)
                                        desiredResponse)
              (set_audio_indication true)
        | _ =>
            throw (str "Unknown command settings for NVDA " ++ [34%N]
                   ++ settings ++ [34%N])
        end
      else if equals "VoiceOver" name then
        if equals "quickNavOn" settings || equals "arrowQuickKeyNavOn" settings then
          pressKeysToToggleSetting (chord_of ["left"; "right"]%string) (str "quick nav on")
        else if equals "quickNavOff" settings || equals "arrowQuickKeyNavOff" settings then
          pressKeysToToggleSetting (chord_of ["left"; "right"]%string) (str "quick nav off")
        else if equals "singleQuickKeyNavOn" settings then
          pressKeysToToggleSetting (chord_of ["control"; "option"; "q"]%string)
                                   (str "single-key quick nav on")
        else if equals "singleQuickKeyNavOff" settings then
          pressKeysToToggleSetting (chord_of ["control"; "option"; "q"]%string)
                                   (str "single-key quick nav off")
        else if negb (equals "defaultMode" settings) then
          throw (str "Unrecognized setting for VoiceOver: " ++ settings)
        else ret tt
      else if negb (truthy (Some name)) then ret tt
      else throw (str "Unable to ensure proper settings. Unknown atName " ++ name)
  end.

Definition ensureMode (mode : jsstring) : M unit :=
  caps <- await (collectedCapabilities this) ;;
  match atName caps with
  | None => ret tt
  | Some name =>
      if equals "NVDA" name then
        ensureSettings (if equals "reading" (toLowerCase mode)
                        then str "browseMode" else str "focusMode")
      else if equals "VoiceOver" name then ret tt
      else if negb (truthy (Some name)) then ret tt
      else throw (str "Unable to ensure proper mode. Unknown atName " ++ name)
  end.

(** The results pushed for a command, one for each assertion of the
    test. *)
Definition push_results (command : Command) (valid : bool)
    (results : list AssertionResult.t) (assertion : Assertion)
  : list AssertionResult.t :=
  results
  ++ [ {| AssertionResult.command := command_id command;
          AssertionResult.expectation :=
            if valid
            then or_else (expectation assertion) (assertionStatement assertion)
            else expectation assertion;
          AssertionResult.pass := valid |} ].

(** What a command whose keys are valid makes the runner do; the speech
    collected while the keys are sent is returned. *)
Definition exercise_command (test : CollectedTest) (command validCommand : Command)
  : M (list jsstring) :=
  _collectSpeech (afterNav (timesOption this))
    (openPage (_appendBaseUrl (referencePage (target test)))
              (referencePage (target test))) ;;
  match settings command with
  | Some (c :: s) => ensureSettings (c :: s)
  | _ =>
      match mode (target test) with
      | Some (c :: m) => ensureMode (c :: m)
      | _ => ret tt
      end
  end ;;
  spokenOutput <- _collectSpeech (afterKeys (timesOption this))
                                 (sendKeys (atKeysFromCommand validCommand)) ;;
  _collectSpeech (afterNav (timesOption this))
    (log OPEN_PAGE (PUrl about_blank) ;;
     browser_call (Navigate about_blank)) ;;
  ret spokenOutput.

(** One turn of the loop of [run] over [test.commands]. *)
Definition run_command (test : CollectedTest)
    (acc : list CommandOutput.t * list AssertionResult.t) (command : Command)
  : M (list CommandOutput.t * list AssertionResult.t) :=
  let (commandsOutput, results) := acc in
  let v := validateKeysFromCommand webDriverCodePoints command in
  match value v with
  | Some validCommand =>
      spokenOutput <- exercise_command test command validCommand ;;
      ret (commandsOutput
           ++ [ {| CommandOutput.command := command_id command;
                   CommandOutput.output := Some (join newline spokenOutput);
                   CommandOutput.errors := None |} ],
           fold_left (push_results command true) (assertions test) results)
  | None =>
      log INVALID_KEYS (PInvalidKeys command (errors v)) ;;
      ret (commandsOutput
           ++ [ {| CommandOutput.command := command_id command;
                   CommandOutput.output := None;
                   CommandOutput.errors := errors v |} ],
           fold_left (push_results command false) (assertions test) results)
  end.

Definition run (test : CollectedTest) : M TestResult.t :=
  capabilities <- await (collectedCapabilities this) ;;
  log CAPABILITIES (PCapabilities capabilities) ;;
  log START_TEST (PStartTest (testId (info test)) (task (info test))) ;;
  log OPEN_PAGE (PUrl about_blank) ;;
  browser_call (Navigate about_blank) ;;
  acc <- for_of_acc (commands test) (run_command test) ([], []) ;;
  ret {| TestResult.testId := testId (info test);
         TestResult.presentationNumber := presentationNumber (info test);
         TestResult.capabilities := capabilities;
         TestResult.commands := fst acc;
         TestResult.results := snd acc |}.

End Methods.

End Runner.

(* ================================================================== *)
(** * Reasoning about traces *)
(* ================================================================== *)

(** Every event that [m] adds to the trace satisfies [P]. *)
Definition only (P : Event -> Prop) {A} (m : M A) : Prop :=
  forall s, exists evs, trace (snd (m s)) = trace s ++ evs /\ Forall P evs.

Section Only.

Variable P : Event -> Prop.

Lemma only_ret A (a : A) : only P (ret a).
Proof. intros s. exists []. cbn. now rewrite app_nil_r. Qed.

Lemma only_throw A (e : jsstring) : only P (@throw A e).
Proof. intros s. exists []. cbn. now rewrite app_nil_r. Qed.

Lemma only_await A (p : Result A) : only P (await p).
Proof. intros s. exists []. cbn. now rewrite app_nil_r. Qed.

Lemma only_emit (e : Event) : P e -> only P (emit e).
Proof. intros H s. exists [e]. cbn. auto. Qed.

Lemma only_log (m : AgentMessage) (p : Payload) : P (Log m p) -> only P (log m p).
Proof. apply only_emit. Qed.

Lemma only_next_id : only P next_id.
Proof. intros s. exists []. cbn. now rewrite app_nil_r. Qed.

Lemma only_bind A B (m : M A) (k : A -> M B) :
  only P m -> (forall a, only P (k a)) -> only P (bind m k).
Proof.
  intros Hm Hk s. unfold bind.
  destruct (Hm s) as (e1 & T1 & F1).
  destruct (m s) as [[a|e] s1]; cbn [snd] in *.
  - destruct (Hk a s1) as (e2 & T2 & F2).
    exists (e1 ++ e2). rewrite T2, T1, app_assoc. split; auto.
    apply Forall_app; auto.
  - exists e1. auto.
Qed.

Lemma only_try_catch A (body handler : M A) :
  only P body -> only P handler -> only P (try_catch body handler).
Proof.
  intros Hb Hh s. unfold try_catch.
  destruct (Hb s) as (e1 & T1 & F1).
  destruct (body s) as [[a|e] s1]; cbn [snd] in *.
  - exists e1. auto.
  - destruct (Hh s1) as (e2 & T2 & F2).
    exists (e1 ++ e2). rewrite T2, T1, app_assoc. split; auto.
    apply Forall_app; auto.
Qed.

Lemma only_try_finally A (body : M A) (cleanup : M unit) :
  only P body -> only P cleanup -> only P (try_finally body cleanup).
Proof.
  intros Hb Hc s. unfold try_finally.
  destruct (Hb s) as (e1 & T1 & F1).
  destruct (body s) as [r s1]; cbn [snd] in *.
  destruct (Hc s1) as (e2 & T2 & F2).
  exists (e1 ++ e2).
  destruct (cleanup s1) as [[[]|e] s2]; cbn [snd] in *;
    rewrite T2, T1, app_assoc; split; auto; apply Forall_app; auto.
Qed.

Lemma only_for_of A (xs : list A) (body : A -> M unit) :
  (forall x, only P (body x)) -> only P (for_of xs body).
Proof.
  intros H. induction xs as [|x xs IH]; cbn [for_of].
  - apply only_ret.
  - apply only_bind; auto.
Qed.

Lemma only_for_of_acc A S (xs : list A) (body : S -> A -> M S) :
  (forall acc x, only P (body acc x)) ->
  forall acc, only P (for_of_acc xs body acc).
Proof.
  intros H. induction xs as [|x xs IH]; intros acc; cbn [for_of_acc].
  - apply only_ret.
  - apply only_bind; auto.
Qed.

Variable env : Env.

Lemma only_browser_call (e : Event) : P e -> only P (browser_call env e).
Proof.
  intros H s. exists [e]. unfold browser_call.
  destruct (browser_reply env (browser_calls s)); cbn; auto.
Qed.

Lemma only_collectSpeech (d : N) (op : M unit) :
  (forall sp, P (Log SPEECH_EVENT (PSpokenText sp))) ->
  (forall l, P (SpeechCollected d l)) ->
  only P op -> only P (_collectSpeech env d op).
Proof.
  intros Hs Hc Hop. unfold _collectSpeech. apply only_bind; auto.
  intros _ s. eexists. cbn [snd trace]. split; [reflexivity|].
  apply Forall_app. split; [|auto].
  apply Forall_forall. intros e He. apply in_map_iff in He as (sp & <- & _). auto.
Qed.

End Only.

Lemma only_impl (P Q : Event -> Prop) A (m : M A) :
  (forall e, P e -> Q e) -> only P m -> only Q m.
Proof.
  intros H Hm s. destruct (Hm s) as (evs & T & F).
  exists evs. split; auto. eapply Forall_impl; eauto.
Qed.

(** The requests written to the socket, in order. *)
Definition sent (evs : list Event) : list (nat * jsstring * Params) :=
  flat_map (fun e => match e with
                     | SocketSend id m p => [(id, m, p)]
                     | _ => []
                     end) evs.

Lemma sent_app (a b : list Event) : sent (a ++ b) = sent a ++ sent b.
Proof. apply flat_map_app. Qed.

(** The events added between two states. *)
Definition new_events (s s' : State) : list Event :=
  skipn (List.length (trace s)) (trace s').

Lemma new_events_app (s s' : State) (evs : list Event) :
  trace s' = trace s ++ evs -> new_events s s' = evs.
Proof.
  intros H. unfold new_events. rewrite H.
  rewrite skipn_app, skipn_all, Nat.sub_diag. reflexivity.
Qed.

(* ================================================================== *)
(** * The requests of the client *)
(* ================================================================== *)

(** The events of a request with the given method: the log of the outbound
    message, the write to the socket, the response. *)
Definition comms (method : jsstring) (e : Event) : Prop :=
  match e with
  | Log AT_DRIVER_COMMS (POutbound _ m _) => m = method
  | SocketSend _ m _ => m = method
  | Response _ _ => True
  | _ => False
  end.

Ltac only_auto :=
  repeat first
    [ apply only_ret | apply only_throw | apply only_await | apply only_next_id
    | apply only_emit; cbn; auto
    | apply only_log; cbn; auto
    | apply only_browser_call; cbn; auto
    | apply only_try_catch | apply only_try_finally
    | apply only_for_of; intros ?
    | apply only_bind; [|intros ?]
    | match goal with
      | |- only _ (match ?x with _ => _ end) => destruct x
      end ].

Lemma only_await_response (env : Env) (m : jsstring) (id : nat) :
  only (comms m) (await_response env id).
Proof. unfold await_response. only_auto. Qed.

Lemma only_send (env : Env) (m : jsstring) (p : Params) :
  only (comms m) (_send env m p).
Proof.
  unfold _send. only_auto. apply only_await_response.
Qed.

Lemma only_ATDriver_sendKeys (env : Env) (items : list Item) :
  only (comms m_pressKeys) (ATDriver_sendKeys env items).
Proof.
  unfold ATDriver_sendKeys.
  apply only_for_of; intros chord. apply only_for_of; intros _.
  apply only_send.
Qed.

(** The AT acknowledges every request, nothing is spoken but what [speech]
    tells, the browser driver never fails. *)
Definition env_of (name : string) (speech : nat -> list jsstring) : Env :=
  {| at_reply := fun _ => Some None;
     at_speech := speech;
     browser_reply := fun _ => None;
     browser_capabilities := Ok (Some (str "chrome"), Some (str "126"));
     at_capabilities := Ok (Some (str name), Some (str "2024.1"), Some (str "windows")) |}.

Definition quiet_env : Env := env_of "NVDA" (fun _ => []).

Definition initial : State :=
  {| trace := []; _nextId := 0; windows := 0; browser_calls := 0 |}.

Definition insert_space : ATKeyChord :=
  ATKey_chord [ATKey_key (str "insert"); ATKey_key (str "space")].

(** C1, as the code has it: for the one chord Insert+Space, [sendKeys]
    writes two [interaction.pressKeys] requests, one for each key of the
    chord, each with the keys of the whole chord. *)
Theorem sendKeys_one_request_per_key :
  sent (trace (snd (ATDriver_sendKeys quiet_env [IChord insert_space] initial)))
  = [ (0, m_pressKeys, PressKeys [[0xe016%N]; [0xe00d%N]]);
      (1, m_pressKeys, PressKeys [[0xe016%N]; [0xe00d%N]]) ].
Proof. reflexivity. Qed.

(* ------------------------------------------------------------------ *)
(** ** Scenario A: the command ENTER *)

Definition command_c1 : Command :=
  {| command_id := str "c1";
     keypresses := [ {| keypress_id := str "ENTER" |} ];
     settings := None |}.

Lemma send_sent (env : Env) (m : jsstring) (p : Params) (s : State) :
  sent (trace (snd (_send env m p s))) = sent (trace s) ++ [(_nextId s, m, p)].
Proof.
  unfold _send, bind, next_id, log, emit, await_response. cbn.
  destruct (at_reply env (_nextId s)) as [[[|c e]|]|]; cbn;
    rewrite ?sent_app; cbn; rewrite <- ?app_assoc, ?app_nil_r; reflexivity.
Qed.

Lemma trace_bind_ret (m : M unit) (s : State) :
  trace (snd ((m ;; ret tt) s)) = trace (snd (m s)).
Proof. unfold bind. now destruct (m s) as [[[]|e] s']. Qed.

(** C9: the command [{id: "c1", keypresses: [{id: "ENTER"}]}] is valid when
    ENTER is a named key of the table; it maps to a sequence of one chord
    that holds the one key [enter]; and [sendKeys] writes exactly one
    [interaction.pressKeys] request for it, whose keys are the one mapped
    value U+E007. *)
Theorem scenario_enter
    (table : list (jsstring * jsstring)) (env : Env) (s : State) :
  truthy (lookup table (str "ENTER")) = true ->
  value (validateKeysFromCommand table command_c1) = Some command_c1
  /\ errors (validateKeysFromCommand table command_c1) = None
  /\ atKeysFromCommand command_c1
     = {| sequence := [ {| keys := [ {| key := str "enter"; mapped := [0xe007%N] |} ] |} ] |}
  /\ sent (trace (snd (ATDriver_sendKeys env [ISequence (atKeysFromCommand command_c1)] s)))
     = sent (trace s) ++ [ (_nextId s, m_pressKeys, PressKeys [[0xe007%N]]) ].
Proof.
  intros H.
  assert (V : validateKeysFromCommand table command_c1
              = {| value := Some command_c1; errors := None |}).
  { rewrite validateKeysFromCommand_spec.
    assert (E : keypress_errors table {| keypress_id := str "ENTER" |} = []).
    { unfold keypress_errors, validate_keypress.
      change (normalize_id (keypress_id {| keypress_id := str "ENTER" |}))
        with (str "ENTER").
      change (split is_separator (str "ENTER")) with [str "ENTER"].
      cbn [fold_left]. unfold check_part at 1, unrecognized.
      change (toUpperCase (str "ENTER")) with (str "ENTER").
      rewrite H. reflexivity. }
    cbn [keypresses command_c1 flat_map]. rewrite E. reflexivity. }
  rewrite V. repeat split.
  change (atKeysFromCommand command_c1)
    with {| sequence := [ {| keys := [ {| key := str "enter"; mapped := [0xe007%N] |} ] |} ] |}.
  unfold ATDriver_sendKeys.
  change (sequence (ATKey_sequence [ISequence _]))
    with [ {| keys := [ {| key := str "enter"; mapped := [0xe007%N] |} ] |} ].
  cbn [for_of]. rewrite trace_bind_ret.
  cbn [for_of keys]. rewrite trace_bind_ret.
  apply send_sent.
Qed.

Lemma scenario_enter_witness :
  value (validateKeysFromCommand seleniumKeysMap command_c1) = Some command_c1
  /\ errors (validateKeysFromCommand seleniumKeysMap command_c1) = None
  /\ atKeysFromCommand command_c1
     = {| sequence := [ {| keys := [ {| key := str "enter"; mapped := [0xe007%N] |} ] |} ] |}
  /\ sent (trace (snd (ATDriver_sendKeys quiet_env
                         [ISequence (atKeysFromCommand command_c1)] initial)))
     = sent (trace initial) ++ [ (_nextId initial, m_pressKeys, PressKeys [[0xe007%N]]) ].
Proof.
  apply (@scenario_enter seleniumKeysMap quiet_env initial). reflexivity.
Defined.

(* ================================================================== *)
(** * [pressKeysToToggleSetting] *)
(* ================================================================== *)

(** The response to a request carries an error. *)
Definition rejects (r : Reply) : bool :=
  match r with
  | Some (Some (_ :: _)) => true
  | _ => false
  end.

(** The AT answers no request with an error. *)
Definition acknowledges (env : Env) : Prop :=
  forall id, rejects (at_reply env id) = false.

(** The test of the inner [while] of [pressKeysToToggleSetting]. *)
Definition is_desired (desiredResponse message : jsstring) : bool :=
  streq (toLowerCase (trim message)) (toLowerCase desiredResponse).

Definition is_press_log (e : Event) : bool :=
  match e with
  | Log PRESS_KEYS _ => true
  | _ => false
  end.

(** The number of times the runner was asked to send keys: each attempt of
    [pressKeysToToggleSetting] asks once. *)
Definition attempts (evs : list Event) : nat :=
  List.length (filter is_press_log evs).

Lemma attempts_app (a b : list Event) : attempts (a ++ b) = attempts a + attempts b.
Proof. unfold attempts. now rewrite filter_app, length_app. Qed.

Lemma attempts_none (Q : Event -> Prop) (evs : list Event) :
  (forall e, Q e -> is_press_log e = false) -> Forall Q evs -> attempts evs = 0.
Proof.
  intros HQ F. induction F as [|e evs He F IH]; [reflexivity|].
  unfold attempts in *. cbn. now rewrite (HQ e He).
Qed.

Lemma comms_not_press (m : jsstring) (e : Event) : comms m e -> is_press_log e = false.
Proof. destruct e as [[] ?| | | | | | | |]; cbn; auto; contradiction. Qed.

(** ** Substrings *)

Lemma infix_refl (s : jsstring) : infix s s.
Proof. exists [], []. cbn. now rewrite app_nil_r. Qed.

Lemma infix_trans (a b c : jsstring) : infix a b -> infix b c -> infix a c.
Proof.
  intros (p1 & q1 & ->) (p2 & q2 & ->).
  exists (p2 ++ p1), (q1 ++ q2). now rewrite <- !app_assoc.
Qed.

Lemma infix_app_l (a b : jsstring) : infix a (a ++ b).
Proof. exists [], b. reflexivity. Qed.

Lemma infix_app_r (a b : jsstring) : infix b (a ++ b).
Proof. exists a, []. now rewrite app_nil_r. Qed.

Lemma infix_collect_unknown_l (u m : jsstring) : infix u (collect_unknown u m).
Proof.
  unfold collect_unknown. destruct u as [|c u]; [exists [], m; reflexivity|].
  rewrite <- app_assoc. apply infix_app_l.
Qed.

Lemma infix_collect_unknown_r (u m : jsstring) : infix m (collect_unknown u m).
Proof. unfold collect_unknown. apply infix_app_r. Qed.

(** ** The inner loop *)

Lemma match_speech_none (lines : list jsstring) (d : jsstring) :
  forall u, match_speech lines d u = None <-> existsb (is_desired d) lines = true.
Proof.
  induction lines as [|l lines IH]; intros u; cbn [match_speech existsb].
  - split; discriminate.
  - unfold is_desired at 1.
    destruct (streq (toLowerCase (trim l)) (toLowerCase d)); cbn [orb].
    + tauto.
    + apply IH.
Qed.

Lemma match_speech_some (lines : list jsstring) (d : jsstring) :
  forall u u',
    match_speech lines d u = Some u' ->
    infix u u' /\ forall l, In l lines -> infix (trim l) u'.
Proof.
  induction lines as [|l lines IH]; intros u u'; cbn [match_speech].
  - intros [= <-]. split; [apply infix_refl|]. intros l [].
  - destruct (streq (toLowerCase (trim l)) (toLowerCase d)); [discriminate|].
    intros H. apply IH in H as [Hu Hl]. split.
    + eapply infix_trans; [apply infix_collect_unknown_l|exact Hu].
    + intros l' [<-|Hin]; auto.
      eapply infix_trans; [apply infix_collect_unknown_r|exact Hu].
Qed.

(** ** One attempt *)

Section Toggle.

Variable env : Env.
Variable this : DriverTestRunner.
Variable seq : ATKeySequence.

Definition attempt : M (list jsstring) :=
  _collectSpeech env (modeSwitch (timesOption this)) (sendKeys env seq).

(** Whatever the AT answers, an attempt asks for the keys once. *)
Lemma attempt_trace (s : State) :
  exists evs, trace (snd (attempt s)) = trace s ++ evs /\ attempts evs = 1.
Proof.
  unfold attempt, _collectSpeech, sendKeys, log, emit.
  unfold bind at 1 2. cbn [fst snd].
  set (s0 := emit_events _ s).
  destruct (only_ATDriver_sendKeys env [ISequence seq] s0) as (evs & T & F).
  pose proof (attempts_none (comms_not_press m_pressKeys) F) as A.
  destruct (ATDriver_sendKeys env [ISequence seq] s0) as [[[]|e] s1];
    cbn [snd] in T; cbn [snd trace].
  - eexists. rewrite T. subst s0. cbn [trace emit_events].
    rewrite <- !app_assoc. split; [reflexivity|].
    rewrite !attempts_app, A.
    assert (Sp : forall l, attempts
              (map (fun speech => Log SPEECH_EVENT (PSpokenText speech)) l) = 0).
    { intros l. apply (@attempts_none (fun e => is_press_log e = false)); auto.
      apply Forall_forall. intros e He. apply in_map_iff in He as (sp & <- & _).
      reflexivity. }
    rewrite Sp. reflexivity.
  - eexists. rewrite T. subst s0. cbn [trace emit_events].
    rewrite <- !app_assoc. split; [reflexivity|].
    now rewrite !attempts_app, A.
Qed.

(** The tries never ask more often than there are tries. *)
Lemma toggle_tries_attempts (d : jsstring) (n : nat) :
  forall u s,
  exists evs,
    trace (snd (toggle_tries env this n seq d u s)) = trace s ++ evs
    /\ attempts evs <= n.
Proof.
  induction n as [|n IH]; intros u s; cbn [toggle_tries].
  - exists []. cbn. rewrite app_nil_r. auto.
  - fold attempt. unfold bind.
    destruct (attempt_trace s) as (e1 & T1 & A1).
    destruct (attempt s) as [[lines|e] s1]; cbn [snd] in T1.
    + destruct (match_speech lines d u) as [u'|].
      * destruct (IH u' s1) as (e2 & T2 & A2).
        exists (e1 ++ e2). rewrite T2, T1, app_assoc, attempts_app.
        split; [reflexivity|lia].
      * exists e1. cbn. split; [auto|lia].
    + exists e1. cbn. split; [auto|lia].
Qed.

(** ** When the AT acknowledges the keys *)

Hypothesis acks : acknowledges env.

Definition passes (m : M unit) : Prop :=
  forall s, fst (m s) = Ok tt /\ windows (snd (m s)) = windows s.

Lemma passes_bind (m : M unit) (k : M unit) :
  passes m -> passes k -> passes (m ;; k).
Proof.
  intros Hm Hk s. unfold bind. destruct (Hm s) as [R W].
  destruct (m s) as [[[]|e] s1]; cbn [fst snd] in *; [|discriminate].
  destruct (Hk s1) as [R' W']. split; congruence.
Qed.

Lemma passes_for_of A (xs : list A) (body : A -> M unit) :
  (forall x, passes (body x)) -> passes (for_of xs body).
Proof.
  intros H. induction xs as [|x xs IH]; cbn [for_of].
  - intros s. cbn. auto.
  - apply passes_bind; auto.
Qed.

Lemma passes_send (m : jsstring) (p : Params) : passes (_send env m p).
Proof.
  intros s. unfold _send, bind, next_id, log, emit, await_response. cbn.
  pose proof (acks (_nextId s)) as R.
  destruct (at_reply env (_nextId s)) as [[[|c e]|]|]; cbn in *;
    try discriminate; auto.
Qed.

Lemma passes_sendKeys : passes (sendKeys env seq).
Proof.
  unfold sendKeys. apply passes_bind.
  - intros s. cbn. auto.
  - unfold ATDriver_sendKeys. apply passes_for_of. intros chord.
    apply passes_for_of. intros _. apply passes_send.
Qed.

(** An attempt returns the speech of the next collection. *)
Lemma attempt_ok (s : State) :
  fst (attempt s) = Ok (at_speech env (windows s))
  /\ windows (snd (attempt s)) = S (windows s).
Proof.
  unfold attempt, _collectSpeech, bind.
  destruct (passes_sendKeys s) as [R W].
  destruct (sendKeys env seq s) as [[[]|e] s1]; cbn [fst snd] in *;
    [|discriminate].
  cbn. now rewrite W.
Qed.

Lemma toggle_tries_step (d u : jsstring) (n : nat) (s : State) :
  toggle_tries env this (S n) seq d u s
  = match match_speech (at_speech env (windows s)) d u with
    | None => (Ok tt, snd (attempt s))
    | Some u' => toggle_tries env this n seq d u' (snd (attempt s))
    end.
Proof.
  cbn [toggle_tries]. fold attempt. unfold bind.
  destruct (attempt_ok s) as [R _].
  destruct (attempt s) as [[lines|e] s1]; cbn [fst snd] in *; [|discriminate].
  injection R as ->. now destruct (match_speech _ d u).
Qed.

End Toggle.

Lemma toggle_at_most_two_attempts
    (env : Env) (this : DriverTestRunner) (seq : ATKeySequence)
    (desiredResponse : jsstring) (s : State) :
  attempts (new_events s (snd (pressKeysToToggleSetting env this seq desiredResponse s)))
  <= 2.
Proof.
  unfold pressKeysToToggleSetting.
  destruct (toggle_tries_attempts env this seq desiredResponse 2 [] s) as (evs & T & A).
  now rewrite (@new_events_app _ _ _ T).
Qed.

(** C4, as the code has it: [pressKeysToToggleSetting] makes at most two
    attempts; when the AT acknowledges the keys, it returns after the first
    attempt if a line captured then, once trimmed, is the desired response
    up to case; and if no trimmed line of either attempt is, it throws an
    error whose message holds every trimmed line of both attempts. *)
Theorem toggle_setting_attempts
    (env : Env) (this : DriverTestRunner) (seq : ATKeySequence)
    (desiredResponse : jsstring) (s : State) :
  let out := pressKeysToToggleSetting env this seq desiredResponse s in
  let first := at_speech env (windows s) in
  let second := at_speech env (S (windows s)) in
  attempts (new_events s (snd out)) <= 2
  /\ (acknowledges env ->
      (existsb (is_desired desiredResponse) first = true ->
       fst out = Ok tt /\ attempts (new_events s (snd out)) = 1)
      /\ (existsb (is_desired desiredResponse) (first ++ second) = false ->
          exists unknown,
            fst out = Throw (unable_to_apply desiredResponse unknown)
            /\ attempts (new_events s (snd out)) = 2
            /\ forall line, In line (first ++ second) ->
                 infix (trim line) unknown
                 /\ infix (trim line) (unable_to_apply desiredResponse unknown))).
Proof.
  cbv zeta. split; [apply toggle_at_most_two_attempts|]. intros acks.
  unfold pressKeysToToggleSetting.
  rewrite (toggle_tries_step this seq acks).
  destruct (attempt_trace env this seq s) as (e1 & T1 & A1).
  destruct (attempt_ok this seq acks s) as [_ W1].
  set (s1 := snd (attempt env this seq s)) in *.
  split.
  - intros Hm. apply (match_speech_none _ _ []) in Hm. rewrite Hm. cbn [fst snd].
    split; [reflexivity|]. now rewrite (@new_events_app _ _ _ T1).
  - intros Hn. rewrite existsb_app in Hn. apply orb_false_iff in Hn as [Hn1 Hn2].
    destruct (match_speech (at_speech env (windows s)) desiredResponse [])
      as [u1|] eqn:M1;
      [|apply match_speech_none in M1; congruence].
    rewrite (toggle_tries_step this seq acks). rewrite W1.
    destruct (match_speech (at_speech env (S (windows s))) desiredResponse u1)
      as [u2|] eqn:M2;
      [|apply match_speech_none in M2; congruence].
    destruct (attempt_trace env this seq s1) as (e2 & T2 & A2).
    cbn [toggle_tries throw fst snd].
    exists u2. split; [reflexivity|]. split.
    + rewrite (@new_events_app s _ (e1 ++ e2)).
      * rewrite attempts_app. lia.
      * rewrite T2, T1. now rewrite app_assoc.
    + apply match_speech_some in M1 as [_ L1].
      apply match_speech_some in M2 as [U12 L2].
      assert (Hmsg : infix u2 (unable_to_apply desiredResponse u2)).
      { unfold unable_to_apply.
        exists (str "Unable to apply setting. Expected: " ++ [34%N] ++ desiredResponse
                ++ [34%N] ++ str " Got: " ++ [34%N]), [34%N].
        now rewrite <- !app_assoc. }
      intros line Hin. apply in_app_iff in Hin as [Hin|Hin].
      * assert (infix (trim line) u2) by (eapply infix_trans; eauto).
        split; [assumption|]. eapply infix_trans; eauto.
      * split; [auto|]. eapply infix_trans; eauto.
Qed.

(** ** Examples *)

Definition example_times : TimesOption :=
  {| afterNav := 1000; afterKeys := 5000; testSetup := 1000; modeSwitch := 750 |}.

Definition example_base : BaseURL :=
  {| protocol := str "http"; hostname := str "localhost"; port := str "8080";
     pathname := [] |}.

Definition example_runner (env : Env) : DriverTestRunner :=
  fst (new_DriverTestRunner env example_base example_times initial).

(** The AT says "Focus mode" at the first attempt and "Browse mode" at the
    second. *)
Definition focus_then_browse (k : nat) : list jsstring :=
  match k with
  | 0 => [str "Focus mode"]
  | 1 => [str "Browse mode"]
  | _ => []
  end.

Definition browse_at_once (k : nat) : list jsstring :=
  match k with
  | 0 => [str "  browse MODE "]
  | _ => []
  end.

Lemma acknowledges_env_of (name : string) (speech : nat -> list jsstring) :
  acknowledges (env_of name speech).
Proof. intros id. reflexivity. Qed.

Lemma toggle_setting_attempts_witness :
  fst (pressKeysToToggleSetting (env_of "NVDA" browse_at_once)
         (example_runner (env_of "NVDA" browse_at_once))
         (ATKey_sequence [IChord insert_space]) (str "Browse mode") initial) = Ok tt
  /\ attempts (new_events initial
       (snd (pressKeysToToggleSetting (env_of "NVDA" browse_at_once)
               (example_runner (env_of "NVDA" browse_at_once))
               (ATKey_sequence [IChord insert_space]) (str "Browse mode") initial))) = 1.
Proof.
  apply (@toggle_setting_attempts (env_of "NVDA" browse_at_once)
           (example_runner (env_of "NVDA" browse_at_once))
           (ATKey_sequence [IChord insert_space]) (str "Browse mode") initial).
  - intros id. reflexivity.
  - reflexivity.
Defined.

(** A desired response that ends with a space: the captured line is the
    desired response up to case, yet the runner, which trims the line,
    finds no match, tries twice and throws. *)
Definition trailing_space (k : nat) : list jsstring :=
  match k with
  | 0 => [str "browse MODE "]
  | _ => []
  end.

Lemma toggle_untrimmed_counterexample :
  In (str "browse MODE ") (at_speech (env_of "NVDA" trailing_space) 0)
  /\ toLowerCase (str "browse MODE ") = toLowerCase (str "Browse mode ")
  /\ fst (pressKeysToToggleSetting (env_of "NVDA" trailing_space)
            (example_runner (env_of "NVDA" trailing_space))
            (ATKey_sequence [IChord insert_space]) (str "Browse mode ") initial)
     = Throw (unable_to_apply (str "Browse mode ") (str "browse MODE"))
  /\ attempts (new_events initial
       (snd (pressKeysToToggleSetting (env_of "NVDA" trailing_space)
               (example_runner (env_of "NVDA" trailing_space))
               (ATKey_sequence [IChord insert_space]) (str "Browse mode ") initial))) = 2.
Proof.
  split; [now left|]. split; [reflexivity|]. split; reflexivity.
Qed.

(* ================================================================== *)
(** * [ensureSettings] for NVDA *)
(* ================================================================== *)

(** The events of [pressKeysToToggleSetting]: logs of the keys and of the
    speech, [interaction.pressKeys] requests and their responses. *)
Definition toggling (e : Event) : Prop :=
  match e with
  | Log AT_DRIVER_COMMS (POutbound _ m _) => m = m_pressKeys
  | Log PRESS_KEYS _ => True
  | Log SPEECH_EVENT _ => True
  | SocketSend _ m _ => m = m_pressKeys
  | Response _ _ => True
  | SpeechCollected _ _ => True
  | _ => False
  end.

Lemma comms_toggling (e : Event) : comms m_pressKeys e -> toggling e.
Proof. destruct e as [[] []| | | | | | | |]; cbn; auto. Qed.

Lemma only_sendKeys (env : Env) (seq : ATKeySequence) :
  only toggling (sendKeys env seq).
Proof.
  unfold sendKeys. apply only_bind.
  - apply only_log. exact I.
  - intros _. eapply only_impl; [apply comms_toggling|].
    apply only_ATDriver_sendKeys.
Qed.

Lemma only_toggle_tries (env : Env) (this : DriverTestRunner) (seq : ATKeySequence)
    (d : jsstring) (n : nat) :
  forall u, only toggling (toggle_tries env this n seq d u).
Proof.
  induction n as [|n IH]; intros u; cbn [toggle_tries].
  - apply only_throw.
  - apply only_bind.
    + apply only_collectSpeech; try (intros; exact I). apply only_sendKeys.
    + intros lines. destruct (match_speech lines d u); [apply IH|apply only_ret].
Qed.

Lemma only_pressKeysToToggleSetting (env : Env) (this : DriverTestRunner)
    (seq : ATKeySequence) (d : jsstring) :
  only toggling (pressKeysToToggleSetting env this seq d).
Proof. apply only_toggle_tries. Qed.

Definition request_method (f : nat * jsstring * Params) : jsstring := snd (fst f).

Lemma sent_toggling (evs : list Event) :
  Forall toggling evs -> Forall (fun f => request_method f = m_pressKeys) (sent evs).
Proof.
  induction 1 as [|e evs He F IH]; [constructor|].
  destruct e as [[] []| | | | | | | |]; cbn in *; auto; contradiction.
Qed.

Lemma send_trace (env : Env) (m : jsstring) (p : Params) (s : State) :
  exists evs,
    trace (snd (_send env m p s)) = trace s ++ evs
    /\ sent evs = [(_nextId s, m, p)].
Proof.
  unfold _send, bind, next_id, log, emit, await_response. cbn.
  destruct (at_reply env (_nextId s)) as [[[|c e]|]|]; cbn;
    eexists; rewrite <- ?app_assoc; split; reflexivity.
Qed.


(** ** The requests of [sendKeys], chord by chord *)

(** The parameters of the requests that [ATDriver.sendKeys] writes for a
    list of chords: for each chord, one request for each of its keys. *)
Definition requests_of (chords : list ATKeyChord) : list Params :=
  flat_map (fun chord =>
              map (fun _ => PressKeys (map mapped (keys chord))) (keys chord))
           chords.

Definition request_params (f : nat * jsstring * Params) : Params := snd f.

Lemma for_of_requests A (f : A -> list Params) (xs : list A) (body : A -> M unit) :
  (forall x, passes (body x)) ->
  (forall x s, exists evs,
      trace (snd (body x s)) = trace s ++ evs
      /\ map request_params (sent evs) = f x) ->
  forall s, exists evs,
    trace (snd (for_of xs body s)) = trace s ++ evs
    /\ map request_params (sent evs) = flat_map f xs.
Proof.
  intros Hp Hb. induction xs as [|x xs IH]; intros s; cbn [for_of flat_map].
  - exists []. cbn. now rewrite app_nil_r.
  - unfold bind. destruct (Hp x s) as [R _]. destruct (Hb x s) as (e1 & T1 & S1).
    destruct (body x s) as [[[]|e] s1]; cbn [fst snd] in *; [|discriminate].
    destruct (IH s1) as (e2 & T2 & S2).
    exists (e1 ++ e2). rewrite T2, T1, app_assoc. split; [reflexivity|].
    now rewrite sent_app, map_app, S1, S2.
Qed.

(** When the AT acknowledges them, the requests that [sendKeys] writes are
    those of [requests_of], in order. *)
Lemma sendKeys_requests (env : Env) (items : list Item) (s : State) :
  acknowledges env ->
  map request_params (sent (new_events s (snd (ATDriver_sendKeys env items s))))
  = requests_of (sequence (ATKey_sequence items)).
Proof.
  intros acks. unfold ATDriver_sendKeys, requests_of.
  destruct (@for_of_requests ATKeyChord
              (fun chord => map (fun _ => PressKeys (map mapped (keys chord)))
                                (keys chord))
              (sequence (ATKey_sequence items))
              (fun chord => for_of (keys chord) (fun _ =>
                 _send env m_pressKeys (PressKeys (map mapped (keys chord))))))
    with (s := s) as (evs & T & S).
  - intros chord. apply passes_for_of. intros _. now apply passes_send.
  - intros chord s0.
    destruct (@for_of_requests ATKey
                (fun _ => [PressKeys (map mapped (keys chord))])
                (keys chord)
                (fun _ => _send env m_pressKeys (PressKeys (map mapped (keys chord)))))
      with (s := s0) as (evs & T & S).
    + intros _. now apply passes_send.
    + intros _ s1. destruct (send_trace env m_pressKeys
                               (PressKeys (map mapped (keys chord))) s1)
        as (evs & T & S).
      exists evs. split; [exact T|]. now rewrite S.
    + exists evs. split; [exact T|]. rewrite S.
      generalize (PressKeys (map mapped (keys chord))). intros p.
      clear. induction (keys chord) as [|k ks IH]; cbn; [reflexivity|].
      now rewrite IH.
  - now rewrite (@new_events_app _ _ _ T).
Qed.

(** For chords of one key each, that is one request for each chord. *)
Lemma requests_of_single_keys (chords : list ATKeyChord) :
  Forall (fun chord => List.length (keys chord) = 1) chords ->
  requests_of chords = map (fun chord => PressKeys (map mapped (keys chord))) chords.
Proof.
  unfold requests_of. induction 1 as [|chord chords H F IH]; [reflexivity|].
  cbn [flat_map map]. rewrite IH.
  destruct (keys chord) as [|k [|k' ks]]; cbn in H; try discriminate.
  reflexivity.
Qed.

Lemma try_finally_state A (body : M A) (cleanup : M unit) (s : State) :
  snd (try_finally body cleanup s) = snd (cleanup (snd (body s))).
Proof.
  unfold try_finally. destruct (body s) as [r s1]. cbn [snd].
  now destruct (cleanup s1) as [[[]|e] s2].
Qed.

Definition disable_request (id : nat) : nat * jsstring * Params :=
  (id, m_setSettings, SetSettings passThroughAudioIndication false).

Definition restore_request (id : nat) : nat * jsstring * Params :=
  (id, m_setSettings, SetSettings passThroughAudioIndication true).








Definition press (id : nat) (ks : list jsstring) : nat * jsstring * Params :=
  (id, m_pressKeys, PressKeys ks).


(** The toggle succeeds at the second attempt: the audio indication is
    restored after it. *)
Example ensureSettings_when_toggle_succeeds :
  let out := ensureSettings (env_of "NVDA" focus_then_browse)
               (example_runner (env_of "NVDA" focus_then_browse))
               (str "browseMode") initial in
  fst out = Ok tt
  /\ sent (trace (snd out))
     = [ disable_request 0;
         press 1 [[0xe016%N]; [0xe00d%N]]; press 2 [[0xe016%N]; [0xe00d%N]];
         press 3 [[0xe016%N]; [0xe00d%N]]; press 4 [[0xe016%N]; [0xe00d%N]];
         restore_request 5 ].
Proof. split; reflexivity. Qed.

(** The toggle throws, nothing being spoken: the audio indication is
    restored all the same, and the error of the toggle is the outcome. *)
Example ensureSettings_when_toggle_throws :
  let out := ensureSettings quiet_env (example_runner quiet_env)
               (str "focusMode") initial in
  fst out = Throw (unable_to_apply (str "Focus mode") [])
  /\ sent (trace (snd out))
     = [ disable_request 0;
         press 1 [[0xe016%N]; [0xe00d%N]]; press 2 [[0xe016%N]; [0xe00d%N]];
         press 3 [[0xe016%N]; [0xe00d%N]]; press 4 [[0xe016%N]; [0xe00d%N]];
         restore_request 5 ].
Proof. split; reflexivity. Qed.



(* ================================================================== *)
(** * [run]: the results of a test *)
(* ================================================================== *)

Lemma bind_ok A B (m : M A) (k : A -> M B) (s s' : State) (b : B) :
  bind m k s = (Ok b, s') ->
  exists a s1, m s = (Ok a, s1) /\ k a s1 = (Ok b, s').
Proof.
  unfold bind. destruct (m s) as [[a|e] s1]; [eauto|discriminate].
Qed.

Section RunFacts.

Variable env : Env.
Variable table : list (jsstring * jsstring).
Variable URL : jsstring -> jsstring -> jsstring.
Variable this : DriverTestRunner.
Variable test : CollectedTest.

(** The command passes the validation. *)
Definition is_valid (command : Command) : bool :=
  match errors (validateKeysFromCommand table command) with
  | Some _ => false
  | None => true
  end.

(** The result recorded for a command and an assertion. *)
Definition result_of (command : Command) (assertion : Assertion)
  : AssertionResult.t :=
  {| AssertionResult.command := command_id command;
     AssertionResult.expectation :=
       if is_valid command
       then or_else (expectation assertion) (assertionStatement assertion)
       else expectation assertion;
     AssertionResult.pass := is_valid command |}.

Definition results_of (command : Command) : list AssertionResult.t :=
  map (result_of command) (assertions test).

(** The output recorded for a command: its spoken output when it is
    valid, its errors when it is not. *)
Definition output_of (command : Command) (o : CommandOutput.t) : Prop :=
  CommandOutput.command o = command_id command
  /\ match errors (validateKeysFromCommand table command) with
     | Some errs =>
         CommandOutput.errors o = Some errs /\ CommandOutput.output o = None
     | None =>
         CommandOutput.errors o = None
         /\ exists spoken, CommandOutput.output o = Some (join newline spoken)
     end.

Lemma fold_push_results (command : Command) (valid : bool)
    (asserts : list Assertion) :
  forall results,
    fold_left (push_results command valid) asserts results
    = results ++ fold_left (push_results command valid) asserts [].
Proof.
  induction asserts as [|a asserts IH]; intros results; cbn [fold_left].
  - now rewrite app_nil_r.
  - rewrite IH. rewrite (IH (push_results command valid [] a)).
    unfold push_results. cbn [app]. now rewrite <- app_assoc.
Qed.

Lemma fold_push_results_map (command : Command) (asserts : list Assertion) :
  fold_left (push_results command (is_valid command)) asserts []
  = map (result_of command) asserts.
Proof.
  induction asserts as [|a asserts IH]; [reflexivity|].
  cbn [fold_left map]. rewrite fold_push_results, IH. reflexivity.
Qed.

Lemma value_is_valid (command : Command) :
  match value (validateKeysFromCommand table command) with
  | Some c => c = command /\ is_valid command = true
              /\ errors (validateKeysFromCommand table command) = None
  | None => is_valid command = false
            /\ exists errs, errors (validateKeysFromCommand table command) = Some errs
                            /\ errs <> []
  end.
Proof.
  unfold is_valid.
  destruct (validation_cases table command) as [(V & E & _)|(V & E & N)];
    rewrite V, E; eauto.
Qed.

(** A command that fails the validation is logged and recorded, and
    nothing else happens: no page is opened and no key is sent. *)
Lemma run_command_invalid (command : Command)
    (acc : list CommandOutput.t * list AssertionResult.t) (s : State) :
  is_valid command = false ->
  exists errs,
    errors (validateKeysFromCommand table command) = Some errs
    /\ run_command env table URL this test acc command s
       = (Ok (fst acc ++ [ {| CommandOutput.command := command_id command;
                              CommandOutput.output := None;
                              CommandOutput.errors := Some errs |} ],
              snd acc ++ results_of command),
          emit_events [Log INVALID_KEYS (PInvalidKeys command (Some errs))] s).
Proof.
  intros Hv. pose proof (value_is_valid command) as H.
  unfold run_command. destruct acc as [outs results]. cbn [fst snd].
  destruct (value (validateKeysFromCommand table command)) as [c|].
  - destruct H as (_ & H & _). congruence.
  - destruct H as (_ & errs & E & _). exists errs. split; [exact E|].
    rewrite E. unfold bind, log, emit, ret. cbn.
    rewrite fold_push_results. unfold results_of.
    rewrite <- fold_push_results_map, Hv. reflexivity.
Qed.

Lemma run_command_ok (command : Command)
    (acc acc' : list CommandOutput.t * list AssertionResult.t) (s s' : State) :
  run_command env table URL this test acc command s = (Ok acc', s') ->
  exists o, output_of command o
            /\ acc' = (fst acc ++ [o], snd acc ++ results_of command).
Proof.
  destruct (is_valid command) eqn:Hv.
  - pose proof (value_is_valid command) as H.
    unfold run_command. destruct acc as [outs results]. cbn [fst snd].
    destruct (value (validateKeysFromCommand table command)) as [c|];
      [|destruct H; congruence].
    destruct H as (-> & _ & E). intros R.
    apply bind_ok in R as (spoken & s1 & _ & R). injection R as <- <-.
    eexists. split; cycle 1.
    + rewrite fold_push_results. unfold results_of.
      rewrite <- fold_push_results_map, Hv. reflexivity.
    + split; [reflexivity|]. rewrite E. cbn. eauto.
  - destruct (run_command_invalid command acc s Hv) as (errs & E & R).
    rewrite R. intros [= <- <-]. eexists. split; [|reflexivity].
    split; [reflexivity|]. rewrite E. cbn. auto.
Qed.

Lemma run_commands_ok (cmds : list Command) :
  forall acc acc' s s',
    for_of_acc cmds (run_command env table URL this test) acc s = (Ok acc', s') ->
    exists outs,
      Forall2 output_of cmds outs
      /\ acc' = (fst acc ++ outs, snd acc ++ flat_map results_of cmds).
Proof.
  induction cmds as [|c cmds IH]; intros acc acc' s s'; cbn [for_of_acc flat_map].
  - intros [= <- <-]. exists []. split; [constructor|].
    rewrite !app_nil_r. now destruct acc.
  - intros R. apply bind_ok in R as (acc1 & s1 & R1 & R).
    apply run_command_ok in R1 as (o & Ho & ->).
    apply IH in R as (outs & Houts & ->). cbn [fst snd].
    exists (o :: outs). split; [constructor; auto|].
    now rewrite <- !app_assoc.
Qed.

(** What a test result holds, when [run] returns one. *)
Lemma run_ok (s s' : State) (r : TestResult.t) :
  run env table URL this test s = (Ok r, s') ->
  Forall2 output_of (commands test) (TestResult.commands r)
  /\ TestResult.results r = flat_map results_of (commands test)
  /\ collectedCapabilities this = Ok (TestResult.capabilities r).
Proof.
  unfold run. intros R.
  apply bind_ok in R as (caps & s1 & R1 & R).
  unfold await in R1. injection R1 as R1 <-.
  do 4 (apply bind_ok in R as (? & ? & _ & R)).
  apply bind_ok in R as (acc & s2 & R2 & R).
  injection R as <- <-. cbn.
  apply run_commands_ok in R2 as (outs & Houts & ->). cbn. auto.
Qed.

End RunFacts.

Lemma length_flat_map_const A B (f : A -> list B) (n : nat) (xs : list A) :
  (forall x, List.length (f x) = n) ->
  List.length (flat_map f xs) = List.length xs * n.
Proof.
  intros H. induction xs as [|x xs IH]; [reflexivity|].
  cbn [flat_map List.length]. rewrite length_app, H, IH. reflexivity.
Qed.

Lemma Forall2_map_eq A B (f : A -> B) (xs : list A) :
  Forall2 (fun x y => y = f x) xs (map f xs).
Proof. induction xs; cbn; constructor; auto. Qed.

(** C2: the test result that [run] returns holds one [CommandOutput] for
    each command, in order, and for each command, valid or not, one
    [AssertionResult] for each assertion of the test, which passes exactly
    when the command is valid; [results] is thus of the same length as
    [commands] in aggregate: it is made of one group of results for each
    output of [commands], in order, and is as long as [commands] times the
    number of assertions (the two lists have the same number of entries
    exactly for a test of one assertion or of no command).  A command that
    fails the validation only adds a log of the invalid keys to the trace
    (no page is opened, no key is sent) and the loop goes on with the next
    command. *)
Theorem run_records_every_command
    (env : Env) (table : list (jsstring * jsstring))
    (URL : jsstring -> jsstring -> jsstring)
    (this : DriverTestRunner) (test : CollectedTest)
    (s s' : State) (r : TestResult.t) :
  run env table URL this test s = (Ok r, s') ->
  Forall2 (output_of table) (commands test) (TestResult.commands r)
  /\ List.length (TestResult.commands r) = List.length (commands test)
  /\ (exists groups,
        TestResult.results r = List.concat groups
        /\ List.length groups = List.length (TestResult.commands r)
        /\ Forall2 (fun c group => group = results_of table test c)
                   (commands test) groups)
  /\ List.length (TestResult.results r)
     = List.length (commands test) * List.length (assertions test)
  /\ (List.length (TestResult.results r) = List.length (TestResult.commands r)
      <-> List.length (assertions test) = 1 \/ commands test = [])
  /\ (forall c res, In c (commands test) -> In res (results_of table test c) ->
        AssertionResult.command res = command_id c
        /\ AssertionResult.pass res = is_valid table c)
  /\ (forall c acc s0,
        is_valid table c = false ->
        exists errs,
          errors (validateKeysFromCommand table c) = Some errs
          /\ run_command env table URL this test acc c s0
             = (Ok (fst acc ++ [ {| CommandOutput.command := command_id c;
                                    CommandOutput.output := None;
                                    CommandOutput.errors := Some errs |} ],
                    snd acc ++ results_of table test c),
                emit_events [Log INVALID_KEYS (PInvalidKeys c (Some errs))] s0)).
Proof.
  intros R. apply run_ok in R as (Houts & Hres & _).
  assert (Hlen : List.length (TestResult.commands r) = List.length (commands test))
    by (symmetry; eapply Forall2_length; eauto).
  assert (Hprod : List.length (TestResult.results r)
                  = List.length (commands test) * List.length (assertions test)).
  { rewrite Hres. apply length_flat_map_const.
    intros c. unfold results_of. apply length_map. }
  split; [exact Houts|]. split; [exact Hlen|]. split; [|split; [|split; [|split]]].
  - exists (map (results_of table test) (commands test)).
    rewrite Hres, flat_map_concat_map, length_map. split; [reflexivity|].
    split; [now rewrite Hlen|]. apply Forall2_map_eq.
  - exact Hprod.
  - rewrite Hprod, Hlen. destruct (commands test) as [|c cs]; cbn [List.length].
    + split; auto.
    + split; [intros H; left; nia|intros [H|H]; [nia|discriminate]].
  - intros c res _ Hin.
    unfold results_of in Hin. apply in_map_iff in Hin as (a & <- & _).
    cbn. auto.
  - intros c acc s0 Hv. now apply run_command_invalid.
Qed.

(** C10: in the result of [run], the expectation of a result is
    [assertion.expectation || assertion.assertionStatement] for a command
    that is valid and [assertion.expectation] alone for one that is not; so
    when the assertions of the test carry no [expectation], the failing
    results have none and the passing ones carry the statement. *)
Theorem run_expectation_text
    (env : Env) (table : list (jsstring * jsstring))
    (URL : jsstring -> jsstring -> jsstring)
    (this : DriverTestRunner) (test : CollectedTest)
    (s s' : State) (r : TestResult.t) :
  run env table URL this test s = (Ok r, s') ->
  TestResult.results r
  = flat_map
      (fun c =>
         map (fun a =>
                {| AssertionResult.command := command_id c;
                   AssertionResult.expectation :=
                     if is_valid table c
                     then or_else (expectation a) (assertionStatement a)
                     else expectation a;
                   AssertionResult.pass := is_valid table c |})
             (assertions test))
      (commands test)
  /\ ((forall a, In a (assertions test) -> expectation a = None) ->
      forall res, In res (TestResult.results r) ->
        (AssertionResult.pass res = false -> AssertionResult.expectation res = None)
        /\ (AssertionResult.pass res = true ->
            exists a, In a (assertions test)
                      /\ AssertionResult.expectation res = assertionStatement a)).
Proof.
  intros R. apply run_ok in R as (_ & Hres & _).
  split; [exact Hres|].
  intros Hnone res Hin. rewrite Hres in Hin.
  apply in_flat_map in Hin as (c & _ & Hin).
  unfold results_of in Hin. apply in_map_iff in Hin as (a & <- & Ha).
  unfold result_of. cbn. rewrite (Hnone a Ha). split; intros ->.
  - reflexivity.
  - exists a. split; [exact Ha|]. reflexivity.
Qed.

(** ** An example run *)

Definition example_URL (path base : jsstring) : jsstring := base ++ str "/" ++ path.

Definition statement (text : string) : Assertion :=
  {| expectation := None; assertionStatement := Some (str text) |}.

(** A test of two commands, the second of which is not valid, and two
    assertions that carry a statement only. *)
Definition example_test : CollectedTest :=
  {| info := {| testId := str "test-01"; task := str "navigate to checkbox";
                presentationNumber := Some 1%N |};
     target := {| referencePage := str "reference/checkbox.html"; mode := None |};
     commands := [command_c1; command_c2];
     assertions := [ statement "Role 'checkbox' is conveyed";
                     statement "Name 'Lettuce' is conveyed" ] |}.

Definition checkbox_speech (k : nat) : list jsstring :=
  match k with
  | 1 => [str "Lettuce"; str "check box not checked"]
  | _ => []
  end.

Definition example_env : Env := env_of "NVDA" checkbox_speech.

Definition no_result : TestResult.t :=
  {| TestResult.testId := []; TestResult.presentationNumber := None;
     TestResult.capabilities :=
       {| atName := None; atVersion := None; browserName := None;
          browserVersion := None; platformName := None |};
     TestResult.commands := []; TestResult.results := [] |}.

Definition example_run : Result TestResult.t * State :=
  run example_env seleniumKeysMap example_URL (example_runner example_env)
      example_test (snd (new_DriverTestRunner example_env example_base
                                              example_times initial)).

Definition example_result : TestResult.t :=
  Eval vm_compute in
    match fst example_run with
    | Ok r => r
    | Throw _ => no_result
    end.

Lemma run_records_every_command_witness :
  List.length (TestResult.commands example_result) = 2
  /\ List.length (TestResult.results example_result) = 2 * 2.
Proof.
  assert (R : example_run = (Ok example_result, snd example_run))
    by (vm_compute; reflexivity).
  destruct (@run_records_every_command _ _ _ _ _ _ _ _ R)
    as (_ & Hc & _ & Hr & _).
  split; [exact Hc|exact Hr].
Defined.

Lemma run_expectation_text_witness :
  Forall (fun res =>
            (AssertionResult.pass res = false ->
             AssertionResult.expectation res = None)
            /\ (AssertionResult.pass res = true ->
                exists a, In a (assertions example_test)
                          /\ AssertionResult.expectation res = assertionStatement a))
         (TestResult.results example_result).
Proof.
  assert (R : example_run = (Ok example_result, snd example_run))
    by (vm_compute; reflexivity).
  apply Forall_forall.
  apply (@run_expectation_text _ _ _ _ _ _ _ _ R).
  intros a [<-|[<-|[]]]; reflexivity.
Defined.

(** One command that is valid and two assertions: [commands] holds one
    output and [results] the one group of two results. *)
Definition two_assertions_test : CollectedTest :=
  {| info := info example_test;
     target := target example_test;
     commands := [command_c1];
     assertions := assertions example_test |}.

Example run_two_assertions :
  match fst (run example_env seleniumKeysMap example_URL
                 (example_runner example_env) two_assertions_test initial) with
  | Ok r =>
      List.length (TestResult.commands r) = 1
      /\ List.length (TestResult.results r) = 2
  | Throw _ => False
  end.
Proof. vm_compute. split; reflexivity. Qed.

(* ================================================================== *)
(** * The capabilities are fetched once *)
(* ================================================================== *)

(** The event is no call of [getCapabilities] of a driver. *)
Definition no_fetch (e : Event) : Prop :=
  match e with
  | BrowserGetCapabilities | ATGetCapabilities => False
  | _ => True
  end.

Lemma toggling_no_fetch (e : Event) : toggling e -> no_fetch e.
Proof. destruct e; cbn; auto. Qed.

Lemma comms_no_fetch (m : jsstring) (e : Event) : comms m e -> no_fetch e.
Proof. destruct e; cbn; auto. Qed.

Section NoFetch.

Variable env : Env.
Variable table : list (jsstring * jsstring).
Variable URL : jsstring -> jsstring -> jsstring.
Variable this : DriverTestRunner.

Lemma no_fetch_send (m : jsstring) (p : Params) : only no_fetch (_send env m p).
Proof. eapply only_impl; [apply comms_no_fetch|apply only_send]. Qed.

Lemma no_fetch_toggle (seq : ATKeySequence) (d : jsstring) :
  only no_fetch (pressKeysToToggleSetting env this seq d).
Proof.
  eapply only_impl; [apply toggling_no_fetch|apply only_pressKeysToToggleSetting].
Qed.

Lemma no_fetch_sendKeys (seq : ATKeySequence) : only no_fetch (sendKeys env seq).
Proof. eapply only_impl; [apply toggling_no_fetch|apply only_sendKeys]. Qed.

Lemma no_fetch_collectSpeech (d : N) (op : M unit) :
  only no_fetch op -> only no_fetch (_collectSpeech env d op).
Proof. intros H. apply only_collectSpeech; auto; intros; exact I. Qed.

Lemma no_fetch_openPage (url referencePage : jsstring) :
  only no_fetch (openPage env this url referencePage).
Proof. unfold openPage. only_auto; exact I. Qed.

Lemma no_fetch_ensureSettings (settings : jsstring) :
  only no_fetch (ensureSettings env this settings).
Proof.
  unfold ensureSettings. apply only_bind; [apply only_await|]. intros caps.
  destruct (atName caps) as [name|]; [|apply only_ret].
  destruct (equals "NVDA" name).
  - destruct (lookup nvda_responses (toLowerCase settings)) as [[|c r]|];
      try apply only_throw.
    apply only_bind; [apply no_fetch_send|]. intros _.
    apply only_try_finally; [apply no_fetch_toggle|apply no_fetch_send].
  - repeat match goal with
           | |- only _ (if ?b then _ else _) => destruct b
           end;
      first [apply no_fetch_toggle | apply only_throw | apply only_ret].
Qed.

Lemma no_fetch_ensureMode (mode : jsstring) :
  only no_fetch (ensureMode env this mode).
Proof.
  unfold ensureMode. apply only_bind; [apply only_await|]. intros caps.
  destruct (atName caps) as [name|]; [|apply only_ret].
  repeat match goal with
         | |- only _ (if ?b then _ else _) => destruct b
         end;
    first [apply no_fetch_ensureSettings | apply only_throw | apply only_ret].
Qed.

Lemma no_fetch_exercise_command (test : CollectedTest) (c v : Command) :
  only no_fetch (exercise_command env URL this test c v).
Proof.
  unfold exercise_command.
  apply only_bind; [apply no_fetch_collectSpeech, no_fetch_openPage|]. intros _.
  apply only_bind.
  { destruct (settings c) as [[|x st]|].
    - destruct (mode (target test)) as [[|y m]|];
        first [apply no_fetch_ensureMode | apply only_ret].
    - apply no_fetch_ensureSettings.
    - destruct (mode (target test)) as [[|y m]|];
        first [apply no_fetch_ensureMode | apply only_ret]. }
  intros _.
  apply only_bind; [apply no_fetch_collectSpeech, no_fetch_sendKeys|]. intros spoken.
  apply only_bind; [|intros _; apply only_ret].
  apply no_fetch_collectSpeech.
  apply only_bind; [apply only_log; exact I|]. intros _.
  apply only_browser_call. exact I.
Qed.

Lemma no_fetch_run_command (test : CollectedTest)
    (acc : list CommandOutput.t * list AssertionResult.t) (c : Command) :
  only no_fetch (run_command env table URL this test acc c).
Proof.
  unfold run_command. destruct acc as [outs results].
  destruct (value (validateKeysFromCommand table c)) as [v|].
  - apply only_bind; [apply no_fetch_exercise_command|].
    intros spoken. apply only_ret.
  - apply only_bind; [apply only_log; exact I|]. intros _. apply only_ret.
Qed.

Lemma no_fetch_run (test : CollectedTest) :
  only no_fetch (run env table URL this test).
Proof.
  unfold run. apply only_bind; [apply only_await|]. intros caps.
  do 3 (apply only_bind; [apply only_log; exact I|]; intros _).
  apply only_bind; [apply only_browser_call; exact I|]. intros _.
  apply only_bind; [|intros acc; apply only_ret].
  apply only_for_of_acc. intros acc c. apply no_fetch_run_command.
Qed.

End NoFetch.

Definition is_browser_fetch (e : Event) : bool :=
  match e with
  | BrowserGetCapabilities => true
  | _ => false
  end.

Definition is_at_fetch (e : Event) : bool :=
  match e with
  | ATGetCapabilities => true
  | _ => false
  end.

(** How often [getCapabilities] of the browser driver, with which
    [getCapabilities] of the runner begins, and of the AT driver were
    called. *)
Definition browser_fetches (evs : list Event) : nat :=
  List.length (filter is_browser_fetch evs).

Definition at_fetches (evs : list Event) : nat :=
  List.length (filter is_at_fetch evs).

Lemma no_fetch_counts (evs : list Event) :
  Forall no_fetch evs -> browser_fetches evs = 0 /\ at_fetches evs = 0.
Proof.
  unfold browser_fetches, at_fetches.
  induction 1 as [|e evs He F [IHb IHa]]; [auto|].
  destruct e; cbn in *; auto; contradiction.
Qed.

Lemma fetches_app (a b : list Event) :
  browser_fetches (a ++ b) = browser_fetches a + browser_fetches b
  /\ at_fetches (a ++ b) = at_fetches a + at_fetches b.
Proof.
  unfold browser_fetches, at_fetches. now rewrite !filter_app, !length_app.
Qed.

(** The life of a runner: the tests it runs, one after the other, be their
    outcome a result or an error. *)
Fixpoint run_tests (env : Env) (table : list (jsstring * jsstring))
    (URL : jsstring -> jsstring -> jsstring) (this : DriverTestRunner)
    (tests : list CollectedTest) (s : State)
  : list (Result TestResult.t) * State :=
  match tests with
  | [] => ([], s)
  | test :: rest =>
      let (r, s1) := run env table URL this test s in
      let (rs, s2) := run_tests env table URL this rest s1 in
      (r :: rs, s2)
  end.

Section Lifetime.

Variable env : Env.
Variable table : list (jsstring * jsstring).
Variable URL : jsstring -> jsstring -> jsstring.

Lemma run_tests_no_fetch (this : DriverTestRunner) (tests : list CollectedTest) :
  forall s, exists evs,
    trace (snd (run_tests env table URL this tests s)) = trace s ++ evs
    /\ Forall no_fetch evs.
Proof.
  induction tests as [|t tests IH]; intros s; cbn [run_tests].
  - exists []. cbn. now rewrite app_nil_r.
  - destruct (no_fetch_run env table URL this t s) as (e1 & T1 & F1).
    destruct (run env table URL this t s) as [r s1]. cbn [snd] in T1.
    destruct (IH s1) as (e2 & T2 & F2).
    destruct (run_tests env table URL this tests s1) as [rs s2]. cbn [snd] in *.
    exists (e1 ++ e2). rewrite T2, T1, app_assoc. split; auto.
    apply Forall_app. auto.
Qed.

Lemma run_tests_capabilities (this : DriverTestRunner) (tests : list CollectedTest) :
  forall s r,
    In (Ok r) (fst (run_tests env table URL this tests s)) ->
    collectedCapabilities this = Ok (TestResult.capabilities r).
Proof.
  induction tests as [|t tests IH]; intros s r; cbn [run_tests].
  - intros [].
  - destruct (run env table URL this t s) as [r1 s1] eqn:R1.
    specialize (IH s1 r).
    destruct (run_tests env table URL this tests s1) as [rs s2]. cbn [fst] in *.
    intros [E|Hin]; [|auto]. subst r1.
    now apply run_ok in R1 as (_ & _ & H).
Qed.

Lemma constructor_fetches (base : BaseURL) (times : TimesOption) (s : State) :
  exists evs,
    trace (snd (new_DriverTestRunner env base times s)) = trace s ++ evs
    /\ browser_fetches evs = 1 /\ at_fetches evs <= 1.
Proof.
  unfold new_DriverTestRunner, getCapabilities, bind, emit, await. cbn.
  destruct (browser_capabilities env) as [b|e]; cbn.
  - destruct (at_capabilities env) as [a|e]; cbn;
      exists [BrowserGetCapabilities; ATGetCapabilities];
      rewrite <- app_assoc; cbn; auto.
  - exists [BrowserGetCapabilities]. cbn. auto.
Qed.

End Lifetime.

(** What the drivers answer to the one call of [getCapabilities]: the
    record made of the answers of the two drivers, or the error of the
    first of them that fails. *)
Definition answered_capabilities (env : Env) : Result Capabilities :=
  match browser_capabilities env with
  | Throw e => Throw e
  | Ok (bName, bVersion) =>
      match at_capabilities env with
      | Throw e => Throw e
      | Ok (aName, aVersion, pName) =>
          Ok {| atName := aName; atVersion := aVersion;
                browserName := bName; browserVersion := bVersion;
                platformName := pName |}
      end
  end.

(** The constructor asks the browser driver, then, unless that failed, the
    AT driver, and stores what they answered. *)
Lemma constructor_stores (env : Env) (base : BaseURL) (times : TimesOption)
    (s : State) :
  collectedCapabilities (fst (new_DriverTestRunner env base times s))
  = answered_capabilities env
  /\ new_events s (snd (new_DriverTestRunner env base times s))
     = BrowserGetCapabilities
       :: match browser_capabilities env with
          | Ok _ => [ATGetCapabilities]
          | Throw _ => []
          end.
Proof.
  unfold new_DriverTestRunner, getCapabilities, answered_capabilities,
    bind, emit, await.
  cbn.
  destruct (browser_capabilities env) as [[bn bv]|e]; cbn.
  - destruct (at_capabilities env) as [[[an av] pn]|e]; cbn;
      (split; [reflexivity|]); apply new_events_app; cbn;
      now rewrite <- app_assoc.
  - split; [reflexivity|]. now apply new_events_app.
Qed.

Lemma run_rejected (env : Env) (table : list (jsstring * jsstring))
    (URL : jsstring -> jsstring -> jsstring) (this : DriverTestRunner)
    (e : jsstring) (tests : list CollectedTest) (s : State) :
  collectedCapabilities this = Throw e ->
  run_tests env table URL this tests s = (map (fun _ => Throw e) tests, s).
Proof.
  intros H. induction tests as [|t tests IH]; cbn [run_tests map]; [reflexivity|].
  unfold run at 1, bind at 1, await. rewrite H, IH. reflexivity.
Qed.

(** The event is neither a call of [getCapabilities] of a driver nor the
    log of the capabilities with which [run] begins. *)
Definition after_start (e : Event) : Prop :=
  match e with
  | BrowserGetCapabilities | ATGetCapabilities | Log CAPABILITIES _ => False
  | _ => True
  end.

Lemma toggling_after_start (e : Event) : toggling e -> after_start e.
Proof. destruct e as [[] ?| | | | | | | |]; cbn; auto. Qed.

Lemma comms_after_start (m : jsstring) (e : Event) : comms m e -> after_start e.
Proof. destruct e as [[] ?| | | | | | | |]; cbn; auto. Qed.

(** The capabilities that were logged, in order. *)
Definition logged_capabilities (evs : list Event) : list Capabilities :=
  flat_map (fun e => match e with
                     | Log CAPABILITIES (PCapabilities caps) => [caps]
                     | _ => []
                     end) evs.

Lemma logged_capabilities_after_start (evs : list Event) :
  Forall after_start evs -> logged_capabilities evs = [].
Proof.
  induction 1 as [|e evs He F IH]; [reflexivity|].
  destruct e as [[] ?| | | | | | | |]; cbn in *; auto; contradiction.
Qed.

Section AfterStart.

Variable env : Env.
Variable table : list (jsstring * jsstring).
Variable URL : jsstring -> jsstring -> jsstring.
Variable this : DriverTestRunner.

Lemma after_start_send (m : jsstring) (p : Params) : only after_start (_send env m p).
Proof. eapply only_impl; [apply comms_after_start|apply only_send]. Qed.

Lemma after_start_toggle (seq : ATKeySequence) (d : jsstring) :
  only after_start (pressKeysToToggleSetting env this seq d).
Proof.
  eapply only_impl; [apply toggling_after_start|apply only_pressKeysToToggleSetting].
Qed.

Lemma after_start_sendKeys (seq : ATKeySequence) : only after_start (sendKeys env seq).
Proof. eapply only_impl; [apply toggling_after_start|apply only_sendKeys]. Qed.

Lemma after_start_collectSpeech (d : N) (op : M unit) :
  only after_start op -> only after_start (_collectSpeech env d op).
Proof. intros H. apply only_collectSpeech; auto; intros; exact I. Qed.

Lemma after_start_openPage (url referencePage : jsstring) :
  only after_start (openPage env this url referencePage).
Proof. unfold openPage. only_auto; exact I. Qed.

Lemma after_start_ensureSettings (settings : jsstring) :
  only after_start (ensureSettings env this settings).
Proof.
  unfold ensureSettings. apply only_bind; [apply only_await|]. intros caps.
  destruct (atName caps) as [name|]; [|apply only_ret].
  destruct (equals "NVDA" name).
  - destruct (lookup nvda_responses (toLowerCase settings)) as [[|c r]|];
      try apply only_throw.
    apply only_bind; [apply after_start_send|]. intros _.
    apply only_try_finally; [apply after_start_toggle|apply after_start_send].
  - repeat match goal with
           | |- only _ (if ?b then _ else _) => destruct b
           end;
      first [apply after_start_toggle | apply only_throw | apply only_ret].
Qed.

Lemma after_start_ensureMode (mode : jsstring) :
  only after_start (ensureMode env this mode).
Proof.
  unfold ensureMode. apply only_bind; [apply only_await|]. intros caps.
  destruct (atName caps) as [name|]; [|apply only_ret].
  repeat match goal with
         | |- only _ (if ?b then _ else _) => destruct b
         end;
    first [apply after_start_ensureSettings | apply only_throw | apply only_ret].
Qed.

Lemma after_start_exercise_command (test : CollectedTest) (c v : Command) :
  only after_start (exercise_command env URL this test c v).
Proof.
  unfold exercise_command.
  apply only_bind; [apply after_start_collectSpeech, after_start_openPage|].
  intros _.
  apply only_bind.
  { destruct (settings c) as [[|x st]|].
    - destruct (mode (target test)) as [[|y m]|];
        first [apply after_start_ensureMode | apply only_ret].
    - apply after_start_ensureSettings.
    - destruct (mode (target test)) as [[|y m]|];
        first [apply after_start_ensureMode | apply only_ret]. }
  intros _.
  apply only_bind; [apply after_start_collectSpeech, after_start_sendKeys|].
  intros spoken.
  apply only_bind; [|intros _; apply only_ret].
  apply after_start_collectSpeech.
  apply only_bind; [apply only_log; exact I|]. intros _.
  apply only_browser_call. exact I.
Qed.

Lemma after_start_run_command (test : CollectedTest)
    (acc : list CommandOutput.t * list AssertionResult.t) (c : Command) :
  only after_start (run_command env table URL this test acc c).
Proof.
  unfold run_command. destruct acc as [outs results].
  destruct (value (validateKeysFromCommand table c)) as [v|].
  - apply only_bind; [apply after_start_exercise_command|].
    intros spoken. apply only_ret.
  - apply only_bind; [apply only_log; exact I|]. intros _. apply only_ret.
Qed.

(** A test begins with the log of the capabilities that the runner keeps,
    and logs or fetches capabilities at no other time. *)
Lemma run_logs_capabilities (test : CollectedTest) (caps : Capabilities)
    (s : State) :
  collectedCapabilities this = Ok caps ->
  exists rest,
    trace (snd (run env table URL this test s))
    = trace s ++ Log CAPABILITIES (PCapabilities caps) :: rest
    /\ Forall after_start rest.
Proof.
  intros H. unfold run. unfold bind at 1. unfold await. rewrite H.
  unfold bind at 1. unfold log at 1, emit at 1.
  match goal with
  | |- context [bind ?a ?b (emit_events ?l s)] =>
      assert (O : only after_start (bind a b))
  end.
  { do 2 (apply only_bind; [apply only_log; exact I|]; intros _).
    apply only_bind; [apply only_browser_call; exact I|]. intros _.
    apply only_bind; [|intros acc; apply only_ret].
    apply only_for_of_acc. intros acc c. apply after_start_run_command. }
  match goal with
  | |- context [bind ?a ?b (emit_events ?l s)] =>
      destruct (O (emit_events l s)) as (rest & T & F)
  end.
  exists rest. split; [|exact F].
  rewrite T. cbn [emit_events trace]. now rewrite <- app_assoc.
Qed.

Lemma run_tests_log_capabilities (tests : list CollectedTest)
    (caps : Capabilities) :
  collectedCapabilities this = Ok caps ->
  forall s, exists evs,
    trace (snd (run_tests env table URL this tests s)) = trace s ++ evs
    /\ logged_capabilities evs = repeat caps (List.length tests).
Proof.
  intros H. induction tests as [|t tests IH]; intros s; cbn [run_tests].
  - exists []. cbn. now rewrite app_nil_r.
  - destruct (run_logs_capabilities t s H) as (rest & T1 & F1).
    destruct (run env table URL this t s) as [r s1]. cbn [snd] in T1.
    destruct (IH s1) as (e2 & T2 & L2).
    destruct (run_tests env table URL this tests s1) as [rs s2]. cbn [snd] in *.
    exists ((Log CAPABILITIES (PCapabilities caps) :: rest) ++ e2).
    rewrite T2, T1, app_assoc. split; [reflexivity|].
    unfold logged_capabilities in *. rewrite flat_map_app.
    cbn [flat_map app List.length repeat].
    fold (logged_capabilities rest).
    now rewrite (logged_capabilities_after_start F1), L2.
Qed.

End AfterStart.

(** C8: over the life of a runner, from its construction through every
    test it runs, the capabilities are fetched once and kept.  The
    constructor makes the one call of [getCapabilities]: it asks the
    browser driver once and, unless that failed, the AT driver once, and
    stores what they answered.  The tests fetch nothing.  When the drivers
    answered, every test, whether it returns or throws, begins by logging
    the stored record, and every test result carries it; when a driver
    failed, every test throws the error stored and does nothing else. *)
Theorem capabilities_fetched_once
    (env : Env) (table : list (jsstring * jsstring))
    (URL : jsstring -> jsstring -> jsstring)
    (base : BaseURL) (times : TimesOption)
    (tests : list CollectedTest) (s : State) :
  let this := fst (new_DriverTestRunner env base times s) in
  let s1 := snd (new_DriverTestRunner env base times s) in
  let out := run_tests env table URL this tests s1 in
  new_events s s1
  = BrowserGetCapabilities
    :: match browser_capabilities env with
       | Ok _ => [ATGetCapabilities]
       | Throw _ => []
       end
  /\ collectedCapabilities this = answered_capabilities env
  /\ browser_fetches (new_events s (snd out)) = 1
  /\ at_fetches (new_events s (snd out))
     = match browser_capabilities env with
       | Ok _ => 1
       | Throw _ => 0
       end
  /\ browser_fetches (new_events s1 (snd out)) = 0
  /\ at_fetches (new_events s1 (snd out)) = 0
  /\ (forall r, In (Ok r) (fst out) ->
                collectedCapabilities this = Ok (TestResult.capabilities r))
  /\ match answered_capabilities env with
     | Ok caps =>
         logged_capabilities (new_events s1 (snd out))
         = repeat caps (List.length tests)
         /\ Forall (fun o => match o with
                             | Ok r => TestResult.capabilities r = caps
                             | Throw _ => True
                             end) (fst out)
     | Throw e => out = (map (fun _ => Throw e) tests, s1)
     end.
Proof.
  cbv zeta.
  destruct (constructor_stores env base times s) as [Hc Hn].
  set (this := fst (new_DriverTestRunner env base times s)) in *.
  set (s1 := snd (new_DriverTestRunner env base times s)) in *.
  destruct (run_tests_no_fetch env table URL this tests s1) as (e2 & T2 & F2).
  destruct (no_fetch_counts F2) as [B2 A2].
  assert (T1 : trace s1 = trace s ++ new_events s s1).
  { destruct (constructor_fetches env base times s) as (e1 & T1 & _).
    fold s1 in T1. now rewrite (@new_events_app _ _ _ T1). }
  assert (T : trace (snd (run_tests env table URL this tests s1))
              = trace s ++ (new_events s s1 ++ e2))
    by (rewrite T2, T1; now rewrite app_assoc).
  rewrite (@new_events_app _ _ _ T), (@new_events_app _ _ _ T2).
  destruct (fetches_app (new_events s s1) e2) as [-> ->].
  rewrite B2, A2, Hn.
  split; [reflexivity|]. split; [exact Hc|].
  split; [now destruct (browser_capabilities env)|].
  split; [now destruct (browser_capabilities env)|].
  split; [reflexivity|]. split; [reflexivity|]. split.
  - intros r Hin. eapply run_tests_capabilities; eauto.
  - rewrite <- Hc. destruct (collectedCapabilities this) as [caps|e] eqn:Ec.
    + split.
      * destruct (run_tests_log_capabilities env table URL this tests Ec s1)
          as (evs & T' & L).
        rewrite T2 in T'. apply app_inv_head in T'. now subst evs.
      * apply Forall_forall. intros [r|e] Hin; [|exact I].
        apply (run_tests_capabilities env table URL this tests s1) in Hin.
        congruence.
    + apply run_rejected. exact Ec.
Qed.

(* ================================================================== *)
(** * More on the key model and the mapper *)
(* ================================================================== *)

(** X1: [ATKey.sequence] of one sequence is that sequence, and the sequence of
    a list of items is the sequence of the sequences of its two parts: the
    chords of the first part, then those of the second. *)
Theorem sequence_concatenates (s : ATKeySequence) (xs ys : list Item) :
  ATKey_sequence [ISequence s] = s
  /\ sequence (ATKey_sequence (xs ++ ys))
     = sequence (ATKey_sequence xs) ++ sequence (ATKey_sequence ys)
  /\ ATKey_sequence (xs ++ ys)
     = ATKey_sequence [ISequence (ATKey_sequence xs); ISequence (ATKey_sequence ys)].
Proof.
  split; [|split].
  - apply ATKeySequence_ext. rewrite sequence_chords. cbn. apply app_nil_r.
  - now rewrite !sequence_chords, flat_map_app.
  - apply ATKeySequence_ext.
    rewrite (sequence_chords (xs ++ ys)), flat_map_app, <- !sequence_chords.
    symmetry. rewrite sequence_chords. cbn [flat_map]. unfold item_chords.
    cbn [sequence_push app]. now rewrite app_nil_r.
Qed.

Lemma mapper_chords (command : Command) :
  sequence (atKeysFromCommand command)
  = map chord_of_keypress (keypresses command).
Proof.
  unfold atKeysFromCommand. rewrite sequence_chords.
  induction (keypresses command) as [|kp kps IH]; [reflexivity|].
  cbn [map flat_map]. now rewrite IH.
Qed.


Lemma toLowerChar_not_upper (c : char) : is_upper (toLowerChar c) = false.
Proof.
  unfold toLowerChar. destruct (is_upper c) eqn:U; [|exact U].
  class_bool.
Qed.

Lemma toLowerChar_not_space (c : char) :
  is_space c = false -> is_space (toLowerChar c) = false.
Proof.
  unfold toLowerChar. destruct (is_upper c) eqn:U; [|auto].
  intros _. destruct (is_space (c + 32)%N) eqn:E; [exfalso|reflexivity].
  unfold is_space in E. unfold_classes. bool_hyps; lia.
Qed.

(** X3: The name of every key that [atKeysFromCommand] makes holds no
    upper-case letter and no white space. *)
Theorem mapper_keys_lower_case (command : Command) (chord : ATKeyChord) (k : ATKey) :
  In chord (sequence (atKeysFromCommand command)) ->
  In k (keys chord) ->
  forallb (fun c => negb (is_upper c) && negb (is_space c)) (key k) = true.
Proof.
  rewrite mapper_chords. intros Hc Hk.
  apply in_map_iff in Hc as (kp & <- & _). cbn in Hk.
  apply in_map_iff in Hk as (part & <- & _).
  unfold key_of_part, ATKey_key, new_ATKey. cbn [key].
  apply forallb_forall. intros c Hin. unfold toLowerCase in Hin.
  apply in_map_iff in Hin as (c0 & <- & Hin).
  apply filter_In in Hin as [_ Hs]. apply negb_true_iff in Hs.
  now rewrite toLowerChar_not_upper, toLowerChar_not_space.
Qed.

Definition command_ctrl_page_down : Command :=
  {| command_id := str "c3";
     keypresses := [ {| keypress_id := str "CTRL+PAGE_DOWN" |};
                     {| keypress_id := str "Up Arrow" |} ];
     settings := None |}.

Lemma mapper_keys_lower_case_witness :
  forallb (fun c => negb (is_upper c) && negb (is_space c)) (str "pagedown") = true.
Proof.
  apply (@mapper_keys_lower_case command_ctrl_page_down
           (ATKey_chord [ATKey_key (str "ctrl"); ATKey_key (str "pagedown")])
           (ATKey_key (str "pagedown"))).
  - left. reflexivity.
  - right. left. reflexivity.
Defined.

(** The names of [seleniumKeysMap] map to one code unit each, from U+E000
    to U+E040. *)
Lemma seleniumKeysMap_values :
  forallb (fun kv => match snd kv with
                     | [c] => between 0xe000 0xe040 c
                     | _ => false
                     end) seleniumKeysMap = true.
Proof. reflexivity. Qed.

(** X4: A key is sent as the one code unit, from U+E000 to U+E040, that
    [seleniumKeysMap] gives for its name in upper case, whatever the case
    of the name; a key whose upper-cased name the table does not hold is
    sent as it is. *)
Theorem mapped_named_or_itself (k : jsstring) :
  (lookup seleniumKeysMap (toUpperCase k) = None /\ mapped (ATKey_key k) = k)
  \/ (exists c,
        lookup seleniumKeysMap (toUpperCase k) = Some [c]
        /\ between 0xe000 0xe040 c = true
        /\ forall k', toUpperCase k' = toUpperCase k -> mapped (ATKey_key k') = [c]).
Proof.
  unfold ATKey_key, new_ATKey. cbn [mapped].
  destruct (lookup seleniumKeysMap (toUpperCase k)) as [v|] eqn:L; [right|left; auto].
  pose proof seleniumKeysMap_values as V. rewrite forallb_forall in V.
  specialize (V _ (lookup_in _ _ L)). cbn [snd] in V.
  destruct v as [|c [|c' v]]; try discriminate.
  exists c. split; [reflexivity|]. split; [exact V|].
  intros k' E. now rewrite E, L.
Qed.

(* ================================================================== *)
(** * More on the validator *)
(* ================================================================== *)

(** A code unit that none of the tests of the validator looks for. *)
Definition plain (c : char) : bool :=
  negb (is_separator c)
  && negb ((c =? c_slash)%N || (c =? c_lparen)%N || (c =? c_rparen)%N).

Lemma single_plain_no_errors (table : list (jsstring * jsstring)) (c : char) :
  plain c = true -> keypress_errors table {| keypress_id := [c] |} = [].
Proof.
  intros H. unfold plain in H. apply andb_true_iff in H as [Hs Hp].
  apply negb_true_iff in Hs, Hp.
  apply orb_false_iff in Hp as [Hp Hr]. apply orb_false_iff in Hp as [Hsl Hl].
  assert (Hplus : (c =? c_plus)%N = false).
  { unfold is_separator in Hs. apply orb_false_iff in Hs as [Hs _].
    now apply orb_false_iff in Hs as [_ Hs]. }
  assert (Hund : (c =? c_underscore)%N = false).
  { unfold is_separator in Hs. apply orb_false_iff in Hs as [Hs _].
    now apply orb_false_iff in Hs as [Hs _]. }
  assert (N : normalize_id [c] = [c]).
  { unfold normalize_id. cbn [replace_page starts_with str list_ascii_of_string map].
    rewrite !andb_false_r. cbn [replace_first]. rewrite Hplus.
    cbn [remove_matches]. unfold match_ARROW.
    cbn [starts_with str list_ascii_of_string map]. now rewrite andb_false_r. }
  unfold keypress_errors, validate_keypress. cbn [keypress_id]. rewrite N.
  unfold test_class. cbn [existsb]. rewrite orb_false_r.
  rewrite (N.eqb_sym c_slash c), Hsl, Hl, Hr. cbn [orb push_if].
  unfold test_word. cbn [test_word_from starts_with str list_ascii_of_string map].
  rewrite !andb_false_r. cbn [negb andb orb push_if split].
  rewrite Hs. cbn [fold_left]. unfold check_part, unrecognized. reflexivity.
Qed.

(** X5: A command whose keypress ids are each one code unit other than
    [/ ( ) _ + ,] is valid, whatever the table of named keys. *)
Theorem single_characters_validate
    (table : list (jsstring * jsstring)) (command : Command) :
  Forall (fun kp => exists c, kp = {| keypress_id := [c] |} /\ plain c = true)
         (keypresses command) ->
  validateKeysFromCommand table command
  = {| value := Some command; errors := None |}.
Proof.
  intros H. rewrite validateKeysFromCommand_spec.
  assert (E : flat_map (keypress_errors table) (keypresses command) = []).
  { induction H as [|kp kps (c & -> & Hc) _ IH]; [reflexivity|].
    cbn [flat_map]. now rewrite (single_plain_no_errors table c Hc), IH. }
  now rewrite E.
Qed.

Lemma single_characters_validate_witness :
  validateKeysFromCommand []
    {| command_id := str "c4";
       keypresses := [ {| keypress_id := str "b" |}; {| keypress_id := str "1" |} ];
       settings := None |}
  = {| value := Some {| command_id := str "c4";
                        keypresses := [ {| keypress_id := str "b" |};
                                        {| keypress_id := str "1" |} ];
                        settings := None |};
       errors := None |}.
Proof.
  apply (@single_characters_validate [] _).
  repeat constructor.
  - exists 98%N. split; reflexivity.
  - exists 49%N. split; reflexivity.
Defined.

(* ================================================================== *)
(** * Properties that every step of the runner keeps *)
(* ================================================================== *)

(** The calls that the runner makes of the browser driver. *)
Definition browser_event (e : Event) : Prop :=
  match e with
  | Navigate _ | DocumentReady | ClickWhenPresent _ _ => True
  | _ => False
  end.

Section Structural.

Variable env : Env.
Variable table : list (jsstring * jsstring).
Variable URL : jsstring -> jsstring -> jsstring.
Variable this : DriverTestRunner.

(** A property of computations that sequencing, [try] and the basic steps
    of the runner keep. *)
Variable C : forall A, M A -> Prop.

Hypothesis C_ret : forall A (a : A), C (ret a).
Hypothesis C_throw : forall A (e : jsstring), C (@throw A e).
Hypothesis C_await : forall A (p : Result A), C (await p).
Hypothesis C_bind :
  forall A B (m : M A) (k : A -> M B), C m -> (forall a, C (k a)) -> C (bind m k).
Hypothesis C_try_catch :
  forall A (body handler : M A), C body -> C handler -> C (try_catch body handler).
Hypothesis C_try_finally :
  forall A (body : M A) (cleanup : M unit),
    C body -> C cleanup -> C (try_finally body cleanup).
Hypothesis C_log : forall m p, C (log m p).
Hypothesis C_browser : forall e, browser_event e -> C (browser_call env e).
Hypothesis C_collect :
  forall d (op : M unit), C op -> C (_collectSpeech env d op).
Hypothesis C_press : forall p, C (_send env m_pressKeys p).

Lemma C_for_of A (xs : list A) (body : A -> M unit) :
  (forall x, C (body x)) -> C (for_of xs body).
Proof.
  intros H. induction xs as [|x xs IH]; cbn [for_of]; auto.
Qed.

Lemma C_for_of_acc A S (xs : list A) (body : S -> A -> M S) :
  (forall acc x, C (body acc x)) -> forall acc, C (for_of_acc xs body acc).
Proof.
  intros H. induction xs as [|x xs IH]; intros acc; cbn [for_of_acc]; auto.
Qed.

Lemma C_ATDriver_sendKeys (items : list Item) : C (ATDriver_sendKeys env items).
Proof.
  unfold ATDriver_sendKeys. apply C_for_of. intros chord.
  apply C_for_of. intros _. apply C_press.
Qed.

Lemma C_sendKeys (seq : ATKeySequence) : C (sendKeys env seq).
Proof.
  unfold sendKeys. apply C_bind; [apply C_log|]. intros _.
  apply C_ATDriver_sendKeys.
Qed.

Lemma C_toggle_tries (seq : ATKeySequence) (d : jsstring) (n : nat) :
  forall u, C (toggle_tries env this n seq d u).
Proof.
  induction n as [|n IH]; intros u; cbn [toggle_tries]; [apply C_throw|].
  apply C_bind; [apply C_collect, C_sendKeys|].
  intros lines. destruct (match_speech lines d u); [apply IH|apply C_ret].
Qed.

Lemma C_pressKeysToToggleSetting (seq : ATKeySequence) (d : jsstring) :
  C (pressKeysToToggleSetting env this seq d).
Proof. apply C_toggle_tries. Qed.

Lemma C_openPage (url referencePage : jsstring) :
  C (openPage env this url referencePage).
Proof.
  unfold openPage.
  apply C_bind; [apply C_log|]. intros _.
  apply C_bind; [apply C_browser; exact I|]. intros _.
  apply C_bind; [apply C_browser; exact I|]. intros _.
  apply C_try_catch; [apply C_browser; exact I|apply C_log].
Qed.

(** The branches of [ensureSettings] for an AT that is not NVDA. *)
Lemma C_ensureSettings_other (caps : Capabilities) (settings : jsstring) :
  (forall name, atName caps = Some name -> equals "NVDA" name = false) ->
  C (match atName caps with
     | None => ret tt
     | Some name =>
         if equals "NVDA" name then
           match lookup nvda_responses (toLowerCase settings) with
           | Some (c :: r) =>
               set_audio_indication env false ;;
               try_finally
                 (pressKeysToToggleSetting env this
                    (chord_of ["insert"; "space"]%string) (c :: r))
                 (set_audio_indication env true)
           | _ =>
               throw (str "Unknown command settings for NVDA " ++ [34%N]
                      ++ settings ++ [34%N])
           end
         else if equals "VoiceOver" name then
           if equals "quickNavOn" settings || equals "arrowQuickKeyNavOn" settings then
             pressKeysToToggleSetting env this (chord_of ["left"; "right"]%string)
                                      (str "quick nav on")
           else if equals "quickNavOff" settings || equals "arrowQuickKeyNavOff" settings then
             pressKeysToToggleSetting env this (chord_of ["left"; "right"]%string)
                                      (str "quick nav off")
           else if equals "singleQuickKeyNavOn" settings then
             pressKeysToToggleSetting env this
               (chord_of ["control"; "option"; "q"]%string)
               (str "single-key quick nav on")
           else if equals "singleQuickKeyNavOff" settings then
             pressKeysToToggleSetting env this
               (chord_of ["control"; "option"; "q"]%string)
               (str "single-key quick nav off")
           else if negb (equals "defaultMode" settings) then
             throw (str "Unrecognized setting for VoiceOver: " ++ settings)
           else ret tt
         else if negb (truthy (Some name)) then ret tt
         else throw (str "Unable to ensure proper settings. Unknown atName " ++ name)
     end).
Proof.
  intros Hn. destruct (atName caps) as [name|]; [|apply C_ret].
  rewrite (Hn name eq_refl).
  repeat match goal with
         | |- C (if ?b then _ else _) => destruct b
         end;
    first [apply C_pressKeysToToggleSetting | apply C_throw | apply C_ret].
Qed.

Lemma C_ensureSettings (settings : jsstring) :
  (forall v, C (set_audio_indication env v)) ->
  C (ensureSettings env this settings).
Proof.
  intros Hset. unfold ensureSettings. apply C_bind; [apply C_await|]. intros caps.
  destruct (atName caps) as [name|] eqn:En; [|apply C_ret].
  destruct (equals "NVDA" name) eqn:E.
  - destruct (lookup nvda_responses (toLowerCase settings)) as [[|c r]|];
      try apply C_throw.
    apply C_bind; [apply Hset|]. intros _.
    apply C_try_finally; [apply C_pressKeysToToggleSetting|apply Hset].
  - pose proof (@C_ensureSettings_other caps settings) as H.
    rewrite En, E in H. apply H. intros name' [= <-]. exact E.
Qed.

Lemma C_ensureMode (mode : jsstring) :
  (forall st, C (ensureSettings env this st)) ->
  C (ensureMode env this mode).
Proof.
  intros Hs. unfold ensureMode. apply C_bind; [apply C_await|]. intros caps.
  destruct (atName caps) as [name|]; [|apply C_ret].
  repeat match goal with
         | |- C (if ?b then _ else _) => destruct b
         end;
    first [apply Hs | apply C_throw | apply C_ret].
Qed.

Lemma C_exercise_command (test : CollectedTest) (c v : Command) :
  (forall st, C (ensureSettings env this st)) ->
  (forall m, C (ensureMode env this m)) ->
  C (exercise_command env URL this test c v).
Proof.
  intros Hs Hm. unfold exercise_command.
  apply C_bind; [apply C_collect, C_openPage|]. intros _.
  apply C_bind.
  { destruct (settings c) as [[|x st]|];
      [ | apply Hs | ];
      destruct (mode (target test)) as [[|y m]|];
      first [apply Hm | apply C_ret]. }
  intros _.
  apply C_bind; [apply C_collect, C_sendKeys|]. intros spoken.
  apply C_bind; [|intros _; apply C_ret].
  apply C_collect. apply C_bind; [apply C_log|]. intros _.
  apply C_browser. exact I.
Qed.

Lemma C_run_command (test : CollectedTest)
    (acc : list CommandOutput.t * list AssertionResult.t) (c : Command) :
  (forall st, C (ensureSettings env this st)) ->
  (forall m, C (ensureMode env this m)) ->
  C (run_command env table URL this test acc c).
Proof.
  intros Hs Hm. unfold run_command. destruct acc as [outs results].
  destruct (value (validateKeysFromCommand table c)) as [v|].
  - apply C_bind; [now apply C_exercise_command|]. intros spoken. apply C_ret.
  - apply C_bind; [apply C_log|]. intros _. apply C_ret.
Qed.

Lemma C_run (test : CollectedTest) :
  (forall st, C (ensureSettings env this st)) ->
  (forall m, C (ensureMode env this m)) ->
  C (run env table URL this test).
Proof.
  intros Hs Hm. unfold run. apply C_bind; [apply C_await|]. intros caps.
  do 3 (apply C_bind; [apply C_log|]; intros _).
  apply C_bind; [apply C_browser; exact I|]. intros _.
  apply C_bind; [|intros acc; apply C_ret].
  apply C_for_of_acc. intros acc c. now apply C_run_command.
Qed.

End Structural.

(* ================================================================== *)
(** * The ids of the requests *)
(* ================================================================== *)

Definition request_id (f : nat * jsstring * Params) : nat := fst (fst f).

(** The requests that [m] writes carry the ids that follow [_nextId], one
    after the other, and [_nextId] ends after the last of them. *)
Definition numbered {A} (m : M A) : Prop :=
  forall s, exists evs,
    trace (snd (m s)) = trace s ++ evs
    /\ map request_id (sent evs) = seq (_nextId s) (List.length (sent evs))
    /\ _nextId (snd (m s)) = _nextId s + List.length (sent evs).

(** A step that writes no request and leaves [_nextId] as it is. *)
Lemma numbered_silent A (m : M A) :
  (forall s, exists evs,
      trace (snd (m s)) = trace s ++ evs
      /\ sent evs = [] /\ _nextId (snd (m s)) = _nextId s) ->
  numbered m.
Proof.
  intros H s. destruct (H s) as (evs & T & S & N).
  exists evs. rewrite S, N. cbn. auto.
Qed.

Lemma numbered_then (s s1 s2 : State) (e1 e2 : list Event) :
  trace s1 = trace s ++ e1 ->
  map request_id (sent e1) = seq (_nextId s) (List.length (sent e1)) ->
  _nextId s1 = _nextId s + List.length (sent e1) ->
  trace s2 = trace s1 ++ e2 ->
  map request_id (sent e2) = seq (_nextId s1) (List.length (sent e2)) ->
  _nextId s2 = _nextId s1 + List.length (sent e2) ->
  trace s2 = trace s ++ (e1 ++ e2)
  /\ map request_id (sent (e1 ++ e2))
     = seq (_nextId s) (List.length (sent (e1 ++ e2)))
  /\ _nextId s2 = _nextId s + List.length (sent (e1 ++ e2)).
Proof.
  intros T1 S1 N1 T2 S2 N2.
  rewrite sent_app, map_app, length_app, seq_app, S1, S2, N2, N1, T2, T1.
  now rewrite app_assoc, Nat.add_assoc.
Qed.

Lemma numbered_bind A B (m : M A) (k : A -> M B) :
  numbered m -> (forall a, numbered (k a)) -> numbered (bind m k).
Proof.
  intros Hm Hk s. unfold bind.
  destruct (Hm s) as (e1 & T1 & S1 & N1).
  destruct (m s) as [[a|e] s1]; cbn [snd] in *; [|eauto].
  destruct (Hk a s1) as (e2 & T2 & S2 & N2).
  exists (e1 ++ e2). eapply numbered_then; eauto.
Qed.

Lemma numbered_try_catch A (body handler : M A) :
  numbered body -> numbered handler -> numbered (try_catch body handler).
Proof.
  intros Hb Hh s. unfold try_catch.
  destruct (Hb s) as (e1 & T1 & S1 & N1).
  destruct (body s) as [[a|e] s1]; cbn [snd] in *; [eauto|].
  destruct (Hh s1) as (e2 & T2 & S2 & N2).
  exists (e1 ++ e2). eapply numbered_then; eauto.
Qed.

Lemma numbered_try_finally A (body : M A) (cleanup : M unit) :
  numbered body -> numbered cleanup -> numbered (try_finally body cleanup).
Proof.
  intros Hb Hc s. rewrite try_finally_state.
  destruct (Hb s) as (e1 & T1 & S1 & N1).
  destruct (Hc (snd (body s))) as (e2 & T2 & S2 & N2).
  exists (e1 ++ e2). eapply numbered_then; eauto.
Qed.

Lemma numbered_send (env : Env) (m : jsstring) (p : Params) :
  numbered (_send env m p).
Proof.
  intros s. unfold _send, bind, next_id, log, emit, await_response. cbn.
  destruct (at_reply env (_nextId s)) as [[[|c e]|]|]; cbn;
    eexists; rewrite <- ?app_assoc; (split; [reflexivity|]); cbn;
    split; (reflexivity || lia).
Qed.

Lemma numbered_collect (env : Env) (d : N) (op : M unit) :
  numbered op -> numbered (_collectSpeech env d op).
Proof.
  intros H. unfold _collectSpeech. apply numbered_bind; [exact H|]. intros _.
  apply numbered_silent. intros s. eexists. cbn [snd trace _nextId].
  split; [reflexivity|]. split; [|reflexivity].
  rewrite sent_app. cbn. rewrite app_nil_r.
  induction (at_speech env (windows s)); auto.
Qed.

Lemma numbered_browser (env : Env) (e : Event) :
  browser_event e -> numbered (browser_call env e).
Proof.
  intros He. apply numbered_silent. intros s. exists [e]. unfold browser_call.
  destruct (browser_reply env (browser_calls s)); cbn;
    (split; [reflexivity|]); (split; [|reflexivity]);
    destruct e; cbn in *; auto; contradiction.
Qed.

Lemma numbered_run (env : Env) (table : list (jsstring * jsstring))
    (URL : jsstring -> jsstring -> jsstring) (this : DriverTestRunner)
    (test : CollectedTest) :
  numbered (run env table URL this test).
Proof.
  assert (Hs : forall st, numbered (ensureSettings env this st)).
  { intros st. apply (@C_ensureSettings env this (@numbered));
      try (intros; apply numbered_silent; intros s; exists []; cbn;
           now rewrite app_nil_r);
      auto using numbered_bind, numbered_try_finally, numbered_collect,
                 numbered_send.
    - intros m p. apply numbered_silent. intros s. exists [Log m p]. cbn. auto.
    - intros v. apply numbered_send. }
  apply (@C_run env table URL this (@numbered));
    try (intros; apply numbered_silent; intros s; exists []; cbn;
         now rewrite app_nil_r);
    auto using numbered_bind, numbered_try_catch, numbered_collect,
               numbered_send, numbered_browser.
  - intros m p. apply numbered_silent. intros s. exists [Log m p]. cbn. auto.
  - intros m. apply (@C_ensureMode env this (@numbered));
      try (intros; apply numbered_silent; intros s; exists []; cbn;
           now rewrite app_nil_r);
      auto using numbered_bind.
Qed.

(** X6: Over the tests that a runner runs, the requests it writes to the socket
    carry consecutive ids, from the value of [_nextId] at the start on, and
    [_nextId] ends after the last of them: no id is used twice. *)
Theorem request_ids_consecutive
    (env : Env) (table : list (jsstring * jsstring))
    (URL : jsstring -> jsstring -> jsstring) (this : DriverTestRunner)
    (tests : list CollectedTest) (s : State) :
  exists n,
    _nextId (snd (run_tests env table URL this tests s)) = _nextId s + n
    /\ map request_id
         (sent (new_events s (snd (run_tests env table URL this tests s))))
       = seq (_nextId s) n.
Proof.
  assert (H : exists evs,
             trace (snd (run_tests env table URL this tests s)) = trace s ++ evs
             /\ map request_id (sent evs) = seq (_nextId s) (List.length (sent evs))
             /\ _nextId (snd (run_tests env table URL this tests s))
                = _nextId s + List.length (sent evs)).
  { revert s. induction tests as [|t tests IH]; intros s; cbn [run_tests].
    - exists []. cbn. rewrite app_nil_r. auto.
    - destruct (numbered_run env table URL this t s) as (e1 & T1 & S1 & N1).
      destruct (run env table URL this t s) as [r s1]. cbn [snd] in *.
      destruct (IH s1) as (e2 & T2 & S2 & N2).
      destruct (run_tests env table URL this tests s1) as [rs s2]. cbn [snd] in *.
      exists (e1 ++ e2). eapply numbered_then; eauto. }
  destruct H as (evs & T & S & N).
  exists (List.length (sent evs)). split; [exact N|].
  now rewrite (@new_events_app _ _ _ T).
Qed.

(* ================================================================== *)
(** * [sendKeys] and the errors of the AT *)
(* ================================================================== *)

(** The event is a response that carries an error. *)
Definition error_response (ev : Event) : bool :=
  match ev with
  | Response _ (Some (_ :: _)) => true
  | _ => false
  end.

(** [m] returns when no response carries an error, and throws the error of
    the first response that carries one, right after that response. *)
Definition stops_at_error (env : Env) (m : M unit) : Prop :=
  forall s, exists evs,
    trace (snd (m s)) = trace s ++ evs
    /\ match fst (m s) with
       | Ok _ => existsb error_response evs = false
       | Throw e =>
           exists pre id,
             evs = pre ++ [Response id (Some e)]
             /\ e <> []
             /\ existsb error_response pre = false
             /\ at_reply env id = Some (Some e)
       end.

Lemma stops_at_error_send (env : Env) (m : jsstring) (p : Params) :
  stops_at_error env (_send env m p).
Proof.
  intros s. unfold _send, bind, next_id, log, emit, await_response. cbn.
  destruct (at_reply env (_nextId s)) as [[[|c e]|]|] eqn:R; cbn;
    eexists; rewrite <- ?app_assoc; (split; [reflexivity|]); cbn; auto.
  eexists [_; _], _. cbn. repeat split; eauto. discriminate.
Qed.

Lemma stops_at_error_seq (env : Env) (m k : M unit) :
  stops_at_error env m -> stops_at_error env k -> stops_at_error env (m ;; k).
Proof.
  intros Hm Hk s. unfold bind.
  destruct (Hm s) as (e1 & T1 & R1).
  destruct (m s) as [[[]|e] s1]; cbn [fst snd] in *.
  - destruct (Hk s1) as (e2 & T2 & R2).
    exists (e1 ++ e2). rewrite T2, T1, app_assoc. split; [reflexivity|].
    destruct (fst (k s1)) as [[]|e].
    + rewrite existsb_app, R1, R2. reflexivity.
    + destruct R2 as (pre & id & -> & Hne & Hpre & Hr).
      exists (e1 ++ pre), id. rewrite <- app_assoc, existsb_app, R1, Hpre. auto.
  - exists e1. auto.
Qed.

Lemma stops_at_error_for_of (env : Env) A (xs : list A) (body : A -> M unit) :
  (forall x, stops_at_error env (body x)) -> stops_at_error env (for_of xs body).
Proof.
  intros H. induction xs as [|x xs IH]; cbn [for_of].
  - intros s. exists []. cbn. now rewrite app_nil_r.
  - apply stops_at_error_seq; auto.
Qed.

(** X7: [sendKeys] returns exactly when no response to its requests carries an
    error; it throws the error of the first response that carries one, and
    that response is then the last thing that happens: no request follows
    it. *)
Theorem sendKeys_stops_at_first_error (env : Env) (items : list Item) (s : State) :
  match fst (ATDriver_sendKeys env items s) with
  | Ok _ =>
      existsb error_response
        (new_events s (snd (ATDriver_sendKeys env items s))) = false
  | Throw e =>
      exists pre id,
        new_events s (snd (ATDriver_sendKeys env items s))
        = pre ++ [Response id (Some e)]
        /\ e <> []
        /\ existsb error_response pre = false
        /\ at_reply env id = Some (Some e)
  end.
Proof.
  assert (H : stops_at_error env (ATDriver_sendKeys env items)).
  { unfold ATDriver_sendKeys. apply stops_at_error_for_of. intros chord.
    apply stops_at_error_for_of. intros _. apply stops_at_error_send. }
  destruct (H s) as (evs & T & R).
  now rewrite (@new_events_app _ _ _ T).
Qed.

(* ================================================================== *)
(** * [openPage] *)
(* ================================================================== *)

(** X8: When the page loads, [openPage] returns whether or not the button that
    runs the test setup can be clicked; that it cannot is logged, with the
    reference page, and nothing else. *)
Theorem openPage_setup_button_optional
    (env : Env) (this : DriverTestRunner) (url referencePage : jsstring)
    (s : State) :
  browser_reply env (browser_calls s) = None ->
  browser_reply env (S (browser_calls s)) = None ->
  fst (openPage env this url referencePage s) = Ok tt
  /\ new_events s (snd (openPage env this url referencePage s))
     = [ Log OPEN_PAGE (PUrl url); Navigate url; DocumentReady;
         ClickWhenPresent (str ".button-run-test-setup")
                          (testSetup (timesOption this)) ]
       ++ match browser_reply env (S (S (browser_calls s))) with
          | None => []
          | Some _ => [Log NO_RUN_TEST_SETUP (PReferencePage referencePage)]
          end.
Proof.
  intros H0 H1.
  unfold openPage, bind, log, emit, browser_call, try_catch. cbn.
  rewrite H0. cbn. rewrite H1. cbn.
  destruct (browser_reply env (S (S (browser_calls s)))); cbn;
    (split; [reflexivity|]); apply new_events_app; cbn;
    now rewrite <- !app_assoc.
Qed.

(** The browser driver fails at its third call: the click. *)
Definition no_setup_button : Env :=
  {| at_reply := fun _ => Some None;
     at_speech := fun _ => [];
     browser_reply := fun k => match k with
                               | 2 => Some (str "no such element")
                               | _ => None
                               end;
     browser_capabilities := Ok (Some (str "chrome"), Some (str "126"));
     at_capabilities := Ok (Some (str "NVDA"), Some (str "2024.1"), Some (str "windows")) |}.

Lemma openPage_setup_button_optional_witness :
  fst (openPage no_setup_button (example_runner no_setup_button)
         (str "http://localhost/page") (str "page") initial) = Ok tt
  /\ new_events initial
       (snd (openPage no_setup_button (example_runner no_setup_button)
               (str "http://localhost/page") (str "page") initial))
     = [ Log OPEN_PAGE (PUrl (str "http://localhost/page"));
         Navigate (str "http://localhost/page"); DocumentReady;
         ClickWhenPresent (str ".button-run-test-setup")
                          (testSetup (timesOption (example_runner no_setup_button))) ]
       ++ match browser_reply no_setup_button (S (S (browser_calls initial))) with
          | None => []
          | Some _ => [Log NO_RUN_TEST_SETUP (PReferencePage (str "page"))]
          end.
Proof.
  apply (@openPage_setup_button_optional no_setup_button
           (example_runner no_setup_button)
           (str "http://localhost/page") (str "page") initial);
    reflexivity.
Defined.

(* ================================================================== *)
(** * The outcome of [pressKeysToToggleSetting] *)
(* ================================================================== *)

(** The lines from the first one that is not empty. *)
Fixpoint skip_empty (lines : list jsstring) : list jsstring :=
  match lines with
  | [] :: rest => skip_empty rest
  | _ => lines
  end.

(** What [unknownCollected] holds after the given lines were captured and
    none was the desired response: the lines, trimmed, one per line of
    text; as the separator is added only to a text that is not empty,
    empty lines at the front leave no trace. *)
Definition unknown_text (lines : list jsstring) : jsstring :=
  join newline (skip_empty (map trim lines)).

Lemma join_merge (sep a b : jsstring) (rest : list jsstring) :
  join sep ((a ++ sep ++ b) :: rest) = a ++ sep ++ join sep (b :: rest).
Proof.
  destruct rest as [|r rest]; cbn [join]; [reflexivity|].
  now rewrite <- !app_assoc.
Qed.

Lemma join_cons2 (sep x y : jsstring) (rest : list jsstring) :
  join sep (x :: y :: rest) = x ++ sep ++ join sep (y :: rest).
Proof. reflexivity. Qed.

Lemma join_app_join (sep : jsstring) (xs ys : list jsstring) :
  xs <> [] -> join sep (join sep xs :: ys) = join sep (xs ++ ys).
Proof.
  induction xs as [|x xs IH]; [congruence|]. intros _.
  destruct xs as [|y xs]; [reflexivity|].
  rewrite join_cons2, join_merge, IH by discriminate.
  reflexivity.
Qed.

Lemma skip_empty_cons (x : jsstring) (rest : list jsstring) :
  x <> [] -> skip_empty (x :: rest) = x :: rest.
Proof. destruct x; [congruence|reflexivity]. Qed.

Lemma join_skip_empty_app (xs ys : list jsstring) :
  join newline (skip_empty (join newline (skip_empty xs) :: ys))
  = join newline (skip_empty (xs ++ ys)).
Proof.
  induction xs as [|x xs IH]; [reflexivity|].
  destruct x as [|c t]; [exact IH|].
  change (skip_empty ((c :: t) :: xs)) with ((c :: t) :: xs).
  change (skip_empty (((c :: t) :: xs) ++ ys)) with (((c :: t) :: xs) ++ ys).
  assert (E : exists c' t', join newline ((c :: t) :: xs) = c' :: t')
    by (destruct xs; cbn; eauto).
  destruct E as (c' & t' & E).
  rewrite skip_empty_cons by (rewrite E; discriminate).
  now rewrite join_app_join by discriminate.
Qed.

(** The text collected by the inner loop when no line is the desired
    response. *)
Lemma match_speech_text (lines : list jsstring) (d : jsstring) :
  forall u,
    existsb (is_desired d) lines = false ->
    match_speech lines d u = Some (join newline (skip_empty (u :: map trim lines))).
Proof.
  induction lines as [|l lines IH]; intros u H; cbn [match_speech existsb map] in *.
  - now destruct u.
  - apply orb_false_iff in H as [H1 H2]. unfold is_desired in H1. rewrite H1.
    rewrite IH by exact H2. f_equal. unfold collect_unknown.
    destruct u as [|c u]; [reflexivity|].
    rewrite <- app_assoc.
    rewrite !skip_empty_cons by discriminate.
    now rewrite join_merge.
Qed.

(** X9: When the AT acknowledges the keys, [pressKeysToToggleSetting] returns
    exactly when a line of the first or of the second attempt, trimmed, is
    the desired response up to case; the second attempt is made exactly
    when no line of the first is; and the error thrown otherwise quotes
    the trimmed lines of both attempts, one per line of text, without the
    empty lines at the front. *)
Theorem toggle_setting_outcome
    (env : Env) (this : DriverTestRunner) (seq : ATKeySequence)
    (desiredResponse : jsstring) (s : State) :
  acknowledges env ->
  let out := pressKeysToToggleSetting env this seq desiredResponse s in
  let first := at_speech env (windows s) in
  let second := at_speech env (S (windows s)) in
  fst out
  = (if existsb (is_desired desiredResponse) (first ++ second)
     then Ok tt
     else Throw (unable_to_apply desiredResponse (unknown_text (first ++ second))))
  /\ attempts (new_events s (snd out))
     = (if existsb (is_desired desiredResponse) first then 1 else 2)
  /\ windows (snd out)
     = windows s + (if existsb (is_desired desiredResponse) first then 1 else 2).
Proof.
  intros acks. cbv zeta. unfold pressKeysToToggleSetting.
  rewrite (toggle_tries_step this seq acks).
  destruct (attempt_trace env this seq s) as (e1 & T1 & A1).
  destruct (attempt_ok this seq acks s) as [_ W1].
  set (s1 := snd (attempt env this seq s)) in *.
  rewrite existsb_app.
  destruct (existsb (is_desired desiredResponse) (at_speech env (windows s))) eqn:E1.
  - apply (match_speech_none _ _ []) in E1. rewrite E1. cbn [fst snd orb].
    rewrite (@new_events_app _ _ _ T1). repeat split; auto; lia.
  - rewrite (@match_speech_text _ _ [] E1). cbn [orb].
    rewrite (toggle_tries_step this seq acks), W1.
    destruct (attempt_trace env this seq s1) as (e2 & T2 & A2).
    destruct (attempt_ok this seq acks s1) as [_ W2].
    assert (T : trace (snd (attempt env this seq s1)) = trace s ++ (e1 ++ e2))
      by (rewrite T2, T1; now rewrite app_assoc).
    destruct (existsb (is_desired desiredResponse) (at_speech env (S (windows s))))
      eqn:E2.
    + rewrite (proj2 (match_speech_none _ _ _) E2). cbn [fst snd].
      rewrite (@new_events_app _ _ _ T), attempts_app.
      repeat split; auto; lia.
    + rewrite (@match_speech_text _ _ _ E2). cbn [toggle_tries throw fst snd].
      rewrite (@new_events_app _ _ _ T), attempts_app.
      split; [|split; lia].
      unfold unknown_text. rewrite map_app, <- join_skip_empty_app. reflexivity.
Qed.

Lemma toggle_setting_outcome_witness :
  fst (pressKeysToToggleSetting (env_of "NVDA" focus_then_browse)
         (example_runner (env_of "NVDA" focus_then_browse))
         (ATKey_sequence [IChord insert_space]) (str "Browse mode") initial)
  = Ok tt
  /\ attempts (new_events initial
       (snd (pressKeysToToggleSetting (env_of "NVDA" focus_then_browse)
               (example_runner (env_of "NVDA" focus_then_browse))
               (ATKey_sequence [IChord insert_space]) (str "Browse mode") initial)))
     = 2
  /\ windows
       (snd (pressKeysToToggleSetting (env_of "NVDA" focus_then_browse)
               (example_runner (env_of "NVDA" focus_then_browse))
               (ATKey_sequence [IChord insert_space]) (str "Browse mode") initial))
     = 2.
Proof.
  apply (@toggle_setting_outcome (env_of "NVDA" focus_then_browse)
           (example_runner (env_of "NVDA" focus_then_browse))
           (ATKey_sequence [IChord insert_space]) (str "Browse mode") initial).
  intros id. reflexivity.
Defined.

(* ================================================================== *)
(** * A runner whose AT is not NVDA *)
(* ================================================================== *)

(** The event is no request other than [interaction.pressKeys]. *)
Definition presses_only (e : Event) : Prop :=
  match e with
  | SocketSend _ m _ => m = m_pressKeys
  | _ => True
  end.

(** The capabilities that the runner collected name NVDA as the AT. *)
Definition is_nvda (this : DriverTestRunner) : bool :=
  match collectedCapabilities this with
  | Ok caps =>
      match atName caps with
      | Some name => equals "NVDA" name
      | None => false
      end
  | Throw _ => false
  end.

Lemma only_await_bind (P : Event -> Prop) A B (p : Result A) (k : A -> M B) :
  (forall a, p = Ok a -> only P (k a)) -> only P (bind (await p) k).
Proof.
  intros H s. unfold bind, await. destruct p as [a|e].
  - now apply H.
  - exists []. cbn. now rewrite app_nil_r.
Qed.

Ltac only_steps :=
  intros; cbv beta in *;
  first
    [ apply only_ret | apply only_throw | apply only_await
    | apply only_bind; solve [auto]
    | apply only_try_catch; solve [auto]
    | apply only_try_finally; solve [auto]
    | apply only_log; exact I
    | apply only_collectSpeech; solve [auto | intros; exact I]
    | apply only_browser_call;
      match goal with
      | e : Event |- _ => destruct e; try contradiction; exact I
      end ].

Lemma comms_presses_only (e : Event) : comms m_pressKeys e -> presses_only e.
Proof. destruct e as [[] []| | | | | | | |]; cbn; auto. Qed.

Lemma presses_only_send (env : Env) (p : Params) :
  only presses_only (_send env m_pressKeys p).
Proof. eapply only_impl; [apply comms_presses_only|apply only_send]. Qed.

Section NotNVDA.

Variable env : Env.
Variable table : list (jsstring * jsstring).
Variable URL : jsstring -> jsstring -> jsstring.
Variable this : DriverTestRunner.
Hypothesis other : is_nvda this = false.

Lemma other_name (caps : Capabilities) (name : jsstring) :
  collectedCapabilities this = Ok caps -> atName caps = Some name ->
  equals "NVDA" name = false.
Proof.
  intros Ec En. unfold is_nvda in other. now rewrite Ec, En in other.
Qed.

Lemma presses_only_ensureSettings (settings : jsstring) :
  only presses_only (ensureSettings env this settings).
Proof.
  unfold ensureSettings. apply only_await_bind. intros caps Ec.
  apply (@C_ensureSettings_other env this (fun A (m : M A) => only presses_only m));
    try solve [only_steps].
  - intros p. apply presses_only_send.
  - intros name En. now apply other_name with caps.
Qed.

Lemma presses_only_ensureMode (mode : jsstring) :
  only presses_only (ensureMode env this mode).
Proof.
  unfold ensureMode. apply only_await_bind. intros caps Ec.
  destruct (atName caps) as [name|] eqn:En; [|apply only_ret].
  rewrite (other_name Ec En).
  repeat match goal with
         | |- only _ (if ?b then _ else _) => destruct b
         end;
    first [apply only_throw | apply only_ret].
Qed.

Lemma presses_only_run (test : CollectedTest) :
  only presses_only (run env table URL this test).
Proof.
  apply (@C_run env table URL this (fun A (m : M A) => only presses_only m));
    try solve [only_steps].
  - intros p. apply presses_only_send.
  - apply presses_only_ensureSettings.
  - apply presses_only_ensureMode.
Qed.

End NotNVDA.

Lemma sent_presses_only (evs : list Event) :
  Forall presses_only evs ->
  Forall (fun f => request_method f = m_pressKeys) (sent evs).
Proof.
  induction 1 as [|e evs He F IH]; [constructor|].
  destruct e; cbn in *; auto.
Qed.

(** X10: Only NVDA has its settings changed: over the tests run by a runner
    whose capabilities do not name NVDA as the AT, every request written
    to the socket is an [interaction.pressKeys] request. *)
Theorem settings_changed_only_for_nvda
    (env : Env) (table : list (jsstring * jsstring))
    (URL : jsstring -> jsstring -> jsstring) (this : DriverTestRunner)
    (tests : list CollectedTest) (s : State) :
  is_nvda this = false ->
  Forall (fun f => request_method f = m_pressKeys)
         (sent (new_events s (snd (run_tests env table URL this tests s)))).
Proof.
  intros other.
  assert (H : exists evs,
             trace (snd (run_tests env table URL this tests s)) = trace s ++ evs
             /\ Forall presses_only evs).
  { revert s. induction tests as [|t tests IH]; intros s; cbn [run_tests].
    - exists []. cbn. now rewrite app_nil_r.
    - destruct (@presses_only_run env table URL this other t s) as (e1 & T1 & F1).
      destruct (run env table URL this t s) as [r s1]. cbn [snd] in T1.
      destruct (IH s1) as (e2 & T2 & F2).
      destruct (run_tests env table URL this tests s1) as [rs s2]. cbn [snd] in *.
      exists (e1 ++ e2). rewrite T2, T1, app_assoc. split; auto.
      apply Forall_app. auto. }
  destruct H as (evs & T & F).
  rewrite (@new_events_app _ _ _ T). now apply sent_presses_only.
Qed.

(** A test of one command that asks for a setting of VoiceOver. *)
Definition quick_nav_test : CollectedTest :=
  {| info := {| testId := str "test-01"; task := str "navigate to checkbox";
                presentationNumber := Some 1%N |};
     target := {| referencePage := str "reference/checkbox.html"; mode := None |};
     commands := [ {| command_id := str "DOWN";
                      keypresses := [ {| keypress_id := str "DOWN" |} ];
                      settings := Some (str "quickNavOn") |} ];
     assertions := [ statement "role checkbox is conveyed" ] |}.

Lemma settings_changed_only_for_nvda_witness :
  Forall (fun f => request_method f = m_pressKeys)
         (sent (new_events initial
            (snd (run_tests (env_of "VoiceOver" (fun _ => [str "quick nav on"]))
                    seleniumKeysMap example_URL
                    (example_runner (env_of "VoiceOver" (fun _ => [str "quick nav on"])))
                    [quick_nav_test] initial)))).
Proof.
  apply (@settings_changed_only_for_nvda
           (env_of "VoiceOver" (fun _ => [str "quick nav on"]))
           seleniumKeysMap example_URL
           (example_runner (env_of "VoiceOver" (fun _ => [str "quick nav on"])))
           [quick_nav_test] initial).
  reflexivity.
Defined.

(* ================================================================== *)
(** * A runner whose capabilities could not be collected *)
(* ================================================================== *)

(** X11: The constructor does not fail when a driver cannot tell its
    capabilities; it keeps the rejected promise, and every test that the
    runner is then asked to run throws the error of the driver, of the
    browser driver first, before anything is logged, opened or sent. *)
Theorem rejected_capabilities_fail_every_test
    (env : Env) (table : list (jsstring * jsstring))
    (URL : jsstring -> jsstring -> jsstring)
    (base : BaseURL) (times : TimesOption) (e : jsstring)
    (tests : list CollectedTest) (s0 s : State) :
  browser_capabilities env = Throw e
  \/ ((exists b, browser_capabilities env = Ok b) /\ at_capabilities env = Throw e) ->
  run_tests env table URL (fst (new_DriverTestRunner env base times s0)) tests s
  = (map (fun _ => Throw e) tests, s).
Proof.
  intros H. apply run_rejected.
  unfold new_DriverTestRunner, getCapabilities, bind, emit, await. cbn.
  destruct H as [H|[[b Hb] Ha]].
  - now rewrite H.
  - now rewrite Hb, Ha.
Qed.

(** The browser driver has no session. *)
Definition no_session : Env :=
  {| at_reply := fun _ => Some None;
     at_speech := fun _ => [];
     browser_reply := fun _ => None;
     browser_capabilities := Throw (str "session not created");
     at_capabilities := Ok (Some (str "NVDA"), Some (str "2024.1"), Some (str "windows")) |}.

Lemma rejected_capabilities_fail_every_test_witness :
  run_tests no_session seleniumKeysMap example_URL
    (fst (new_DriverTestRunner no_session example_base example_times initial))
    [example_test; quick_nav_test]
    (snd (new_DriverTestRunner no_session example_base example_times initial))
  = (map (fun _ => Throw (str "session not created")) [example_test; quick_nav_test],
     snd (new_DriverTestRunner no_session example_base example_times initial)).
Proof.
  apply (@rejected_capabilities_fail_every_test no_session seleniumKeysMap example_URL
           example_base example_times (str "session not created")
           [example_test; quick_nav_test] initial
           (snd (new_DriverTestRunner no_session example_base example_times initial))).
  left. reflexivity.
Defined.

(* ================================================================== *)
(** * The pages that [run] opens *)
(* ================================================================== *)

(** The addresses to which the browser was sent, in order. *)
Definition navigations (evs : list Event) : list jsstring :=
  flat_map (fun e => match e with
                     | Navigate url => [url]
                     | _ => []
                     end) evs.

Lemma navigations_app (a b : list Event) :
  navigations (a ++ b) = navigations a ++ navigations b.
Proof. apply flat_map_app. Qed.

Definition stays (e : Event) : Prop :=
  match e with
  | Navigate _ => False
  | _ => True
  end.

Lemma navigations_stays (evs : list Event) : Forall stays evs -> navigations evs = [].
Proof.
  induction 1 as [|e evs He F IH]; [reflexivity|].
  destruct e; cbn in *; auto; contradiction.
Qed.

(** Whenever [m] returns, the addresses to which it sent the browser are
    [urls]. *)
Definition goes {A} (urls : list jsstring) (m : M A) : Prop :=
  forall s, exists evs,
    trace (snd (m s)) = trace s ++ evs
    /\ forall a, fst (m s) = Ok a -> navigations evs = urls.

Lemma goes_stays A (m : M A) : only stays m -> goes [] m.
Proof.
  intros H s. destruct (H s) as (evs & T & F). exists evs. split; [exact T|].
  intros _ _. now apply navigations_stays.
Qed.

Lemma goes_bind A B (us vs : list jsstring) (m : M A) (k : A -> M B) :
  goes us m -> (forall a, goes vs (k a)) -> goes (us ++ vs) (bind m k).
Proof.
  intros Hm Hk s. unfold bind.
  destruct (Hm s) as (e1 & T1 & N1).
  destruct (m s) as [[a|e] s1]; cbn [fst snd] in *.
  - destruct (Hk a s1) as (e2 & T2 & N2).
    exists (e1 ++ e2). rewrite T2, T1, app_assoc. split; [reflexivity|].
    intros b Hb. now rewrite navigations_app, (N1 a eq_refl), (N2 b Hb).
  - exists e1. split; [exact T1|]. discriminate.
Qed.

Lemma goes_for_of_acc A S (f : A -> list jsstring) (xs : list A)
    (body : S -> A -> M S) :
  (forall acc x, goes (f x) (body acc x)) ->
  forall acc, goes (flat_map f xs) (for_of_acc xs body acc).
Proof.
  intros H. induction xs as [|x xs IH]; intros acc; cbn [for_of_acc flat_map].
  - apply goes_stays, only_ret.
  - apply goes_bind; auto.
Qed.

Lemma goes_navigate (env : Env) (url : jsstring) :
  goes [url] (browser_call env (Navigate url)).
Proof.
  intros s. exists [Navigate url]. unfold browser_call.
  destruct (browser_reply env (browser_calls s)); cbn; auto.
Qed.

Lemma goes_collect (env : Env) (urls : list jsstring) (d : N) (op : M unit) :
  goes urls op -> goes urls (_collectSpeech env d op).
Proof.
  intros H. unfold _collectSpeech.
  rewrite <- (app_nil_r urls). apply goes_bind; [exact H|]. intros _.
  apply goes_stays. intros s. eexists. cbn [snd trace]. split; [reflexivity|].
  apply Forall_app. split; [|repeat constructor].
  apply Forall_forall. intros e He. apply in_map_iff in He as (sp & <- & _).
  exact I.
Qed.

Lemma comms_stays (m : jsstring) (e : Event) : comms m e -> stays e.
Proof. destruct e; cbn; auto. Qed.

Lemma stays_send (env : Env) (m : jsstring) (p : Params) : only stays (_send env m p).
Proof. eapply only_impl; [apply comms_stays|apply only_send]. Qed.

Section Pages.

Variable env : Env.
Variable table : list (jsstring * jsstring).
Variable URL : jsstring -> jsstring -> jsstring.
Variable this : DriverTestRunner.

Lemma stays_ensureSettings (settings : jsstring) :
  only stays (ensureSettings env this settings).
Proof.
  apply (@C_ensureSettings env this (fun A (m : M A) => only stays m));
    try solve [only_steps]; intros; apply stays_send.
Qed.

Lemma stays_ensureMode (mode : jsstring) :
  only stays (ensureMode env this mode).
Proof.
  apply (@C_ensureMode env this (fun A (m : M A) => only stays m));
    try solve [only_steps]. apply stays_ensureSettings.
Qed.

Lemma stays_sendKeys (seq : ATKeySequence) : only stays (sendKeys env seq).
Proof.
  apply (@C_sendKeys env (fun A (m : M A) => only stays m));
    try solve [only_steps]; intros; apply stays_send.
Qed.

Lemma goes_openPage (url referencePage : jsstring) :
  goes [url] (openPage env this url referencePage).
Proof.
  unfold openPage.
  apply (@goes_bind _ _ [] [url]); [apply goes_stays; only_steps|]. intros _.
  apply (@goes_bind _ _ [url] []); [apply goes_navigate|]. intros _.
  apply goes_stays. apply only_bind; [|intros _; apply only_try_catch].
  - apply only_browser_call. exact I.
  - apply only_browser_call. exact I.
  - apply only_log. exact I.
Qed.

(** The page of the test. *)
Definition page_of (test : CollectedTest) : jsstring :=
  _appendBaseUrl URL this (referencePage (target test)).

Lemma goes_exercise_command (test : CollectedTest) (c v : Command) :
  goes [page_of test; about_blank] (exercise_command env URL this test c v).
Proof.
  unfold exercise_command.
  apply (@goes_bind _ _ [page_of test] [about_blank]);
    [apply goes_collect, goes_openPage|]. intros _.
  apply (@goes_bind _ _ [] [about_blank]).
  { apply goes_stays.
    destruct (settings c) as [[|x st]|];
      [ | apply stays_ensureSettings | ];
      destruct (mode (target test)) as [[|y m]|];
      first [apply stays_ensureMode | apply only_ret]. }
  intros _.
  apply (@goes_bind _ _ [] [about_blank]);
    [apply goes_stays, only_collectSpeech; try (intros; exact I);
     apply stays_sendKeys|].
  intros spoken.
  apply (@goes_bind _ _ [about_blank] []); [|intros _; apply goes_stays, only_ret].
  apply goes_collect.
  apply (@goes_bind _ _ [] [about_blank]); [apply goes_stays; only_steps|].
  intros _. apply goes_navigate.
Qed.

(** The addresses for a command: the page of the test, then the blank
    page, when the command is valid; none when it is not. *)
Definition pages_of (test : CollectedTest) (c : Command) : list jsstring :=
  if is_valid table c then [page_of test; about_blank] else [].

Lemma goes_run_command (test : CollectedTest)
    (acc : list CommandOutput.t * list AssertionResult.t) (c : Command) :
  goes (pages_of test c) (run_command env table URL this test acc c).
Proof.
  unfold pages_of. pose proof (value_is_valid table c) as H.
  unfold run_command. destruct acc as [outs results].
  destruct (value (validateKeysFromCommand table c)) as [v|].
  - destruct H as (_ & -> & _).
    apply (@goes_bind _ _ [page_of test; about_blank] []);
      [apply goes_exercise_command|].
    intros spoken. apply goes_stays, only_ret.
  - destruct H as (-> & _).
    apply goes_stays. apply only_bind; [apply only_log; exact I|].
    intros _. apply only_ret.
Qed.

Lemma goes_run (test : CollectedTest) :
  goes (about_blank :: flat_map (pages_of test) (commands test))
       (run env table URL this test).
Proof.
  unfold run.
  apply (@goes_bind _ _ [] (about_blank :: flat_map (pages_of test) (commands test)));
    [apply goes_stays, only_await|]. intros caps.
  do 3 (apply (@goes_bind _ _ [] (about_blank :: flat_map (pages_of test) (commands test)));
        [apply goes_stays, only_log; exact I|]; intros _).
  apply (@goes_bind _ _ [about_blank] (flat_map (pages_of test) (commands test)));
    [apply goes_navigate|]. intros _.
  rewrite <- (app_nil_r (flat_map (pages_of test) (commands test))).
  apply goes_bind; [|intros acc; apply goes_stays, only_ret].
  apply goes_for_of_acc. intros acc c. apply goes_run_command.
Qed.

End Pages.

(** X12: When [run] returns a result, the browser was sent to the blank page,
    then, for each valid command of the test in order, to the page of the
    test and back to the blank page, and nowhere else: commands that are
    not valid open no page, and the browser is left on the blank page. *)
Theorem run_opens_the_page_for_each_valid_command
    (env : Env) (table : list (jsstring * jsstring))
    (URL : jsstring -> jsstring -> jsstring) (this : DriverTestRunner)
    (test : CollectedTest) (s : State) (r : TestResult.t) :
  fst (run env table URL this test s) = Ok r ->
  navigations (new_events s (snd (run env table URL this test s)))
  = about_blank
    :: flat_map (fun c => if is_valid table c
                          then [_appendBaseUrl URL this (referencePage (target test));
                                about_blank]
                          else [])
                (commands test).
Proof.
  intros H. destruct (goes_run env table URL this test s) as (evs & T & N).
  rewrite (@new_events_app _ _ _ T). exact (N r H).
Qed.

Lemma run_opens_the_page_for_each_valid_command_witness :
  navigations
    (new_events initial
       (snd (run example_env seleniumKeysMap example_URL
               (example_runner example_env) example_test initial)))
  = about_blank
    :: flat_map (fun c => if is_valid seleniumKeysMap c
                          then [_appendBaseUrl example_URL (example_runner example_env)
                                  (referencePage (target example_test));
                                about_blank]
                          else [])
                (commands example_test).
Proof.
  apply (@run_opens_the_page_for_each_valid_command example_env seleniumKeysMap
           example_URL (example_runner example_env) example_test initial
           example_result).
  vm_compute. reflexivity.
Defined.

(* ================================================================== *)
(** * The mock test runner *)
(* ================================================================== *)

(** A shallow embedding of [src/runner/mock-test-runner.js]: the runner
    that requests the page of the test over HTTP and makes up the output of
    the commands, which it validates as the driver test runner does. *)

From Stdlib Require Import DecimalString.

(** The names of [RunnerMessage] under which the mock runner logs. *)
Module RunnerMessage.
Inductive t := OPEN_PAGE | INVALID_KEYS.
End RunnerMessage.

Module MockAssertionResult.
Record t := {
  command : jsstring;
  expectation : option jsstring;
  pass : bool;
  output : jsstring
}.
End MockAssertionResult.

Module MockTestResult.
Record t := {
  testId : jsstring;
  capabilities : Capabilities;
  commands : list CommandOutput.t;
  results : list MockAssertionResult.t
}.
End MockTestResult.

(** What the mock runner does to the outside. *)
Inductive MockEvent :=
| HttpRequest (url : jsstring)
| RunnerLog (message : RunnerMessage.t) (payload : Payload).

(** The [URL] object that the mock runner is given as [baseUrl]: its
    [pathname] and what [toString()] returns. *)
Record MockBaseURL := {
  url_pathname : jsstring;
  url_href : jsstring
}.

(** A number in a template literal; status codes are natural numbers. *)
Definition decimal (n : N) : jsstring := str (NilZero.string_of_uint (N.to_uint n)).

(** A string or [undefined] in a template literal. *)
Definition template (v : option jsstring) : jsstring :=
  match v with
  | Some s => s
  | None => str "undefined"
  end.

Module MockTestRunner.

Section Mock.

(** The answer to the request of an address: the status code of the
    response, or the error of the request or of the response. *)
Variable http : jsstring -> Result N.

Variable webDriverCodePoints : list (jsstring * jsstring).
Variable URL : jsstring -> jsstring -> jsstring.

(** [this.baseUrl] *)
Variable baseUrl : MockBaseURL.

(** The mock runner awaits nothing after the page is requested; its
    methods are given as the outcome and the events, in order. *)
Definition openPage (url : jsstring) : Result unit * list MockEvent :=
  match http url with
  | Ok statusCode =>
      if (statusCode <? 400)%N
      then (Ok tt, [HttpRequest url; RunnerLog RunnerMessage.OPEN_PAGE (PUrl url)])
      else (Throw (str "request returned " ++ decimal statusCode), [HttpRequest url])
  | Throw e => (Throw e, [HttpRequest url])
  end.

Definition testAssertion (command : Command) (assertion : Assertion) : bool := true.

Definition push_results (command : Command) (pass : bool)
    (results : list MockAssertionResult.t) (assertion : Assertion)
  : list MockAssertionResult.t :=
  let expectationText :=
    or_else (expectation assertion) (assertionStatement assertion) in
  results
  ++ [ {| MockAssertionResult.command := command_id command;
          MockAssertionResult.expectation := expectationText;
          MockAssertionResult.pass := pass;
          MockAssertionResult.output :=
            str "mocked output for " ++ template expectationText |} ].

(** One turn of the loop of [run] over [task.commands]. *)
Definition run_command (task : CollectedTest)
    (acc : list CommandOutput.t * list MockAssertionResult.t * list MockEvent)
    (command : Command)
  : list CommandOutput.t * list MockAssertionResult.t * list MockEvent :=
  let '(commandsOutput, results, events) := acc in
  let v := validateKeysFromCommand webDriverCodePoints command in
  match value v with
  | Some validCommand =>
      (commandsOutput
       ++ [ {| CommandOutput.command := command_id validCommand;
               CommandOutput.output :=
                 Some (str "mocked output for " ++ command_id command);
               CommandOutput.errors := None |} ],
       fold_left (fun results assertion =>
                    push_results validCommand (testAssertion validCommand assertion)
                                 results assertion)
                 (assertions task) results,
       events)
  | None =>
      (commandsOutput
       ++ [ {| CommandOutput.command := command_id command;
               CommandOutput.output := None;
               CommandOutput.errors := errors v |} ],
       fold_left (push_results command false) (assertions task) results,
       events ++ [RunnerLog RunnerMessage.INVALID_KEYS
                            (PInvalidKeys command (errors v))])
  end.

Definition mock_capabilities : Capabilities :=
  {| atName := Some (str "mock"); atVersion := Some (str "1.0");
     browserName := Some (str "mock"); browserVersion := Some (str "1.0");
     platformName := Some (str "mock") |}.

(** The address of the page of the test. *)
Definition page_url (task : CollectedTest) : jsstring :=
  URL ((match url_pathname baseUrl with
        | _ :: _ => url_pathname baseUrl ++ str "/"
        | [] => []
        end) ++ referencePage (target task))
      (url_href baseUrl).

Definition run (task : CollectedTest) : Result MockTestResult.t * list MockEvent :=
  match openPage (page_url task) with
  | (Throw e, events) => (Throw e, events)
  | (Ok _, events) =>
      let '(commandsOutput, results, events') :=
        fold_left (run_command task) (commands task) ([], [], events) in
      (Ok {| MockTestResult.testId := testId (info task);
             MockTestResult.capabilities := mock_capabilities;
             MockTestResult.commands := commandsOutput;
             MockTestResult.results := results |},
       events')
  end.

End Mock.

End MockTestRunner.

Section MockFacts.

Variable http : jsstring -> Result N.
Variable table : list (jsstring * jsstring).
Variable URL : jsstring -> jsstring -> jsstring.
Variable baseUrl : MockBaseURL.
Variable task : CollectedTest.

(** What the mock runner records for a command: a made-up output when it
    is valid, its errors when it is not. *)
Definition mock_output_of (c : Command) : CommandOutput.t :=
  if is_valid table c
  then {| CommandOutput.command := command_id c;
          CommandOutput.output := Some (str "mocked output for " ++ command_id c);
          CommandOutput.errors := None |}
  else {| CommandOutput.command := command_id c;
          CommandOutput.output := None;
          CommandOutput.errors := errors (validateKeysFromCommand table c) |}.

Definition mock_result_of (c : Command) (a : Assertion) : MockAssertionResult.t :=
  {| MockAssertionResult.command := command_id c;
     MockAssertionResult.expectation :=
       or_else (expectation a) (assertionStatement a);
     MockAssertionResult.pass := is_valid table c;
     MockAssertionResult.output :=
       str "mocked output for "
       ++ template (or_else (expectation a) (assertionStatement a)) |}.

Definition mock_results_of (c : Command) : list MockAssertionResult.t :=
  map (mock_result_of c) (assertions task).

Definition mock_log_of (c : Command) : list MockEvent :=
  if is_valid table c then []
  else [RunnerLog RunnerMessage.INVALID_KEYS
                  (PInvalidKeys c (errors (validateKeysFromCommand table c)))].

Lemma mock_fold_push (c : Command) (b : bool) (asserts : list Assertion) :
  is_valid table c = b ->
  forall results,
    fold_left (fun results assertion =>
                 MockTestRunner.push_results c b results assertion)
              asserts results
    = results ++ map (mock_result_of c) asserts.
Proof.
  intros <-. induction asserts as [|a asserts IH]; intros results;
    cbn [fold_left map].
  - now rewrite app_nil_r.
  - rewrite IH. unfold MockTestRunner.push_results. now rewrite <- app_assoc.
Qed.

Lemma mock_run_command
    (acc : list CommandOutput.t * list MockAssertionResult.t * list MockEvent)
    (c : Command) :
  MockTestRunner.run_command table task acc c
  = (fst (fst acc) ++ [mock_output_of c],
     snd (fst acc) ++ mock_results_of c,
     snd acc ++ mock_log_of c).
Proof.
  destruct acc as [[outs results] events]. cbn [fst snd].
  pose proof (value_is_valid table c) as H.
  unfold MockTestRunner.run_command, mock_output_of, mock_results_of, mock_log_of.
  destruct (value (validateKeysFromCommand table c)) as [v|].
  - destruct H as (-> & Hv & _). rewrite Hv, app_nil_r.
    unfold MockTestRunner.testAssertion.
    f_equal. f_equal. now apply mock_fold_push.
  - destruct H as (Hv & _). rewrite Hv.
    f_equal. f_equal. now apply mock_fold_push.
Qed.

Lemma mock_run_commands (cmds : list Command) :
  forall acc,
    fold_left (MockTestRunner.run_command table task) cmds acc
    = (fst (fst acc) ++ map mock_output_of cmds,
       snd (fst acc) ++ flat_map mock_results_of cmds,
       snd acc ++ flat_map mock_log_of cmds).
Proof.
  induction cmds as [|c cmds IH]; intros [[outs results] events];
    cbn [fold_left map flat_map fst snd].
  - now rewrite !app_nil_r.
  - rewrite IH, mock_run_command. cbn [fst snd]. now rewrite <- !app_assoc.
Qed.

Lemma mock_run_ok (r : MockTestResult.t) :
  fst (MockTestRunner.run http table URL baseUrl task) = Ok r ->
  MockTestResult.commands r = map mock_output_of (commands task)
  /\ MockTestResult.results r = flat_map mock_results_of (commands task).
Proof.
  unfold MockTestRunner.run.
  destruct (MockTestRunner.openPage http _) as [[[]|e] events]; [|discriminate].
  rewrite mock_run_commands. cbn. intros [= <-]. auto.
Qed.

End MockFacts.

(** X13: The mock runner fails only when the page of the test cannot be
    fetched: the request fails, or the status of the response is 400 or
    more, which the error then tells.  Otherwise it returns a result,
    whatever the commands: one output for each command, one result for
    each command and assertion, which passes when the command is valid,
    and one log for each command that is not. *)
Theorem mock_run_outcome
    (http : jsstring -> Result N) (table : list (jsstring * jsstring))
    (URL : jsstring -> jsstring -> jsstring) (baseUrl : MockBaseURL)
    (task : CollectedTest) :
  let url := MockTestRunner.page_url URL baseUrl task in
  let out := MockTestRunner.run http table URL baseUrl task in
  match http url with
  | Ok statusCode =>
      if (statusCode <? 400)%N
      then exists r,
             fst out = Ok r
             /\ MockTestResult.commands r = map (mock_output_of table) (commands task)
             /\ MockTestResult.results r
                = flat_map (mock_results_of table task) (commands task)
             /\ snd out
                = [HttpRequest url; RunnerLog RunnerMessage.OPEN_PAGE (PUrl url)]
                  ++ flat_map (mock_log_of table) (commands task)
      else out = (Throw (str "request returned " ++ decimal statusCode),
                  [HttpRequest url])
  | Throw e => out = (Throw e, [HttpRequest url])
  end.
Proof.
  cbv zeta. unfold MockTestRunner.run, MockTestRunner.openPage.
  destruct (http (MockTestRunner.page_url URL baseUrl task)) as [c|e];
    [|reflexivity].
  destruct (c <? 400)%N; [|reflexivity].
  rewrite mock_run_commands. cbn [fst snd app]. eauto.
Qed.

Lemma map_flat_map A B C (f : B -> C) (g : A -> list B) (xs : list A) :
  map f (flat_map g xs) = flat_map (fun x => map f (g x)) xs.
Proof.
  induction xs as [|x xs IH]; [reflexivity|].
  cbn [flat_map]. now rewrite map_app, IH.
Qed.

(** X14: The mock runner reports what the driver test runner reports, but for
    the output: whenever both return a result for a test, the two results
    name the same commands with the same validation errors, and hold, for
    the same commands in the same order, results with the same [pass]; the
    results that pass carry the same expectation. *)
Theorem mock_agrees_with_driver
    (env : Env) (http : jsstring -> Result N) (table : list (jsstring * jsstring))
    (URL URL' : jsstring -> jsstring -> jsstring)
    (this : DriverTestRunner) (baseUrl : MockBaseURL)
    (test : CollectedTest) (s : State)
    (r : TestResult.t) (r' : MockTestResult.t) :
  fst (run env table URL this test s) = Ok r ->
  fst (MockTestRunner.run http table URL' baseUrl test) = Ok r' ->
  map CommandOutput.command (TestResult.commands r)
  = map CommandOutput.command (MockTestResult.commands r')
  /\ map CommandOutput.errors (TestResult.commands r)
     = map CommandOutput.errors (MockTestResult.commands r')
  /\ map (fun x => (AssertionResult.command x, AssertionResult.pass x))
         (TestResult.results r)
     = map (fun y => (MockAssertionResult.command y, MockAssertionResult.pass y))
           (MockTestResult.results r')
  /\ Forall2 (fun x y => AssertionResult.pass x = true ->
                         AssertionResult.expectation x
                         = MockAssertionResult.expectation y)
             (TestResult.results r) (MockTestResult.results r').
Proof.
  intros H H'.
  destruct (run env table URL this test s) as [res s'] eqn:R. cbn [fst] in H.
  subst res. apply run_ok in R as (Hout & Hres & _).
  apply mock_run_ok in H' as [Hc' Hr']. rewrite Hc', Hr', Hres. clear Hc' Hr' Hres.
  repeat split.
  - induction Hout as [|c o cmds outs [Ho _] F IH]; [reflexivity|].
    cbn [map]. rewrite IH, Ho. unfold mock_output_of.
    now destruct (is_valid table c).
  - induction Hout as [|c o cmds outs [_ Ho] F IH]; [reflexivity|].
    cbn [map]. rewrite IH. f_equal. unfold mock_output_of, is_valid.
    destruct (errors (validateKeysFromCommand table c)) as [errs|];
      destruct Ho as [-> _]; reflexivity.
  - clear Hout. rewrite !map_flat_map. unfold results_of, mock_results_of.
    induction (commands test) as [|c cmds IH]; [reflexivity|].
    cbn [flat_map]. rewrite IH, !map_map. reflexivity.
  - clear Hout. unfold results_of, mock_results_of.
    induction (commands test) as [|c cmds IH]; [constructor|].
    cbn [flat_map]. apply Forall2_app; [|exact IH]. clear IH.
    induction (assertions test) as [|a asserts IHa]; cbn [map]; constructor;
      [|exact IHa].
    unfold result_of, mock_result_of. cbn. now intros ->.
Qed.

Definition example_mock_base : MockBaseURL :=
  {| url_pathname := str "/"; url_href := str "http://localhost:8080/" |}.

Definition example_mock_run : Result MockTestResult.t * list MockEvent :=
  MockTestRunner.run (fun _ => Ok 200%N) seleniumKeysMap example_URL
                     example_mock_base example_test.

Definition example_mock_result : MockTestResult.t :=
  Eval vm_compute in
    match fst example_mock_run with
    | Ok r => r
    | Throw _ =>
        {| MockTestResult.testId := [];
           MockTestResult.capabilities := MockTestRunner.mock_capabilities;
           MockTestResult.commands := []; MockTestResult.results := [] |}
    end.

Lemma mock_agrees_with_driver_witness :
  map CommandOutput.command (TestResult.commands example_result)
  = map CommandOutput.command (MockTestResult.commands example_mock_result)
  /\ map (fun x => (AssertionResult.command x, AssertionResult.pass x))
         (TestResult.results example_result)
     = map (fun y => (MockAssertionResult.command y, MockAssertionResult.pass y))
           (MockTestResult.results example_mock_result).
Proof.
  assert (R : fst example_run = Ok example_result) by (vm_compute; reflexivity).
  assert (R' : fst example_mock_run = Ok example_mock_result)
    by (vm_compute; reflexivity).
  destruct (@mock_agrees_with_driver _ _ _ _ _ _ _ _ _ _ _ R R')
    as (Hc & _ & Hr & _).
  split; [exact Hc|exact Hr].
Defined.

(* ================================================================== *)
(** * The requests of [sendKeys] *)
(* ================================================================== *)

Lemma length_requests_of (chords : list ATKeyChord) :
  List.length (requests_of chords)
  = list_sum (map (fun chord => List.length (keys chord)) chords).
Proof.
  unfold requests_of. induction chords as [|chord chords IH]; [reflexivity|].
  cbn [flat_map map list_sum]. now rewrite length_app, length_map, IH.
Qed.

(** X15: When the AT acknowledges every request, [ATDriver.sendKeys] returns,
    and for each chord of the normalized sequence, in order, it has written
    as many [interaction.pressKeys] requests as the chord has keys, each
    with the keys of the whole chord: the number of requests is the number
    of keys of the sequence. *)
Theorem sendKeys_requests_per_key (env : Env) (items : list Item) (s : State) :
  acknowledges env ->
  let out := ATDriver_sendKeys env items s in
  let chords := sequence (ATKey_sequence items) in
  fst out = Ok tt
  /\ map request_params (sent (new_events s (snd out)))
     = flat_map (fun chord =>
                   map (fun _ => PressKeys (map mapped (keys chord))) (keys chord))
                chords
  /\ Forall (fun f => request_method f = m_pressKeys) (sent (new_events s (snd out)))
  /\ List.length (sent (new_events s (snd out)))
     = list_sum (map (fun chord => List.length (keys chord)) chords).
Proof.
  intros acks. cbv zeta.
  pose proof (sendKeys_requests items s acks) as R.
  split; [|split; [exact R|split]].
  - unfold ATDriver_sendKeys. apply passes_for_of. intros chord.
    apply passes_for_of. intros _. now apply passes_send.
  - destruct (only_ATDriver_sendKeys env items s) as (evs & T & F).
    rewrite (@new_events_app _ _ _ T). apply sent_toggling.
    eapply Forall_impl; [apply comms_toggling|exact F].
  - rewrite <- length_requests_of, <- R. now rewrite length_map.
Qed.

Lemma sendKeys_requests_per_key_witness :
  fst (ATDriver_sendKeys quiet_env [IChord insert_space; IKey (ATKey_key (str "a"))]
         initial) = Ok tt
  /\ List.length
       (sent (new_events initial
          (snd (ATDriver_sendKeys quiet_env
                  [IChord insert_space; IKey (ATKey_key (str "a"))] initial))))
     = 3.
Proof.
  destruct (@sendKeys_requests_per_key quiet_env
              [IChord insert_space; IKey (ATKey_key (str "a"))] initial)
    as (H & _ & _ & L).
  - intros id. reflexivity.
  - split; [exact H|exact L].
Defined.
